(** * async-markov: a first-order word-transition model

    A shallow embedding of the revisions of the [AsyncMarkov] class kept in
    this repository, and the properties of its transition table, weighted
    sampler, generation walks and snapshot format.

    Conventions of the embedding.
    - JavaScript strings are taken over code units 0..255 (Rocq's [string]);
      the whitespace class [\s] restricted to that range is
      9, 10, 11, 12, 13, 32 and 160.
    - Counters ([total], [edges], observation counts) are exact integers; the
      model does not cut them off at 2^53.  An observation count can also be
      [NaN], which the increment of a property found on [Object.prototype]
      produces.
    - [Math.random()] is an explicit source of rationals; the product
      [Math.random() * n] is exact.
    - [JSON.parse] / [JSON.stringify] are outside the model: [load] is given
      the decoded object.
    - [Object.prototype] and the built-in functions are as the runtime starts
      them at each call: what a failing call wrote on an inherited value
      before it failed is not part of the state of the model. *)

From Stdlib Require Import List String Ascii ZArith QArith Bool Lia.
From Stdlib Require Import Sorting.Sorted Sorting.Permutation.
Import ListNotations.
Open Scope string_scope.
Open Scope list_scope.
Open Scope Z_scope.

Set Implicit Arguments.

(** ** Numbers *)

(** Observation counts and partial sums: an integer-valued number, or NaN. *)
Inductive num : Type :=
| Int (z : Z)
| NaN.

Definition num_eqb (a b : num) : bool :=
  match a, b with
  | Int x, Int y => x =? y
  | NaN, NaN => true
  | _, _ => false
  end.

(** [a + b] on numbers. *)
Definition num_add (a b : num) : num :=
  match a, b with
  | Int x, Int y => Int (x + y)
  | _, _ => NaN
  end.

(** [x++] stores [x + 1]. *)
Definition num_incr (a : num) : num := num_add a (Int 1).

(** [roll < pick] for an integer [roll]: false as soon as [pick] is NaN. *)
Definition lt_num (roll : Z) (pick : num) : bool :=
  match pick with
  | Int p => roll <? p
  | NaN => false
  end.

(** The [amount] argument of the generation calls: any JavaScript number. *)
Inductive number : Type :=
| Finite (q : Q)
| PosInfinity
| NegInfinity
| NotANumber.

(** [Math.trunc] on a finite number: rounding towards zero. *)
Definition Qtrunc (q : Q) : Z := Z.quot (Qnum q) (Zpos (Qden q)).

(** [amount <= 0]: a comparison with NaN is false. *)
Definition le_zero (amount : number) : bool :=
  match amount with
  | Finite q => Qle_bool q 0
  | NegInfinity => true
  | PosInfinity | NotANumber => false
  end.

(** [Math.trunc(amount) !== amount]: the infinities are their own
    truncation, NaN differs from itself. *)
Definition trunc_differs (amount : number) : bool :=
  match amount with
  | Finite q => negb (Qeq_bool (inject_Z (Qtrunc q)) q)
  | PosInfinity | NegInfinity => false
  | NotANumber => true
  end.

Definition Number_isFinite (amount : number) : bool :=
  match amount with
  | Finite _ => true
  | _ => false
  end.

(** [amount <= 0 || Math.trunc(amount) !== amount || !Number.isFinite(amount)] *)
Definition invalid_amount (amount : number) : bool :=
  le_zero amount || trunc_differs amount || negb (Number_isFinite amount).

(** The number of iterations of [while (amount--)] for a valid amount. *)
Definition amount_to_nat (amount : number) : nat :=
  match amount with
  | Finite q => Z.to_nat (Qtrunc q)
  | _ => 0%nat
  end.

(** [Math.trunc(Math.random() * n)] for the value [r] of [Math.random()]. *)
Definition trunc_mul (r : Q) (n : Z) : Z := Qtrunc (r * inject_Z n)%Q.

Definition unit_interval (r : Q) : Prop := (0 <= r)%Q /\ (r < 1)%Q.

(** ** Ordinary objects and their own-key order

    [Object.keys] lists the array-index keys in ascending numeric order
    first, then the other string keys in the order they were created.  An
    object is kept as the list of its own properties in that order. *)

Section JsObject.
Variables K V : Type.
Variable key_eqb : K -> K -> bool.
(** [Some i] when the key is the array index [i]. *)
Variable array_index : K -> option Z.

Definition object : Type := list (K * V).

Fixpoint obj_get (o : object) (k : K) : option V :=
  match o with
  | [] => None
  | (k', v) :: rest => if key_eqb k' k then Some v else obj_get rest k
  end.

Definition obj_keys (o : object) : list K := map fst o.

(** Overwrite the value of a property that exists: its place is kept. *)
Fixpoint obj_replace (k : K) (v : V) (o : object) : object :=
  match o with
  | [] => []
  | (k', v') :: rest =>
      if key_eqb k' k then (k', v) :: rest
      else (k', v') :: obj_replace k v rest
  end.

(** Create an array-index property: after the smaller indices. *)
Fixpoint obj_insert_index (i : Z) (k : K) (v : V) (o : object) : object :=
  match o with
  | [] => [(k, v)]
  | (k', v') :: rest =>
      match array_index k' with
      | Some j => if j <? i then (k', v') :: obj_insert_index i k v rest
                  else (k, v) :: o
      | None => (k, v) :: o
      end
  end.

(** [o[k] = v] *)
Definition obj_set (k : K) (v : V) (o : object) : object :=
  match obj_get o k with
  | Some _ => obj_replace k v o
  | None =>
      match array_index k with
      | Some i => obj_insert_index i k v o
      | None => o ++ [(k, v)]
      end
  end.
End JsObject.

(** ** Maps ([Map]): insertion order whatever the keys *)

Section JsMap.
Variable V : Type.

Definition jsmap : Type := list (string * V).

Fixpoint map_get (m : jsmap) (k : string) : option V :=
  match m with
  | [] => None
  | (k', v) :: rest => if String.eqb k' k then Some v else map_get rest k
  end.

Definition map_has (m : jsmap) (k : string) : bool :=
  match map_get m k with Some _ => true | None => false end.

(** [m.set(k, v)]: an existing key keeps its place, a new one goes last. *)
Fixpoint map_set (k : string) (v : V) (m : jsmap) : jsmap :=
  match m with
  | [] => [(k, v)]
  | (k', v') :: rest =>
      if String.eqb k' k then (k', v) :: rest
      else (k', v') :: map_set k v rest
  end.

(** [new Map(entries)] *)
Definition map_of_entries (entries : list (string * V)) : jsmap :=
  fold_left (fun m e => map_set (fst e) (snd e) m) entries [].

Definition map_keys (m : jsmap) : list string := map fst m.
Definition map_values (m : jsmap) : list V := map snd m.
End JsMap.

(** ** Strings, the tokenizer and the sentence test *)

Definition Word : Type := string.

Definition code (c : ascii) : Z := Z.of_N (N_of_ascii c).

(** The class [\s] on code units below 256. *)
Definition is_space (c : ascii) : bool :=
  let n := code c in
  ((9 <=? n) && (n <=? 13)) || (n =? 32) || (n =? 160).

Fixpoint trim_start (s : string) : string :=
  match s with
  | EmptyString => EmptyString
  | String c rest => if is_space c then trim_start rest else s
  end.

Fixpoint trim_end (s : string) : string :=
  match s with
  | EmptyString => EmptyString
  | String c rest =>
      let t := trim_end rest in
      if is_space c && (t =? "")%string then EmptyString else String c t
  end.

(** [s.trim()] *)
Definition trim (s : string) : string := trim_end (trim_start s).

(** [s.replace(/\s+/g, " ")]; [in_run] holds inside a run of whitespace. *)
Fixpoint replace_whitespace (in_run : bool) (s : string) : string :=
  match s with
  | EmptyString => EmptyString
  | String c rest =>
      if is_space c
      then if in_run then replace_whitespace true rest
           else String " " (replace_whitespace true rest)
      else String c (replace_whitespace false rest)
  end.

(** [s.split(" ")] *)
Fixpoint split_space (s : string) : list string :=
  match s with
  | EmptyString => [EmptyString]
  | String c rest =>
      let r := split_space rest in
      if (c =? " ")%char then EmptyString :: r
      else match r with
           | h :: t => String c h :: t
           | [] => [String c EmptyString]
           end
  end.

(** [.filter(Boolean)] on strings: the empty string is the falsy one. *)
Definition filter_Boolean (l : list string) : list string :=
  filter (fun s => negb (s =? "")%string) l.

(** [sentenceRegex.test(s)] with [sentenceRegex = /[?!.]/] *)
Fixpoint sentenceRegex_test (s : string) : bool :=
  match s with
  | EmptyString => false
  | String c rest =>
      (c =? "?")%char || (c =? "!")%char || (c =? ".")%char
      || sentenceRegex_test rest
  end.

(** Truthiness of a [Word | null]: [null] and the empty string are falsy. *)
Definition truthy (w : option Word) : bool :=
  match w with
  | None => false
  | Some s => negb (s =? "")%string
  end.

(** [output.join(" ")]: a [null] element prints as the empty string. *)
Fixpoint join (output : list (option Word)) : string :=
  match output with
  | [] => ""
  | [x] => match x with Some s => s | None => "" end
  | x :: rest =>
      ((match x with Some s => s | None => "" end) ++ " " ++ join rest)%string
  end.

(** The consecutive pairs [(data[i - 1], data[i])] for [i = 1 .. length - 1]. *)
Fixpoint pairs (data : list Word) : list (Word * Word) :=
  match data with
  | first :: (second :: _) as rest => (first, second) :: pairs rest
  | _ => []
  end.

(** ** Array-index keys *)

Definition digit_value (c : ascii) : option Z :=
  let n := code c in
  if (48 <=? n) && (n <=? 57) then Some (n - 48) else None.

Fixpoint digits_value (acc : Z) (s : string) : option Z :=
  match s with
  | EmptyString => Some acc
  | String c rest =>
      match digit_value c with
      | Some d => digits_value (10 * acc + d) rest
      | None => None
      end
  end.

(** A string key is an array index when it is the canonical decimal form of
    an integer in [0, 2^32 - 2]. *)
Definition string_array_index (s : string) : option Z :=
  match s with
  | EmptyString => None
  | String c rest =>
      if (c =? "0")%char && negb (rest =? "")%string then None
      else match digits_value 0 s with
           | Some n => if n <? 2 ^ 32 - 1 then Some n else None
           | None => None
           end
  end.

(** The key a number is stored under, [String(n)], is an array index when
    [n] is an integer in [0, 2^32 - 2]. *)
Definition num_array_index (n : num) : option Z :=
  match n with
  | Int z => if (0 <=? z) && (z <? 2 ^ 32 - 1) then Some z else None
  | NaN => None
  end.

(** ** Nodes *)

(** [related: Record<Word, number>] and [sums: Record<string, Word>]; the
    keys of [sums] are partial sums, kept as numbers. *)
Definition Related : Type := object string num.
Definition Sums : Type := object num Word.

Definition related_get : Related -> Word -> option num := obj_get String.eqb.
Definition related_set : Word -> num -> Related -> Related :=
  obj_set String.eqb string_array_index.
Definition sums_get : Sums -> num -> option Word := obj_get num_eqb.
Definition sums_set : num -> Word -> Sums -> Sums :=
  obj_set num_eqb num_array_index.

(** [related] is created by the literal [{}], so a read falls back on
    [Object.prototype]. *)
Definition object_prototype_names : list string :=
  [ "constructor"; "__defineGetter__"; "__defineSetter__"; "hasOwnProperty";
    "__lookupGetter__"; "__lookupSetter__"; "isPrototypeOf";
    "propertyIsEnumerable"; "toString"; "valueOf"; "__proto__";
    "toLocaleString" ].

Inductive property : Type :=
| Undefined
| Own (n : num)
| Inherited.

(** [related[k]] *)
Definition related_read (r : Related) (k : Word) : property :=
  match related_get r k with
  | Some n => Own n
  | None =>
      if existsb (String.eqb k) object_prototype_names then Inherited
      else Undefined
  end.

(** [typeof related[k] === "undefined"] *)
Definition is_undefined (p : property) : bool :=
  match p with Undefined => true | _ => false end.

(** The number a property value converts to: a function, an object and
    [undefined] all convert to NaN. *)
Definition to_number (p : property) : num :=
  match p with Own n => n | _ => NaN end.

(** [related[k] = v] for a number [v]: the inherited setter of [__proto__]
    ignores a number, every other assignment writes an own property. *)
Definition related_write (k : Word) (v : num) (r : Related) : Related :=
  match related_get r k with
  | Some _ => related_set k v r
  | None => if (k =? "__proto__")%string then r else related_set k v r
  end.

(** [related[k]++] *)
Definition related_increment (k : Word) (r : Related) : Related :=
  related_write k (num_incr (to_number (related_read r k))) r.

(** A node; [S] is the type of its [sums] field, which the revisions
    declare differently. *)
Record Node (S : Type) : Type := mkNode {
  mapped : bool;
  related : Related;
  sums : S;
  total : Z
}.

Arguments mkNode {S}.
Arguments mapped {S}.
Arguments related {S}.
Arguments sums {S}.
Arguments total {S}.

Definition isMappedNode {S} (node : Node S) : bool := mapped node.

(** The loop of [calculateWeights] over [Object.keys(node.related)],
    started on the object [sums]; the running total is the first component. *)
Definition accumulate (rel : Related) (start : Sums) : num * Sums :=
  fold_left
    (fun (acc : num * Sums) (key : Word) =>
       let value := to_number (related_read rel key) in
       let total := num_add (fst acc) value in
       (total, sums_set total key (snd acc)))
    (obj_keys rel) (Int 0, start).

(** The loop of [selectWeighted] over [Object.keys(sums)]. *)
Fixpoint first_pick (roll : Z) (sums : Sums) (keys : list num) : option Word :=
  match keys with
  | [] => None
  | pick :: rest =>
      if lt_num roll pick then sums_get sums pick
      else first_pick roll sums rest
  end.

(** ** Errors, outcomes and the state monad of the methods *)

(** The errors are told apart by their message:
    - [EmptyModel]: "Cannot generate words, this model has no processed data"
    - [InvalidArgument]: "... must be a positive finite integer"
    - [UnsupportedOperation]: "Model data does not contain delimiters ..."
    - [TypeError]: raised by the runtime on a property of [null]/[undefined]. *)
Inductive error : Type :=
| EmptyModel
| InvalidArgument
| UnsupportedOperation
| TypeError.

Inductive outcome (A : Type) : Type :=
| Return (a : A)
| Throw (e : error).

Arguments Return {A}.
Arguments Throw {A}.

Definition M (St A : Type) : Type := St -> outcome A * St.

Definition ret {St A} (a : A) : M St A := fun s => (Return a, s).
Definition throw {St A} (e : error) : M St A := fun s => (Throw e, s).
Definition bind {St A B} (c : M St A) (k : A -> M St B) : M St B :=
  fun s =>
    match c s with
    | (Return a, s') => k a s'
    | (Throw e, s') => (Throw e, s')
    end.

Notation "x <- c ;; k" := (bind c (fun x => k))
  (at level 61, c at next level, right associativity).
Notation "c ;;; k" := (bind c (fun _ => k))
  (at level 61, right associativity).

(** The source behind [Math.random()]: the values it will return, and how
    many have been drawn. *)
Record Random : Type := mkRandom {
  source : nat -> Q;
  position : nat
}.

Definition Math_random (g : Random) : Q * Random :=
  (source g (position g), mkRandom (source g) (S (position g))).

(** [keys[index]]: [undefined] out of range. *)
Definition at_index {A} (keys : list A) (index : Z) : option A :=
  if index <? 0 then None else nth_error keys (Z.to_nat index).

(** ** The transition table of the TypeScript revisions

    What the two TypeScript revisions share word for word: [add], [finalize],
    [toJSON], [load], [reset] and the accessors.  They differ in the initial
    [sums] of a node and in [calculateWeights]. *)

(** [#nodes], [#hasSentences], [#edges] *)
Record AsyncMarkov (S : Type) : Type := mkModel {
  nodes : jsmap (Node S);
  hasSentences : bool;
  edges : Z
}.

Arguments mkModel {S}.
Arguments nodes {S}.
Arguments hasSentences {S}.
Arguments edges {S}.

(** [Representation]; [rep_edges] is [None] when [typeof data.edges] is not
    ["number"]. *)
Record Representation (S : Type) : Type := mkRepresentation {
  rep_edges : option Z;
  rep_words : list (Word * Node S);
  rep_hasSentences : bool
}.

Arguments mkRepresentation {S}.
Arguments rep_edges {S}.
Arguments rep_words {S}.
Arguments rep_hasSentences {S}.

Section Table.
Variable S : Type.
(** [sums] of a node that [add] creates. *)
Variable initSums : S.
(** [AsyncMarkov.calculateWeights(node, force)] of the revision. *)
Variable calculateWeights : Node S -> bool -> Node S.

(** [new AsyncMarkov()] *)
Definition empty : AsyncMarkov S := mkModel [] false 0.

Definition initNode : Node S := mkNode false [] initSums 0.

(** The body of the loop of [add] for the pair [(first, second)].  The node
    of [first] has just been found or created, so the branch [None] (the
    "will never happen" of revision 001) is never taken. *)
Definition observe (first second : Word) (m : AsyncMarkov S) : AsyncMarkov S :=
  let nodes1 :=
    if negb (map_has (nodes m) first) then map_set first initNode (nodes m)
    else nodes m in
  match map_get nodes1 first with
  | None => mkModel nodes1 (hasSentences m) (edges m)
  | Some node =>
      let related1 :=
        if is_undefined (related_read (related node) second)
        then related_write second (Int 0) (related node)
        else related node in
      let node' :=
        mkNode false (related_increment second related1) (sums node)
               (total node + 1) in
      mkModel (map_set first node' nodes1) (hasSentences m) (edges m + 1)
  end.

(** The tokens of [add]. *)
Definition tokens (str : string) : list Word :=
  filter_Boolean (split_space (replace_whitespace false (trim str))).

Definition add (str : string) (m : AsyncMarkov S) : AsyncMarkov S :=
  let m1 :=
    if negb (hasSentences m)
    then mkModel (nodes m) (sentenceRegex_test str) (edges m)
    else m in
  let data := tokens str in
  if (Z.of_nat (List.length data) <? 2) then m1
  else fold_left (fun acc p => observe (fst p) (snd p) acc) (pairs data) m1.

Definition finalize (m : AsyncMarkov S) : AsyncMarkov S :=
  mkModel (map (fun e => (fst e, calculateWeights (snd e) false)) (nodes m))
          (hasSentences m) (edges m).

Definition has (m : AsyncMarkov S) (word : Word) : bool :=
  map_has (nodes m) word.

(** [toJSON()]: the snapshot, and the model after [finalize]. *)
Definition toJSON (m : AsyncMarkov S) : Representation S * AsyncMarkov S :=
  let m' := finalize m in
  (mkRepresentation (Some (edges m')) (nodes m') (hasSentences m'), m').

(** [reset()] is [this.#nodes.clear()]. *)
Definition reset (m : AsyncMarkov S) : AsyncMarkov S :=
  mkModel [] (hasSentences m) (edges m).

(** [load(input)] on the decoded input. *)
Definition load (data : Representation S) (m : AsyncMarkov S) : AsyncMarkov S :=
  let m0 := reset m in
  let nodes' := map_of_entries (rep_words data) in
  let edges' :=
    match rep_edges data with
    | Some e => e
    | None =>
        fold_left (fun acc node => acc + total node) (map_values nodes')
                  (edges m0)
    end in
  mkModel nodes' (rep_hasSentences data) edges'.

Definition size (m : AsyncMarkov S) : Z := Z.of_nat (List.length (nodes m)).
Definition keys (m : AsyncMarkov S) : list Word := map_keys (nodes m).

(** [AsyncMarkov.create(input)] *)
Definition create (data : Representation S) : AsyncMarkov S := load data empty.
End Table.

(** ** Generation in the TypeScript revisions

    [generateWord], [generateWords] and [generateSentences] are the same text
    in both revisions; they call the [selectWeighted] of their revision, which
    is given the value [Math.random()] returns to it. *)

(** What a method call can change: the model and the random source. *)
Record World (S : Type) : Type := mkWorld {
  model : AsyncMarkov S;
  random : Random
}.

Arguments mkWorld {S}.
Arguments model {S}.
Arguments random {S}.

Section Generation.
Variable S : Type.
Variable selectWeighted : Node S -> Q -> outcome (option Word) * Node S.

Definition generateWord (root : option Word) : M (World S) (option Word) :=
  fun w =>
    let m := model w in
    if size m =? 0 then (Throw EmptyModel, w)
    else
      let '(root1, g1) :=
        if negb (truthy root) then
          let '(r, g) := Math_random (random w) in
          let keys := keys m in
          let index := trunc_mul r (Z.of_nat (List.length keys)) in
          (at_index keys index, g)
        else (root, random w) in
      match root1 with
      | None => (Return None, mkWorld m g1)
      | Some word =>
          match map_get (nodes m) word with
          | None => (Return None, mkWorld m g1)
          | Some object =>
              let '(r, g2) := Math_random g1 in
              let '(result, object') := selectWeighted object r in
              (result,
               mkWorld (mkModel (map_set word object' (nodes m))
                                (hasSentences m) (edges m)) g2)
          end
      end.

(** [while (amount--)] of [generateWords], [n] iterations left. *)
Fixpoint generateWords_loop (n : nat) (stop : bool) (current : option Word)
         (output : list (option Word)) : M (World S) (list (option Word)) :=
  match n with
  | O => ret output
  | Datatypes.S n' =>
      current1 <- generateWord current ;;
      if negb (truthy current1) then
        if stop then ret output
        else
          current2 <- generateWord None ;;
          generateWords_loop n' stop current2 (output ++ [current2])
      else generateWords_loop n' stop current1 (output ++ [current1])
  end.

(** [generateWords(amount, root, options)]; [stop] is [options.stop]. *)
Definition generateWords (amount : number) (root : option Word)
           (stop : option bool) : M (World S) string :=
  if invalid_amount amount then throw InvalidArgument
  else
    let output := if truthy root then [root] else [] in
    let stop := match stop with Some b => b | None => false end in
    output' <- generateWords_loop (amount_to_nat amount) stop root output ;;
    ret (join output').

(** [while (amount > 0)] of [generateSentences]; the loop need not end, so
    it is given [fuel] iterations and answers [None] when they run out. *)
Fixpoint generateSentences_loop (fuel : nat) (amount : Z)
         (current : option Word) (output : list (option Word))
  : M (World S) (option (list (option Word))) :=
  if amount >? 0 then
    match fuel with
    | O => ret None
    | Datatypes.S fuel' =>
        current1 <- generateWord current ;;
        let amount1 :=
          if truthy current1
             && match current1 with
                | Some s => sentenceRegex_test s
                | None => false
                end
          then amount - 1 else amount in
        generateSentences_loop fuel' amount1 current1 (output ++ [current1])
    end
  else ret (Some output).

Definition generateSentences (fuel : nat) (amount : number)
           (root : option Word) : M (World S) (option string) :=
  fun w =>
    if negb (hasSentences (model w)) then (Throw UnsupportedOperation, w)
    else if invalid_amount amount then (Throw InvalidArgument, w)
    else
      let output := if truthy root then [root] else [] in
      (output' <-
         generateSentences_loop fuel (Qtrunc (match amount with
                                              | Finite q => q
                                              | _ => 0%Q
                                              end)) root output ;;
       ret (option_map join output')) w.
End Generation.

(** ** Revision 000 (src/unnamed/part_000) *)

Module Rev000.
(** [sums: Record<string, Word> | null] *)
Definition Node : Type := Node (option Sums).
Definition AsyncMarkov : Type := AsyncMarkov (option Sums).

Definition calculateWeights (node : Node) (force : bool) : Node :=
  if isMappedNode node && negb force then node
  else
    mkNode true (related node)
           (Some (snd (accumulate (related node) []))) (total node).

Definition selectWeighted (object : Node) (r : Q)
  : outcome (option Word) * Node :=
  let node :=
    if negb (isMappedNode object) then calculateWeights object false
    else object in
  let roll := trunc_mul r (total node) in
  match sums node with
  | None => (Throw TypeError, node)
  | Some s => (Return (first_pick roll s (obj_keys s)), node)
  end.

Definition empty : AsyncMarkov := empty (option Sums).
Definition add := add (None : option Sums).
Definition finalize := finalize calculateWeights.
Definition toJSON := toJSON calculateWeights.
Definition load := @load (option Sums).
Definition reset := @reset (option Sums).
Definition size := @size (option Sums).
Definition generateWord := generateWord selectWeighted.
Definition generateWords := generateWords selectWeighted.
Definition generateSentences := generateSentences selectWeighted.
End Rev000.

(** ** Revision 001 (src/unnamed/part_001) *)

Module Rev001.
(** [sums: Record<string, Word>] *)
Definition Node : Type := Node Sums.
Definition AsyncMarkov : Type := AsyncMarkov Sums.

(** The loop writes into [node.sums] as it stands. *)
Definition calculateWeights (node : Node) (force : bool) : Node :=
  if isMappedNode node && negb force then node
  else
    mkNode true (related node)
           (snd (accumulate (related node) (sums node))) (total node).

Definition selectWeighted (object : Node) (r : Q)
  : outcome (option Word) * Node :=
  let node :=
    if negb (isMappedNode object) then calculateWeights object false
    else object in
  let roll := trunc_mul r (total node) in
  (Return (first_pick roll (sums node) (obj_keys (sums node))), node).

Definition empty : AsyncMarkov := empty Sums.
Definition add := add ([] : Sums).
Definition finalize := finalize calculateWeights.
Definition toJSON := toJSON calculateWeights.
Definition load := @load Sums.
Definition reset := @reset Sums.
Definition size := @size Sums.
Definition generateWord := generateWord selectWeighted.
Definition generateWords := generateWords selectWeighted.
Definition generateSentences := generateSentences selectWeighted.
End Rev001.

(** ** Revision 003 (src/unnamed/part_003): [reset]

    This revision keeps no edge counter.  [reset] first points every node's
    [related] at a fresh object, then clears the map; the nodes are out of the
    model afterwards. *)

Module Rev003.
Record AsyncMarkov : Type := mkModel {
  words : jsmap (Node (option Sums));
  hasSentences : bool
}.

Definition reset (m : AsyncMarkov) : AsyncMarkov :=
  mkModel [] (hasSentences m).

Definition size (m : AsyncMarkov) : Z := Z.of_nat (List.length (words m)).

(** The object [toJSON] returns and [load] reads: it may carry a [data] and
    a [words] property, each an array of entries. *)
Record Exported : Type := mkExported {
  exp_data : option (list (Word * Node (option Sums)));
  exp_words : option (list (Word * Node (option Sums)));
  exp_hasSentences : bool
}.

Definition toJSON (m : AsyncMarkov) : Exported :=
  mkExported (Some (words m)) None (hasSentences m).

(** [load(input)]: [new Map(undefined)] is the empty map. *)
Definition load (data : Exported) (m : AsyncMarkov) : AsyncMarkov :=
  let m0 := reset m in
  mkModel (map_of_entries (match exp_words data with
                           | Some entries => entries
                           | None => []
                           end))
          (exp_hasSentences data).
End Rev003.

(** ** The JavaScript revision (src/index.js) *)

Module Legacy.
(** [{ total, related, mapped }]; [mapped] is [null] or the object of
    thresholds. *)
Record Node : Type := mkNode {
  total : Z;
  related : Related;
  mapped : option Sums
}.

(** The own properties of [#words]. *)
Definition Words : Type := object string Node.

Definition words_get : Words -> Word -> option Node := obj_get String.eqb.
Definition words_set : Word -> Node -> Words -> Words :=
  obj_set String.eqb string_array_index.

(** [#words] is [None] once it holds [undefined].  A new instance creates
    it by [Object.create(null)], without prototype; [load] installs the
    object that [JSON.parse] built, which inherits from [Object.prototype]:
    [inherits] tells the two apart. *)
Record AsyncMarkov : Type := mkModel {
  words : option Words;
  hasSentences : bool;
  inherits : bool
}.

(** Whether [#words[k]] is a property found on [Object.prototype]: a
    function, or the prototype itself for [__proto__].  Such a value is
    truthy, its [typeof] is not ["undefined"], and it has no [related].
    [Object.prototype] is taken as the runtime starts it. *)
Definition words_inherited (m : AsyncMarkov) (ws : Words) (k : Word) : bool :=
  inherits m
  && match words_get ws k with
     | Some _ => false
     | None => existsb (String.eqb k) object_prototype_names
     end.

(** The object [toJSON] returns and [load] decodes: it may carry a [data]
    and a [words] property. *)
Record Snapshot : Type := mkSnapshot {
  snap_data : option Words;
  snap_words : option Words;
  snap_hasSentences : bool
}.

Definition empty : AsyncMarkov := mkModel (Some []) false false.

(** The body of the loop of [add].  When [#words[first]] is inherited no
    Entry is created, and [.related[second]] of the inherited value raises
    a [TypeError] before anything is written. *)
Definition observe (first second : Word) : M AsyncMarkov unit :=
  fun m =>
    match words m with
    | None => (Throw TypeError, m)
    | Some ws =>
        if words_inherited m ws first then (Throw TypeError, m) else
        let ws1 :=
          match words_get ws first with
          | None => words_set first (mkNode 0 [] None) ws
          | Some _ => ws
          end in
        match words_get ws1 first with
        | None =>
            (Throw TypeError, mkModel (Some ws1) (hasSentences m) (inherits m))
        | Some node =>
            let related1 :=
              if is_undefined (related_read (related node) second)
              then related_write second (Int 0) (related node)
              else related node in
            let node' :=
              mkNode (total node + 1) (related_increment second related1)
                     (mapped node) in
            (Return tt,
             mkModel (Some (words_set first node' ws1)) (hasSentences m)
                     (inherits m))
        end
    end.

Fixpoint add_loop (ps : list (Word * Word)) : M AsyncMarkov unit :=
  match ps with
  | [] => ret tt
  | (first, second) :: rest => observe first second ;;; add_loop rest
  end.

Definition add (str : string) : M AsyncMarkov unit :=
  fun m =>
    let m1 :=
      if negb (hasSentences m)
      then mkModel (words m) (sentenceRegex_test str) (inherits m)
      else m in
    let data := split_space (replace_whitespace false str) in
    if (Z.of_nat (List.length data) <? 2) then (Return tt, m1)
    else add_loop (pairs data) m1.

Definition calculateWeights (object : Node) : Node :=
  mkNode (total object) (related object)
         (Some (snd (accumulate (related object) []))).

Definition selectWeighted (object : Node) (r : Q) : option Word * Node :=
  let object1 :=
    match mapped object with
    | None => calculateWeights object
    | Some _ => object
    end in
  let roll := trunc_mul r (total object1) in
  match mapped object1 with
  | None => (None, object1)
  | Some s => (first_pick roll s (obj_keys s), object1)
  end.

(** [generateWord(root)].  An inherited [#words[root]] is truthy, so it is
    handed to [selectWeighted], whose [calculateWeights] raises a
    [TypeError] on [Object.keys(object.related)]. *)
Definition generateWord (root : option Word)
  : M (AsyncMarkov * Random) (option Word) :=
  fun w =>
    let '(m, g0) := w in
    match words m with
    | None => (Throw TypeError, w)
    | Some ws =>
        if Z.of_nat (List.length (obj_keys ws)) =? 0
        then (Throw EmptyModel, w)
        else
          let '(root1, g1) :=
            if negb (truthy root) then
              let '(r, g) := Math_random g0 in
              let keys := obj_keys ws in
              let index := trunc_mul r (Z.of_nat (List.length keys)) in
              (at_index keys index, g)
            else (root, g0) in
          match root1 with
          | None => (Return None, (m, g1))
          | Some word =>
              if words_inherited m ws word then (Throw TypeError, (m, g1))
              else
              match words_get ws word with
              | None => (Return None, (m, g1))
              | Some object =>
                  let '(r, g2) := Math_random g1 in
                  let '(result, object') := selectWeighted object r in
                  (Return result,
                   (mkModel (Some (obj_replace String.eqb word object' ws))
                            (hasSentences m) (inherits m), g2))
              end
          end
    end.

Definition toJSON (m : AsyncMarkov) : Snapshot :=
  mkSnapshot (words m) None (hasSentences m).

(** [AsyncMarkov.load(json)] on the decoded [json]: [#words] becomes the
    decoded [data.words], an object with the prototype [Object.prototype]. *)
Definition load (data : Snapshot) : AsyncMarkov :=
  mkModel (snap_words data) (snap_hasSentences data) true.

(** [get size]: [Object.keys(undefined)] is a [TypeError]. *)
Definition size (m : AsyncMarkov) : outcome Z :=
  match words m with
  | None => Throw TypeError
  | Some ws => Return (Z.of_nat (List.length (obj_keys ws)))
  end.
(** [finalize()]: [calculateWeights] on the node of every key, from the
    last key to the first. *)
Definition finalize : M AsyncMarkov unit :=
  fun m =>
    match words m with
    | None => (Throw TypeError, m)
    | Some ws =>
        let ws' :=
          fold_left
            (fun acc key =>
               match words_get acc key with
               | Some node => obj_replace String.eqb key (calculateWeights node) acc
               | None => acc
               end)
            (rev (obj_keys ws)) ws in
        (Return tt, mkModel (Some ws') (hasSentences m) (inherits m))
    end.

(** [while (amount--)] of [generateWords]: a dead end re-seeds. *)
Fixpoint generateWords_loop (n : nat) (current : option Word)
         (output : list (option Word))
  : M (AsyncMarkov * Random) (list (option Word)) :=
  match n with
  | O => ret output
  | Datatypes.S n' =>
      current1 <- generateWord current ;;
      if negb (truthy current1) then
        current2 <- generateWord None ;;
        generateWords_loop n' current2 (output ++ [current2])
      else generateWords_loop n' current1 (output ++ [current1])
  end.

Definition generateWords (amount : number) (root : option Word)
  : M (AsyncMarkov * Random) string :=
  if invalid_amount amount then throw InvalidArgument
  else
    let output := if truthy root then [root] else [] in
    output' <- generateWords_loop (amount_to_nat amount) root output ;;
    ret (join output').

End Legacy.

(** ** The asynchronous revision (src/unnamed/part_002)

    [process] feeds a string or a byte buffer; a stream input is driven by
    events and is outside this model.  The methods are taken without a wait
    between two pairs ([forceBlocking]); [weightedPick] and
    [calculateWeights] are the text of [selectWeighted] and
    [calculateWeights] of src/index.js. *)

Module Rev002.
(** [#words], [#hasSentences], [#busy], [#prepared]; [words] is [None] once
    it holds [undefined].  A new instance creates [#words] by
    [Object.create(null)]; [load] installs the object that [JSON.parse]
    built, which inherits from [Object.prototype]: [inherits] tells the two
    apart. *)
Record AsyncMarkov : Type := mkModel {
  words : option Legacy.Words;
  hasSentences : bool;
  busy : bool;
  prepared : bool;
  inherits : bool
}.

Definition empty : AsyncMarkov := mkModel (Some []) false false false false.

(** Whether [#words[k]] is a property found on [Object.prototype]. *)
Definition words_inherited (m : AsyncMarkov) (ws : Legacy.Words) (k : Word)
  : bool :=
  inherits m
  && match Legacy.words_get ws k with
     | Some _ => false
     | None => existsb (String.eqb k) object_prototype_names
     end.

(** The property a word or [undefined] names. *)
Definition property_name (key : option Word) : Word :=
  match key with
  | Some s => s
  | None => "undefined"
  end.

(** [_addWords(first, second)]; [second] is [None] for [undefined].  When
    [#words[first]] is inherited no Entry is created: [total++] is done on
    the inherited value, and [.related[second]] of it raises a [TypeError];
    the instance is as before. *)
Definition _addWords (first : Word) (second : option Word)
  : M AsyncMarkov unit :=
  fun m =>
    match words m with
    | None => (Throw TypeError, m)
    | Some ws =>
        if words_inherited m ws first then (Throw TypeError, m) else
        let ws1 :=
          match Legacy.words_get ws first with
          | None => Legacy.words_set first (Legacy.mkNode 1 [] None) ws
          | Some node =>
              Legacy.words_set first
                (Legacy.mkNode (Legacy.total node + 1) (Legacy.related node)
                               (Legacy.mapped node)) ws
          end in
        match Legacy.words_get ws1 first with
        | None =>
            (Throw TypeError,
             mkModel (Some ws1) (hasSentences m) (busy m) (prepared m)
                     (inherits m))
        | Some node =>
            let key := property_name second in
            let related1 :=
              if is_undefined (related_read (Legacy.related node) key)
              then related_write key (Int 1) (Legacy.related node)
              else related_increment key (Legacy.related node) in
            let node' :=
              Legacy.mkNode (Legacy.total node) related1 (Legacy.mapped node) in
            (Return tt,
             mkModel (Some (Legacy.words_set first node' ws1))
                     (hasSentences m) (busy m) (prepared m) (inherits m))
        end
    end.

(** The class [\w]. *)
Definition is_word_char (c : ascii) : bool :=
  let n := code c in
  ((48 <=? n) && (n <=? 57)) || ((65 <=? n) && (n <=? 90)) || (n =? 95)
  || ((97 <=? n) && (n <=? 122)).

(** [s.replace(/[^\w\d ]/g, "")] *)
Fixpoint remove_other (s : string) : string :=
  match s with
  | EmptyString => EmptyString
  | String c rest =>
      if is_word_char c || (c =? " ")%char then String c (remove_other rest)
      else remove_other rest
  end.

(** [data] of [processString]. *)
Definition data_of (str : string) : list Word :=
  split_space (replace_whitespace false (remove_other str)).

(** The pairs [(data[i], data[i + 1])] for [i = 0 .. length - 1]: the last
    one has [undefined] for second. *)
Fixpoint pairs_undefined (data : list Word) : list (Word * option Word) :=
  match data with
  | [] => []
  | first :: rest =>
      (first, match rest with
              | second :: _ => Some second
              | [] => None
              end) :: pairs_undefined rest
  end.

Fixpoint addWords_loop (ps : list (Word * option Word)) : M AsyncMarkov unit :=
  match ps with
  | [] => ret tt
  | (first, second) :: rest => _addWords first second ;;; addWords_loop rest
  end.

Definition processString (str : string) : M AsyncMarkov unit :=
  fun m =>
    let m1 :=
      if negb (hasSentences m)
      then mkModel (words m) (sentenceRegex_test str) (busy m) (prepared m)
                   (inherits m)
      else m in
    addWords_loop (pairs_undefined (data_of str)) m1.

(** [String.fromCharCode(char)] *)
Definition fromCharCode (char : Z) : string :=
  String (ascii_of_N (Z.to_N char)) EmptyString.

(** The loop of [processBuffer] from the byte it has come to, with the
    values of [first] and [second]. *)
Fixpoint processBuffer_loop (buffer : list Z) (first second : Word)
  : M AsyncMarkov unit :=
  match buffer with
  | [] => ret tt
  | char :: rest =>
      fun m =>
        let m1 :=
          if negb (hasSentences m)
             && ((char =? 33) || (char =? 46) || (char =? 63))
          then mkModel (words m) true (busy m) (prepared m) (inherits m)
          else m in
        if char =? 32 then
          ((if truthy (Some first) then _addWords first (Some second)
            else ret tt) ;;;
           processBuffer_loop rest second "") m1
        else if (32 <? char) && (char <? 127) then
          processBuffer_loop rest first (second ++ fromCharCode char)%string m1
        else processBuffer_loop rest first second m1
  end.

Definition processBuffer (buffer : list Z) : M AsyncMarkov unit :=
  processBuffer_loop buffer "" "".

(** The inputs of [process]: a string, the bytes of a [Uint8Array], or a
    value of another type. *)
Inductive Input : Type :=
| InString (s : string)
| InBytes (b : list Z)
| InOther.

(** How a call of [process] ends: it returns at once ([Skipped]), returns
    the instance ([Processed]), raises "Invalid input type provided"
    ([InvalidInput]) or raises an error of the runtime. *)
Inductive process_result : Type :=
| Skipped
| Processed
| InvalidInput
| Failed (e : error).

Definition process (input : Input) (m : AsyncMarkov)
  : process_result * AsyncMarkov :=
  if busy m then (Skipped, m)
  else
    let m1 :=
      mkModel (words m) (hasSentences m) true (prepared m) (inherits m) in
    let finish (r : outcome unit * AsyncMarkov) :=
      match r with
      | (Return _, m2) =>
          (Processed,
           mkModel (words m2) (hasSentences m2) false true (inherits m2))
      | (Throw e, m2) => (Failed e, m2)
      end in
    match input with
    | InString s => finish (processString s m1)
    | InBytes b => finish (processBuffer b m1)
    | InOther => (InvalidInput, m1)
    end.

(** [finalize()] *)
Definition finalize : M AsyncMarkov unit :=
  fun m =>
    match Legacy.finalize
            (Legacy.mkModel (words m) (hasSentences m) (inherits m)) with
    | (r, m') =>
        (r, mkModel (Legacy.words m') (hasSentences m) (busy m) (prepared m)
                    (inherits m))
    end.

(** [word(root)]; [keys[index]] out of range is [undefined], which names the
    property "undefined" of [#words].  An inherited [#words[root]] is truthy,
    so it is handed to [weightedPick], whose [calculateWeights] raises a
    [TypeError] on [Object.keys(object.related)]. *)
Definition word (root : option Word)
  : M (AsyncMarkov * Random) (option Word) :=
  fun w =>
    let '(m, g0) := w in
    if negb (prepared m) then (Throw EmptyModel, w)
    else
      match words m with
      | None => (Throw TypeError, w)
      | Some ws =>
          let '(root1, g1) :=
            if negb (truthy root) then
              let '(r, g) := Math_random g0 in
              let keys := obj_keys ws in
              let index := trunc_mul r (Z.of_nat (List.length keys)) in
              (at_index keys index, g)
            else (root, g0) in
          if words_inherited m ws (property_name root1)
          then (Throw TypeError, (m, g1))
          else
          match Legacy.words_get ws (property_name root1) with
          | None => (Return None, (m, g1))
          | Some object =>
              let '(r, g2) := Math_random g1 in
              let '(result, object') := Legacy.selectWeighted object r in
              (Return result,
               (mkModel
                  (Some (obj_replace String.eqb (property_name root1)
                                     object' ws))
                  (hasSentences m) (busy m) (prepared m) (inherits m), g2))
          end
      end.

(** [while (amount >= 0)] of [sentences], with [fuel] iterations;
    [current.indexOf] on [null] is a [TypeError]. *)
Fixpoint sentences_loop (fuel : nat) (amount : Z)
         (current : option Word) (output : list (option Word))
  : M (AsyncMarkov * Random) (option (list (option Word))) :=
  if amount >=? 0 then
    match fuel with
    | O => ret None
    | Datatypes.S fuel' =>
        current1 <- word current ;;
        match current1 with
        | None => throw TypeError
        | Some s =>
            let amount1 :=
              if sentenceRegex_test s then amount - 1 else amount in
            sentences_loop fuel' amount1 current1 (output ++ [current1])
        end
    end
  else ret (Some output).

Definition sentences (fuel : nat) (amount : number) (root : option Word)
  : M (AsyncMarkov * Random) (option string) :=
  fun w =>
    if negb (hasSentences (fst w)) then (Throw UnsupportedOperation, w)
    else if invalid_amount amount then (Throw InvalidArgument, w)
    else
      let output := if truthy root then [root] else [] in
      (output' <-
         sentences_loop fuel (Qtrunc (match amount with
                                      | Finite q => q
                                      | _ => 0%Q
                                      end)) root output ;;
       ret (option_map join output')) w.

(** [save()], as the object its text decodes to. *)
Definition save (m : AsyncMarkov) : Legacy.Snapshot :=
  Legacy.mkSnapshot (words m) None (hasSentences m).

(** [load(json)] on the decoded [json]: [#words] becomes the decoded
    [data.words], an object with the prototype [Object.prototype]. *)
Definition load (data : Legacy.Snapshot) (m : AsyncMarkov) : AsyncMarkov :=
  mkModel (Legacy.snap_words data) (Legacy.snap_hasSentences data)
          (busy m) (prepared m) true.

(** [get size] *)
Definition size (m : AsyncMarkov) : outcome Z :=
  match words m with
  | None => Throw TypeError
  | Some ws => Return (Z.of_nat (List.length (obj_keys ws)))
  end.
End Rev002.

(** ** Vocabulary of the specification *)

(** An observation count is a positive integer. *)
Definition positive_count (n : num) : bool :=
  match n with
  | Int z => 0 <? z
  | NaN => false
  end.

(** [related] of an Entry: its keys are distinct and its counts positive. *)
Definition related_ok (rel : Related) : Prop :=
  NoDup (obj_keys rel) /\ Forall (fun e => positive_count (snd e) = true) rel.

(** The sum of the values of [related]. *)
Definition sum_counts (rel : Related) : num :=
  fold_left num_add (map snd rel) (Int 0).

(** The cumulative distribution in the words of the specification: walk
    [related] in its order with a running sum and record [sum -> successor]
    at each step. *)
Fixpoint thresholds (from : num) (rel : Related) : Sums :=
  match rel with
  | [] => []
  | (successor, count) :: rest =>
      let sum := num_add from count in
      (sum, successor) :: thresholds sum rest
  end.

Definition num_lt (a b : num) : Prop :=
  match a, b with
  | Int x, Int y => x < y
  | _, _ => False
  end.

Definition strictly_increasing (keys : list num) : Prop :=
  StronglySorted num_lt keys.

(** An Entry of revision 000: [related] is well formed, [total] is the sum
    of its counts, and a clean entry carries the distribution compiled from
    its [related]. *)
Definition node_ok (node : Rev000.Node) : Prop :=
  related_ok (related node)
  /\ sum_counts (related node) = Int (total node)
  /\ (mapped node = true ->
      sums node = Some (snd (accumulate (related node) []))).

(** The same for a node of the JavaScript revision, where [mapped] itself
    holds the distribution. *)
Definition legacy_node_ok (node : Legacy.Node) : Prop :=
  related_ok (Legacy.related node)
  /\ sum_counts (Legacy.related node) = Int (Legacy.total node)
  /\ (forall s, Legacy.mapped node = Some s ->
                s = snd (accumulate (Legacy.related node) [])).

(** "A positive finite integer". *)
Definition positive_finite_integer (amount : number) : Prop :=
  match amount with
  | Finite q => exists p : positive, (q == inject_Z (Zpos p))%Q
  | _ => False
  end.

(** A word that [related], created by [{}], does not inherit. *)
Definition plain_word (w : Word) : Prop :=
  existsb (String.eqb w) object_prototype_names = false.

(** One step of the loop of [calculateWeights], on an entry of [related]. *)
Definition weigh_entry (acc : num * Sums) (e : Word * num) : num * Sums :=
  let total := num_add (fst acc) (snd e) in
  (total, sums_set total (fst e) (snd acc)).

(** ** Invariant of the models of revision 000 *)

Definition count_value (n : num) : Z :=
  match n with
  | Int z => z
  | NaN => 0
  end.

(** The sum of the counts of [related], as an integer. *)
Definition count_sum (rel : Related) : Z :=
  fold_right (fun e acc => count_value (snd e) + acc) 0 rel.

(** Every Entry of the model is well formed. *)
Definition model_ok (m : Rev000.AsyncMarkov) : Prop :=
  Forall (fun e => node_ok (snd e)) (nodes m).

(** The models that the methods of revision 000 build from the empty one,
    on texts whose words are not names inherited from [Object.prototype]. *)
Inductive reachable : Rev000.AsyncMarkov -> Prop :=
| reach_empty : reachable Rev000.empty
| reach_add (str : string) (m : Rev000.AsyncMarkov) :
    reachable m -> Forall plain_word (tokens str) ->
    reachable (Rev000.add str m)
| reach_finalize (m : Rev000.AsyncMarkov) :
    reachable m -> reachable (Rev000.finalize m)
| reach_reset (m : Rev000.AsyncMarkov) :
    reachable m -> reachable (Rev000.reset m)
| reach_load (m target : Rev000.AsyncMarkov) :
    reachable m -> reachable (Rev000.load (fst (Rev000.toJSON m)) target)
| reach_generateWord (root : option Word) (m : Rev000.AsyncMarkov) (g : Random) :
    reachable m ->
    reachable (model (snd (Rev000.generateWord root (mkWorld m g))))
| reach_generateWords (amount : number) (root : option Word)
                      (stop : option bool) (m : Rev000.AsyncMarkov) (g : Random) :
    reachable m ->
    reachable (model (snd (Rev000.generateWords amount root stop (mkWorld m g))))
| reach_generateSentences (fuel : nat) (amount : number) (root : option Word)
                          (m : Rev000.AsyncMarkov) (g : Random) :
    reachable m ->
    reachable (model (snd (Rev000.generateSentences fuel amount root
                             (mkWorld m g)))).

(** ** Sample data *)

(** [observe("a","x")] once and [observe("a","y")] three times. *)
Definition sample_related : Related := [("x", Int 1); ("y", Int 3)].

Definition sample_node : Rev000.Node := mkNode false sample_related None 4.

Definition sample_legacy_node : Legacy.Node :=
  Legacy.mkNode 4 sample_related None.

(** A source that always answers [r]. *)
Definition constant_source (r : Q) : Random := mkRandom (fun _ => r) 0.

(** index.js: ingest "a x", draw once from the Entry of "a" (which compiles
    it), then ingest "a y". *)
Definition legacy_first_add : Legacy.AsyncMarkov :=
  snd (Legacy.add "a x" Legacy.empty).

Definition legacy_drawn : Legacy.AsyncMarkov :=
  fst (snd (Legacy.generateWord (Some "a") (legacy_first_add, constant_source 0))).

Definition legacy_second_add : Legacy.AsyncMarkov :=
  snd (Legacy.add "a y" legacy_drawn).

(** Revision 001: ingest "a x a y", compile, ingest "a x a x a x", compile
    again; and the same calls on revision 000. *)
Definition rev001_compiled_once : Rev001.AsyncMarkov :=
  Rev001.finalize (Rev001.add "a x a y" Rev001.empty).

Definition rev001_compiled_twice : Rev001.AsyncMarkov :=
  Rev001.finalize (Rev001.add "a x a x a x" rev001_compiled_once).

Definition rev000_compiled_twice : Rev000.AsyncMarkov :=
  Rev000.finalize
    (Rev000.add "a x a x a x"
       (Rev000.finalize (Rev000.add "a x a y" Rev000.empty))).

(** The model after ingesting the text of the scenario. *)
Definition scenario_text : string := "The cat sat. The dog ran.".

Definition scenario_model : Rev000.AsyncMarkov :=
  Rev000.add scenario_text Rev000.empty.

(** A snapshot without [edges], as written by a revision that kept no
    counter. *)
Definition snapshot_without_edges : Representation (option Sums) :=
  mkRepresentation None [("a", mkNode false [("b", Int 1)] None 1)] false.




(** The world of the scenario model with a source that always answers 0. *)
Definition scenario_world : World (option Sums) :=
  mkWorld scenario_model (constant_source 0).

(** The error kinds that the generation calls raise by themselves. *)
Definition contract_error (e : error) : Prop :=
  e = InvalidArgument \/ e = EmptyModel \/ e = UnsupportedOperation.

(** The model with the single Entry "a" -> {"b": 1}, as [add] builds it, and
    a world around it. *)
Definition dead_end_model : Rev000.AsyncMarkov := Rev000.add "a b" Rev000.empty.

Definition dead_end_world : World (option Sums) :=
  mkWorld dead_end_model (constant_source 0).

(** ** Further vocabulary: tokens, counters and what generation keeps *)

(** Whether a string holds a whitespace character. *)
Fixpoint has_space (s : string) : bool :=
  match s with
  | EmptyString => false
  | String c rest => is_space c || has_space rest
  end.

(** The sum of [total] over the Entries of a model. *)
Definition sum_totals {S} (m : AsyncMarkov S) : Z :=
  fold_right (fun e acc => total (snd e) + acc) 0 (nodes m).

(** What generation must not touch in the table: the keys in their order
    with the [related] and the [total] of each. *)
Definition counts_of {S} (m : AsyncMarkov S) : list (Word * (Related * Z)) :=
  map (fun e => (fst e, (related (snd e), total (snd e)))) (nodes m).

(** Two models that differ at most in the compiled distributions. *)
Definition same_counts {S} (m m' : AsyncMarkov S) : Prop :=
  counts_of m' = counts_of m
  /\ edges m' = edges m
  /\ hasSentences m' = hasSentences m.

(** The models of revision 000 grown from a new instance by ingestion,
    compilation and generation alone (no [reset], no [load]). *)
Inductive grown : Rev000.AsyncMarkov -> Prop :=
| grown_empty : grown Rev000.empty
| grown_add (str : string) (m : Rev000.AsyncMarkov) :
    grown m -> grown (Rev000.add str m)
| grown_finalize (m : Rev000.AsyncMarkov) :
    grown m -> grown (Rev000.finalize m)
| grown_generateWords (amount : number) (root : option Word)
                      (stop : option bool) (m : Rev000.AsyncMarkov) (g : Random) :
    grown m ->
    grown (model (snd (Rev000.generateWords amount root stop (mkWorld m g))))
| grown_generateSentences (fuel : nat) (amount : number) (root : option Word)
                          (m : Rev000.AsyncMarkov) (g : Random) :
    grown m ->
    grown (model (snd (Rev000.generateSentences fuel amount root
                         (mkWorld m g)))).

(** Every whitespace character of the string is the space. *)
Fixpoint normalized (s : string) : bool :=
  match s with
  | EmptyString => true
  | String c rest => (negb (is_space c) || (c =? " ")%char) && normalized rest
  end.


(** The elements that [generateWords] of index.js pushes when it starts
    from [current] in a world, and the world it ends in: each element is
    what [generateWord] answers for the element before it, or what it
    answers for [null] when that answer was falsy. *)
Inductive legacy_walk
  : option Word -> Legacy.AsyncMarkov * Random -> list (option Word) ->
    Legacy.AsyncMarkov * Random -> Prop :=
| walk_done (current : option Word) (w : Legacy.AsyncMarkov * Random) :
    legacy_walk current w [] w
| walk_step (current c1 : option Word) (w w1 w' : Legacy.AsyncMarkov * Random)
            (pushed : list (option Word)) :
    Legacy.generateWord current w = (Return c1, w1) ->
    truthy c1 = true ->
    legacy_walk c1 w1 pushed w' ->
    legacy_walk current w (c1 :: pushed) w'
| walk_reseed (current c1 c2 : option Word)
              (w w1 w2 w' : Legacy.AsyncMarkov * Random)
              (pushed : list (option Word)) :
    Legacy.generateWord current w = (Return c1, w1) ->
    truthy c1 = false ->
    Legacy.generateWord None w1 = (Return c2, w2) ->
    legacy_walk c2 w2 pushed w' ->
    legacy_walk current w (c2 :: pushed) w'.

(** ** Vocabulary for the asynchronous revision *)

(** A word without [?], [!] and [.]. *)
Definition no_mark (w : Word) : Prop := sentenceRegex_test w = false.

(** An Entry none of whose successors, recorded or compiled, holds a
    sentence mark. *)
Definition no_mark_node (node : Legacy.Node) : Prop :=
  Forall (fun e => no_mark (fst e)) (Legacy.related node)
  /\ (forall s, Legacy.mapped node = Some s ->
                Forall (fun e => no_mark (snd e)) s).

Definition no_mark_words (ws : Legacy.Words) : Prop :=
  Forall (fun e => no_mark_node (snd e)) ws.

(** An instance whose [#words] is an object without prototype, of such
    Entries. *)
Definition fed_ok (m : Rev002.AsyncMarkov) : Prop :=
  exists ws,
    Rev002.words m = Some ws /\ no_mark_words ws
    /\ Rev002.inherits m = false.

(** The instances fed by strings only. *)
Inductive string_fed : Rev002.AsyncMarkov -> Prop :=
| fed_empty : string_fed Rev002.empty
| fed_string (s : string) (m : Rev002.AsyncMarkov) :
    string_fed m ->
    string_fed (snd (Rev002.process (Rev002.InString s) m))
| fed_finalize (m : Rev002.AsyncMarkov) :
    string_fed m -> string_fed (snd (Rev002.finalize m))
| fed_word (root : option Word) (m : Rev002.AsyncMarkov) (g : Random) :
    string_fed m -> string_fed (fst (snd (Rev002.word root (m, g)))).

(** Whether a generation call returned its text. *)
Definition completed {A} (r : outcome (option A)) : bool :=
  match r with
  | Return (Some _) => true
  | _ => false
  end.

(** The bytes [processBuffer] looks at: the space and the printable ASCII
    characters. *)
Definition space_or_printable (char : Z) : bool :=
  (char =? 32) || ((32 <? char) && (char <? 127)).

(** "a b. c d." fed to a new instance. *)
Definition sample_string_fed : Rev002.AsyncMarkov :=
  snd (Rev002.process (Rev002.InString "a b. c d.") Rev002.empty).

(** index.js after "a x", a draw from "a", and "a y": the Entry of "a" has
    a stale distribution. *)
Definition legacy_stale_words : Legacy.Words :=
  match Legacy.words legacy_second_add with
  | Some ws => ws
  | None => []
  end.

(** * Properties *)

(** ** Facts on objects and maps *)

Lemma num_eqb_eq (a b : num) : num_eqb a b = true <-> a = b.
Proof.
  destruct a as [x|], b as [y|]; simpl; split; intro H;
    try discriminate; try reflexivity.
  - apply Z.eqb_eq in H. now subst.
  - inversion H. apply Z.eqb_refl.
Qed.

Section ObjectFacts.
Variables K V : Type.
Variable key_eqb : K -> K -> bool.
Variable array_index : K -> option Z.
Hypothesis key_eqb_eq : forall a b, key_eqb a b = true <-> a = b.

Lemma key_eqb_refl (k : K) : key_eqb k k = true.
Proof. now apply key_eqb_eq. Qed.

Lemma key_eqb_neq (a b : K) : a <> b -> key_eqb a b = false.
Proof.
  intro H. destruct (key_eqb a b) eqn:E; [|reflexivity].
  apply key_eqb_eq in E. contradiction.
Qed.

Lemma obj_get_Some_In (o : object K V) k v :
  obj_get key_eqb o k = Some v -> In (k, v) o.
Proof.
  induction o as [|[k' v'] rest IH]; simpl; [discriminate|].
  destruct (key_eqb k' k) eqn:E.
  - intro H. inversion H. subst. apply key_eqb_eq in E. subst. now left.
  - intro H. right. now apply IH.
Qed.

Lemma obj_get_None (o : object K V) k :
  obj_get key_eqb o k = None <-> ~ In k (obj_keys o).
Proof.
  induction o as [|[k' v'] rest IH]; simpl.
  - split; [intros _ []|reflexivity].
  - destruct (key_eqb k' k) eqn:E.
    + apply key_eqb_eq in E. subst. split; [discriminate|].
      intro H. exfalso. apply H. now left.
    + rewrite IH. split.
      * intros H [H1|H1]; [|contradiction].
        subst. rewrite key_eqb_refl in E. discriminate.
      * intros H H1. apply H. now right.
Qed.

Lemma obj_get_key_In (o : object K V) k :
  In k (obj_keys o) -> exists v, obj_get key_eqb o k = Some v.
Proof.
  intro H. destruct (obj_get key_eqb o k) eqn:E; [eauto|].
  apply obj_get_None in E. contradiction.
Qed.

Lemma obj_get_In (o : object K V) k v :
  NoDup (obj_keys o) -> In (k, v) o -> obj_get key_eqb o k = Some v.
Proof.
  induction o as [|[k' v'] rest IH]; simpl; [intros _ []|].
  intros Hnd [H|H].
  - inversion H. subst. now rewrite key_eqb_refl.
  - inversion Hnd as [|? ? Hnot Hnd']. subst.
    destruct (key_eqb k' k) eqn:E.
    + apply key_eqb_eq in E. subst. exfalso. apply Hnot.
      change k with (fst (k, v)). now apply in_map.
    + now apply IH.
Qed.

Lemma obj_keys_replace (o : object K V) k v :
  obj_keys (obj_replace key_eqb k v o) = obj_keys o.
Proof.
  induction o as [|[k' v'] rest IH]; simpl; [reflexivity|].
  destruct (key_eqb k' k); simpl; [reflexivity|]. now rewrite IH.
Qed.

Lemma obj_get_replace_same (o : object K V) k v :
  In k (obj_keys o) -> obj_get key_eqb (obj_replace key_eqb k v o) k = Some v.
Proof.
  induction o as [|[k' v'] rest IH]; simpl; [intros []|].
  intro H. destruct (key_eqb k' k) eqn:E; simpl; rewrite E; [reflexivity|].
  destruct H as [H|H]; [|now apply IH].
  subst. rewrite key_eqb_refl in E. discriminate.
Qed.

Lemma obj_get_replace_other (o : object K V) k v k' :
  k <> k' ->
  obj_get key_eqb (obj_replace key_eqb k v o) k' = obj_get key_eqb o k'.
Proof.
  intro Hne. induction o as [|[k0 v0] rest IH]; simpl; [reflexivity|].
  destruct (key_eqb k0 k) eqn:E; simpl.
  - apply key_eqb_eq in E. subst. now rewrite (key_eqb_neq Hne).
  - now rewrite IH.
Qed.

Lemma obj_insert_index_In (o : object K V) i k v e :
  In e (obj_insert_index array_index i k v o) <-> e = (k, v) \/ In e o.
Proof.
  induction o as [|[k' v'] rest IH]; simpl.
  - intuition.
  - destruct (array_index k') as [j|]; [destruct (j <? i)|]; simpl;
      rewrite ?IH; intuition.
Qed.

Lemma obj_insert_index_get_same (o : object K V) i k v :
  ~ In k (obj_keys o) ->
  obj_get key_eqb (obj_insert_index array_index i k v o) k = Some v.
Proof.
  induction o as [|[k' v'] rest IH]; simpl; intro H.
  - now rewrite key_eqb_refl.
  - destruct (array_index k') as [j|]; [destruct (j <? i)|]; simpl;
      rewrite ?key_eqb_refl; try reflexivity.
    rewrite key_eqb_neq by (intro; subst; apply H; now left).
    apply IH. intro H1. apply H. now right.
Qed.

Lemma obj_insert_index_get_other (o : object K V) i k v k' :
  k <> k' ->
  obj_get key_eqb (obj_insert_index array_index i k v o) k'
  = obj_get key_eqb o k'.
Proof.
  intro Hne. induction o as [|[k0 v0] rest IH]; simpl.
  - now rewrite (key_eqb_neq Hne).
  - destruct (array_index k0) as [j|]; [destruct (j <? i)|]; simpl;
      rewrite ?(key_eqb_neq Hne); try reflexivity.
    now rewrite IH.
Qed.

Lemma obj_get_app (o1 o2 : object K V) k :
  obj_get key_eqb (o1 ++ o2) k
  = match obj_get key_eqb o1 k with
    | Some v => Some v
    | None => obj_get key_eqb o2 k
    end.
Proof.
  induction o1 as [|[k' v'] rest IH]; simpl; [reflexivity|].
  now destruct (key_eqb k' k).
Qed.

(** Reading back what was written. *)
Lemma obj_get_set_same (o : object K V) k v :
  obj_get key_eqb (obj_set key_eqb array_index k v o) k = Some v.
Proof.
  unfold obj_set.
  destruct (obj_get key_eqb o k) eqn:E.
  - apply obj_get_replace_same.
    apply obj_get_Some_In in E. change k with (fst (k, v0)).
    now apply in_map.
  - apply obj_get_None in E.
    destruct (array_index k).
    + now apply obj_insert_index_get_same.
    + rewrite obj_get_app.
      apply obj_get_None in E. rewrite E. simpl. now rewrite key_eqb_refl.
Qed.

Lemma obj_get_set_other (o : object K V) k v k' :
  k <> k' ->
  obj_get key_eqb (obj_set key_eqb array_index k v o) k'
  = obj_get key_eqb o k'.
Proof.
  intro Hne. unfold obj_set.
  destruct (obj_get key_eqb o k) eqn:E.
  - now apply obj_get_replace_other.
  - destruct (array_index k).
    + now apply obj_insert_index_get_other.
    + rewrite obj_get_app. simpl. rewrite (key_eqb_neq Hne).
      now destruct (obj_get key_eqb o k').
Qed.

(** A key absent from the object: its entry is added, nothing else moves
    out. *)
Lemma obj_set_new_In (o : object K V) k v e :
  ~ In k (obj_keys o) -> In e (obj_set key_eqb array_index k v o) <-> e = (k, v) \/ In e o.
Proof.
  intro H. unfold obj_set.
  apply obj_get_None in H. rewrite H.
  destruct (array_index k).
  - apply obj_insert_index_In.
  - rewrite in_app_iff. simpl. intuition.
Qed.

Lemma obj_insert_index_NoDup (o : object K V) i k v :
  ~ In k (obj_keys o) -> NoDup (obj_keys o) ->
  NoDup (obj_keys (obj_insert_index array_index i k v o)).
Proof.
  induction o as [|[k' v'] rest IH]; simpl; intros Hk Hnd.
  - constructor; [intros []|constructor].
  - assert (Hcons : NoDup (k :: k' :: obj_keys rest))
      by (constructor; [exact Hk|exact Hnd]).
    destruct (array_index k') as [j|]; [destruct (j <? i)|]; simpl;
      try exact Hcons.
    inversion Hnd as [|? ? Hnot Hnd']. subst. constructor.
    + intro H. unfold obj_keys in H. apply in_map_iff in H.
      destruct H as [[k0 v0] [H1 H2]]. simpl in H1. subst.
      apply obj_insert_index_In in H2. destruct H2 as [H2|H2].
      * inversion H2. subst. apply Hk. now left.
      * apply Hnot. change k' with (fst (k', v0)). now apply in_map.
    + apply IH; [|exact Hnd']. intro H. apply Hk. now right.
Qed.

Lemma obj_set_NoDup (o : object K V) k v :
  NoDup (obj_keys o) ->
  NoDup (obj_keys (obj_set key_eqb array_index k v o)).
Proof.
  intro Hnd. unfold obj_set.
  destruct (obj_get key_eqb o k) eqn:E.
  - now rewrite obj_keys_replace.
  - apply obj_get_None in E. destruct (array_index k).
    + now apply obj_insert_index_NoDup.
    + unfold obj_keys. rewrite map_app. simpl.
      apply Permutation.Permutation_NoDup with (l := k :: map fst o).
      * apply Permutation.Permutation_cons_append.
      * now constructor.
Qed.

(** A key above every array index already present goes last. *)
Lemma obj_insert_index_last (o : object K V) i k v :
  Forall (fun e => exists j, array_index (fst e) = Some j /\ j < i) o ->
  obj_insert_index array_index i k v o = o ++ [(k, v)].
Proof.
  induction 1 as [|[k' v'] rest [j [Hj Hlt]] _ IH]; simpl; [reflexivity|].
  simpl in Hj. rewrite Hj.
  apply Z.ltb_lt in Hlt. rewrite Hlt. now rewrite IH.
Qed.
(** Overwriting a property that has just been created. *)
Lemma obj_replace_insert_index (o : object K V) i k v v' :
  ~ In k (obj_keys o) ->
  obj_replace key_eqb k v' (obj_insert_index array_index i k v o)
  = obj_insert_index array_index i k v' o.
Proof.
  induction o as [|[k0 v0] rest IH]; simpl; intro H.
  - now rewrite key_eqb_refl.
  - destruct (array_index k0) as [j|]; [destruct (j <? i)|]; simpl;
      rewrite ?key_eqb_refl; try reflexivity.
    rewrite key_eqb_neq by (intro; subst; apply H; now left).
    f_equal. apply IH. intro H1. apply H. now right.
Qed.

Lemma obj_replace_app_new (o : object K V) k v v' :
  ~ In k (obj_keys o) ->
  obj_replace key_eqb k v' (o ++ [(k, v)]) = o ++ [(k, v')].
Proof.
  induction o as [|[k0 v0] rest IH]; simpl; intro H.
  - now rewrite key_eqb_refl.
  - rewrite key_eqb_neq by (intro; subst; apply H; now left).
    f_equal. apply IH. intro H1. apply H. now right.
Qed.

Lemma obj_replace_set_new (o : object K V) k v v' :
  ~ In k (obj_keys o) ->
  obj_replace key_eqb k v' (obj_set key_eqb array_index k v o)
  = obj_set key_eqb array_index k v' o.
Proof.
  intro H. unfold obj_set.
  rewrite (proj2 (obj_get_None o k) H).
  destruct (array_index k).
  - now apply obj_replace_insert_index.
  - now apply obj_replace_app_new.
Qed.

(** Writing a property that exists is overwriting it. *)
Lemma obj_set_present (o : object K V) k v :
  In k (obj_keys o) ->
  obj_set key_eqb array_index k v o = obj_replace key_eqb k v o.
Proof.
  intro H. unfold obj_set.
  destruct (obj_get_key_In o k H) as [v0 Hv0]. now rewrite Hv0.
Qed.
(** Writing a property never removes a key. *)
Lemma obj_set_keeps_keys (o : object K V) k v k' :
  In k' (obj_keys o) ->
  In k' (obj_keys (obj_set key_eqb array_index k v o)).
Proof.
  intro H. unfold obj_set.
  destruct (obj_get key_eqb o k) eqn:E.
  - now rewrite obj_keys_replace.
  - unfold obj_keys in *. apply in_map_iff in H. destruct H as [e [He Hin]].
    apply in_map_iff. exists e. split; [exact He|].
    destruct (array_index k).
    + apply obj_insert_index_In. now right.
    + apply in_or_app. now left.
Qed.
End ObjectFacts.

(** ** Compilation: the loop of [calculateWeights] *)

Lemma string_eqb_eq (a b : string) : String.eqb a b = true <-> a = b.
Proof. apply String.eqb_eq. Qed.

Lemma related_read_own (rel : Related) key value :
  NoDup (obj_keys rel) -> In (key, value) rel ->
  related_read rel key = Own value.
Proof.
  intros Hnd Hin. unfold related_read, related_get.
  now rewrite (obj_get_In String.eqb string_eqb_eq rel key value Hnd Hin).
Qed.

(** With distinct keys, looking each key up is walking the entries. *)
Lemma accumulate_entries (rel : Related) (start : Sums) :
  NoDup (obj_keys rel) ->
  accumulate rel start = fold_left weigh_entry rel (Int 0, start).
Proof.
  intro Hnd. unfold accumulate.
  assert (H : forall es acc,
             (forall e, In e es -> related_read rel (fst e) = Own (snd e)) ->
             fold_left
               (fun (acc : num * Sums) (key : Word) =>
                  let value := to_number (related_read rel key) in
                  let total := num_add (fst acc) value in
                  (total, sums_set total key (snd acc)))
               (obj_keys es) acc
             = fold_left weigh_entry es acc).
  { induction es as [|e es IH]; intros acc Hes; simpl; [reflexivity|].
    rewrite (Hes e (or_introl eq_refl)). simpl.
    apply IH. intros e' He'. apply Hes. now right. }
  apply H. intros [k v] Hin. simpl. now apply related_read_own.
Qed.

(** A partial sum above every key of [sums] is recorded last. *)
Lemma sums_set_append (s : Sums) (t : Z) (w : Word) :
  Forall (fun e => exists z, fst e = Int z /\ 0 <= z < t) s ->
  sums_set (Int t) w s = s ++ [(Int t, w)].
Proof.
  intro H. unfold sums_set, obj_set.
  assert (Hnone : obj_get num_eqb s (Int t) = None).
  { apply (obj_get_None num_eqb num_eqb_eq). intro Hin.
    unfold obj_keys in Hin. apply in_map_iff in Hin.
    destruct Hin as [e [He Hin]].
    rewrite Forall_forall in H. destruct (H e Hin) as [z [Hz Hlt]].
    rewrite Hz in He. inversion He. lia. }
  rewrite Hnone. unfold num_array_index at 1.
  destruct ((0 <=? t) && (t <? 2 ^ 32 - 1)) eqn:E; [|reflexivity].
  apply obj_insert_index_last.
  apply andb_true_iff in E. destruct E as [_ E]. apply Z.ltb_lt in E.
  eapply Forall_impl; [|exact H].
  intros e [z [Hz Hlt]]. exists z. rewrite Hz. unfold num_array_index.
  replace (0 <=? z) with true by (symmetry; apply Z.leb_le; lia).
  replace (z <? 2 ^ 32 - 1) with true by (symmetry; apply Z.ltb_lt; lia).
  split; [reflexivity|lia].
Qed.

Lemma positive_count_Int (n : num) :
  positive_count n = true -> exists z, n = Int z /\ 0 < z.
Proof.
  destruct n as [z|]; simpl; [|discriminate].
  intro H. apply Z.ltb_lt in H. eauto.
Qed.

(** The keys of [thresholds]: integers above the starting sum, strictly
    increasing. *)
Lemma thresholds_keys (rel : Related) (from : Z) :
  Forall (fun e => positive_count (snd e) = true) rel ->
  Forall (fun e => exists z, fst e = Int z /\ from < z) (thresholds (Int from) rel)
  /\ strictly_increasing (obj_keys (thresholds (Int from) rel)).
Proof.
  revert from. induction rel as [|[k v] rest IH]; intros from H; simpl.
  - split; constructor.
  - inversion H as [|? ? Hv Hrest]. subst. simpl in Hv.
    destruct (positive_count_Int _ Hv) as [z [-> Hz]]. simpl.
    destruct (IH (from + z) Hrest) as [IH1 IH2]. split.
    + constructor; [exists (from + z); simpl; split; [reflexivity|lia]|].
      eapply Forall_impl; [|exact IH1].
      intros e [z' [He Hlt]]. exists z'. split; [exact He|lia].
    + constructor; [exact IH2|].
      unfold obj_keys. rewrite Forall_map.
      eapply Forall_impl; [|exact IH1].
      intros e [z' [He Hlt]]. rewrite He. simpl. exact Hlt.
Qed.

Lemma thresholds_targets (rel : Related) (from : num) :
  map snd (thresholds from rel) = obj_keys rel.
Proof.
  revert from. induction rel as [|[k v] rest IH]; intro from; simpl;
    [reflexivity|]. now rewrite IH.
Qed.

Lemma sum_positive_counts (rel : Related) (from : Z) :
  Forall (fun e => positive_count (snd e) = true) rel ->
  exists z, fold_left num_add (map snd rel) (Int from) = Int z /\ from <= z
            /\ (rel <> [] -> from < z).
Proof.
  revert from. induction rel as [|[k v] rest IH]; intros from H; simpl.
  - exists from. repeat split; [lia|congruence].
  - inversion H as [|? ? Hv Hrest]. subst. simpl in Hv.
    destruct (positive_count_Int _ Hv) as [z [-> Hz]]. simpl.
    destruct (IH (from + z) Hrest) as [z' [Hz' [Hle _]]].
    exists z'. repeat split; [exact Hz'|lia|intros _; lia].
Qed.

Lemma last_cons_default (A : Type) (l : list A) (a d : A) :
  last (a :: l) d = last l a.
Proof.
  revert a d. induction l as [|b l IH]; intros a d; [reflexivity|].
  change (last (a :: b :: l) d) with (last (b :: l) d).
  rewrite (IH b). symmetry. apply IH.
Qed.

(** The last threshold is the sum of the counts. *)
Lemma thresholds_last (rel : Related) (from : num) :
  last (obj_keys (thresholds from rel)) from
  = fold_left num_add (map snd rel) from.
Proof.
  revert from. induction rel as [|[k v] rest IH]; intro from;
    [reflexivity|].
  simpl thresholds. simpl map. simpl fold_left.
  rewrite <- IH. unfold obj_keys. simpl map.
  apply last_cons_default.
Qed.

(** The loop over the entries, started on a [sums] whose keys lie below the
    running total, appends the thresholds of the specification. *)
Lemma fold_weigh_entry (rel : Related) (from : Z) (s : Sums) :
  Forall (fun e => positive_count (snd e) = true) rel ->
  0 <= from ->
  Forall (fun e => exists z, fst e = Int z /\ 0 <= z <= from) s ->
  fold_left weigh_entry rel (Int from, s)
  = (fold_left num_add (map snd rel) (Int from),
     s ++ thresholds (Int from) rel).
Proof.
  revert from s. induction rel as [|[k v] rest IH]; intros from s H Hfrom Hs.
  - simpl. now rewrite app_nil_r.
  - inversion H as [|? ? Hv Hrest]. subst. simpl in Hv.
    destruct (positive_count_Int _ Hv) as [z [-> Hz]].
    simpl. unfold weigh_entry at 2. simpl.
    rewrite sums_set_append.
    + rewrite IH; [|exact Hrest|lia|].
      * now rewrite <- app_assoc.
      * apply Forall_app. split.
        -- eapply Forall_impl; [|exact Hs].
           intros e [z' [He Hz']]. exists z'. split; [exact He|lia].
        -- constructor; [|constructor]. exists (from + z). simpl.
           split; [reflexivity|lia].
    + eapply Forall_impl; [|exact Hs].
      intros e [z' [He Hz']]. exists z'. split; [exact He|lia].
Qed.

(** Refinement: on a well-formed [related], the loop of [calculateWeights]
    started on an empty object computes the thresholds of the specification
    and the sum of the counts. *)
Lemma accumulate_thresholds (rel : Related) :
  related_ok rel ->
  accumulate rel [] = (sum_counts rel, thresholds (Int 0) rel).
Proof.
  intros [Hnd Hpos]. rewrite (accumulate_entries rel [] Hnd).
  rewrite fold_weigh_entry; [reflexivity|exact Hpos|lia|constructor].
Qed.

(** ** Sampling: the roll and the walk over the thresholds *)

Lemma trunc_mul_unfold (a : Z) (b : positive) (n : Z) :
  trunc_mul (a # b) n = Z.quot (a * n) (Zpos b).
Proof.
  unfold trunc_mul, Qtrunc. simpl. now rewrite Pos.mul_1_r.
Qed.

(** A value of [Math.random()] in [0, 1) gives a roll in [0, n). *)
Lemma trunc_mul_range (r : Q) (n : Z) :
  unit_interval r -> 0 < n -> 0 <= trunc_mul r n < n.
Proof.
  destruct r as [a b]. intros [H0 H1] Hn.
  unfold Qle in H0. unfold Qlt in H1. simpl in H0, H1.
  rewrite trunc_mul_unfold.
  rewrite Z.quot_div_nonneg by nia.
  split.
  - apply Z.div_pos; nia.
  - apply Z.div_lt_upper_bound; nia.
Qed.

Lemma trunc_mul_0 (r : Q) : trunc_mul r 0 = 0.
Proof.
  destruct r as [a b]. rewrite trunc_mul_unfold.
  rewrite Z.mul_0_r. apply Z.quot_0_l. discriminate.
Qed.

(** Every roll in [0, n) is the roll of some value in [0, 1). *)
Lemma every_roll_is_drawn (n roll : Z) :
  0 <= roll < n ->
  exists r, unit_interval r /\ trunc_mul r n = roll.
Proof.
  intro H. exists (roll # Z.to_pos n). split.
  - split; unfold Qle, Qlt; simpl; rewrite ?Z2Pos.id; lia.
  - rewrite trunc_mul_unfold. rewrite Z2Pos.id by lia.
    rewrite Z.quot_div_nonneg by nia. apply Z.div_mul. lia.
Qed.

Lemma last_In (A : Type) (l : list A) (d : A) : l <> [] -> In (last l d) l.
Proof.
  induction l as [|a l IH]; [congruence|]. intros _.
  destruct l as [|b l]; [now left|].
  right. apply IH. discriminate.
Qed.

(** As soon as one of the keys walked is above the roll, the walk returns a
    target of [sums]. *)
Lemma first_pick_Some (roll : Z) (s : Sums) (keys : list num) :
  incl keys (obj_keys s) ->
  (exists pick, In pick keys /\ lt_num roll pick = true) ->
  exists w, first_pick roll s keys = Some w /\ In w (map snd s).
Proof.
  induction keys as [|pick rest IH]; intros Hincl [p [Hin Hlt]].
  - destruct Hin.
  - simpl. destruct (lt_num roll pick) eqn:E.
    + assert (Hk : In pick (obj_keys s)) by (apply Hincl; now left).
      destruct (obj_get_key_In num_eqb num_eqb_eq s pick Hk) as [w Hw].
      exists w. split; [exact Hw|].
      apply (obj_get_Some_In num_eqb num_eqb_eq) in Hw.
      change w with (snd (pick, w)). now apply in_map.
    + apply IH.
      * intros x Hx. apply Hincl. now right.
      * destruct Hin as [Hin|Hin]; [|eauto].
        subst. rewrite Hlt in E. discriminate.
Qed.

(** The walk over the compiled thresholds of a well-formed [related] whose
    counts sum to [total]: a roll in [0, total) finds a successor. *)
Lemma first_pick_compiled (rel : Related) (total roll : Z) :
  related_ok rel -> sum_counts rel = Int total -> 0 <= roll < total ->
  let s := snd (accumulate rel []) in
  exists w, first_pick roll s (obj_keys s) = Some w /\ In w (obj_keys rel).
Proof.
  intros Hok Hsum Hroll. rewrite (accumulate_thresholds Hok). simpl.
  destruct Hok as [Hnd Hpos].
  assert (Hne : rel <> []).
  { intro. subst. unfold sum_counts in Hsum. simpl in Hsum.
    inversion Hsum. lia. }
  destruct (first_pick_Some roll (thresholds (Int 0) rel)
              (keys := obj_keys (thresholds (Int 0) rel)))
    as [w [Hw Hin]].
  - apply incl_refl.
  - exists (Int total). split; [|simpl; apply Z.ltb_lt; lia].
    rewrite <- Hsum. unfold sum_counts. rewrite <- thresholds_last.
    apply last_In. destruct rel as [|[k v] rest]; [congruence|discriminate].
  - exists w. split; [exact Hw|]. now rewrite thresholds_targets in Hin.
Qed.

(** A [related] without entries compiles to no threshold. *)
Lemma sum_counts_zero (rel : Related) :
  related_ok rel -> sum_counts rel = Int 0 -> rel = [].
Proof.
  intros [_ Hpos] Hsum. destruct rel as [|e rest]; [reflexivity|].
  destruct (sum_positive_counts 0 Hpos) as [z [Hz [_ Hlt]]].
  unfold sum_counts in Hsum. rewrite Hsum in Hz. inversion Hz.
  assert (0 < z) by (apply Hlt; discriminate). lia.
Qed.

(** [selectWeighted] on a well-formed node of revision 000: the walk runs
    over the distribution compiled from [related]. *)
Lemma selectWeighted_compiled (node : Rev000.Node) (r : Q) :
  node_ok node ->
  let s := snd (accumulate (related node) []) in
  Rev000.selectWeighted node r
  = (Return (first_pick (trunc_mul r (total node)) s (obj_keys s)),
     mkNode true (related node) (Some s) (total node)).
Proof.
  intros [Hok [Hsum Hclean]]. unfold Rev000.selectWeighted.
  unfold Rev000.calculateWeights, isMappedNode.
  destruct (mapped node) eqn:E; simpl.
  - rewrite (Hclean eq_refl). destruct node as [mp rel sm tot].
    simpl in *. subst. rewrite (Hclean eq_refl). reflexivity.
  - reflexivity.
Qed.

Lemma legacy_selectWeighted_compiled (node : Legacy.Node) (r : Q) :
  legacy_node_ok node ->
  let s := snd (accumulate (Legacy.related node) []) in
  Legacy.selectWeighted node r
  = (first_pick (trunc_mul r (Legacy.total node)) s (obj_keys s),
     Legacy.mkNode (Legacy.total node) (Legacy.related node) (Some s)).
Proof.
  intros [Hok [Hsum Hclean]]. unfold Legacy.selectWeighted.
  destruct node as [tot rel mp]. simpl in *.
  destruct mp as [s|]; simpl; [|reflexivity].
  now rewrite (Hclean s eq_refl).
Qed.

(** X22. The contract of [selectWeighted], in revision 000 and in index.js: for a
    well-formed Entry with [total > 0], every roll in [0, total) makes it
    return a word, which is a key of [related]; with [total = 0] it returns
    [null] without failing.  The rolls in [0, total) are exactly the rolls of
    the values of the random source in [0, 1). *)
Theorem selectWeighted_returns_successor
  (node : Rev000.Node) (lnode : Legacy.Node) (r : Q) :
  node_ok node -> legacy_node_ok lnode ->
  (forall n, unit_interval r -> 0 < n -> 0 <= trunc_mul r n < n)
  /\ (forall n roll, 0 <= roll < n ->
                     exists r', unit_interval r' /\ trunc_mul r' n = roll)
  /\ (0 <= trunc_mul r (total node) < total node ->
      exists w, fst (Rev000.selectWeighted node r) = Return (Some w)
                /\ In w (obj_keys (related node)))
  /\ (total node = 0 -> fst (Rev000.selectWeighted node r) = Return None)
  /\ (0 <= trunc_mul r (Legacy.total lnode) < Legacy.total lnode ->
      exists w, fst (Legacy.selectWeighted lnode r) = Some w
                /\ In w (obj_keys (Legacy.related lnode)))
  /\ (Legacy.total lnode = 0 -> fst (Legacy.selectWeighted lnode r) = None).
Proof.
  intros Hn Hl.
  rewrite (selectWeighted_compiled r Hn).
  rewrite (legacy_selectWeighted_compiled r Hl). simpl.
  destruct Hn as [Hok [Hsum _]]. destruct Hl as [Hlok [Hlsum _]].
  split; [intros n Hr Hpos; now apply trunc_mul_range|].
  split; [intros n roll Hroll; now apply every_roll_is_drawn|].
  split; [|split; [|split]].
  - intro Hroll.
    destruct (first_pick_compiled (roll := trunc_mul r (total node)) Hok Hsum)
      as [w [Hw Hin]]; [exact Hroll|].
    exists w. simpl in Hw. now rewrite Hw.
  - intro H0. rewrite H0 in Hsum.
    rewrite (sum_counts_zero Hok Hsum). reflexivity.
  - intro Hroll.
    now apply (first_pick_compiled (roll := trunc_mul r (Legacy.total lnode))
                 Hlok Hlsum).
  - intro H0. rewrite H0 in Hlsum.
    rewrite (sum_counts_zero Hlok Hlsum). reflexivity.
Qed.

Lemma sample_related_ok : related_ok sample_related.
Proof.
  split.
  - repeat constructor; simpl; intuition discriminate.
  - repeat constructor.
Qed.

Lemma sample_node_ok : node_ok sample_node.
Proof.
  split; [exact sample_related_ok|]. split; [reflexivity|discriminate].
Qed.

Lemma sample_legacy_node_ok : legacy_node_ok sample_legacy_node.
Proof.
  split; [exact sample_related_ok|]. split; [reflexivity|discriminate].
Qed.

Lemma selectWeighted_returns_successor_sample :
  (exists w, fst (Rev000.selectWeighted sample_node (1 # 2)) = Return (Some w)
             /\ In w ["x"; "y"])
  /\ (exists w, fst (Legacy.selectWeighted sample_legacy_node (1 # 2)) = Some w
                /\ In w ["x"; "y"]).
Proof.
  destruct (selectWeighted_returns_successor
              (1 # 2) sample_node_ok sample_legacy_node_ok)
    as [_ [_ [H1 [_ [H2 _]]]]].
  split; [apply H1|apply H2]; vm_compute; split; congruence.
Defined.

(** ** Compilation in revision 000 *)

(** X23. What the claim on [calculateWeights] says, on revision 000: a dirty (or
    forced) well-formed Entry gets the thresholds of the specification; they
    are strictly increasing, the last one is [total], every successor is the
    target of exactly one threshold, and compiling again changes nothing. *)
Lemma calculateWeights_rebuilds (node : Rev000.Node) (force : bool) :
  related_ok (related node) ->
  sum_counts (related node) = Int (total node) ->
  mapped node = false \/ force = true ->
  let node' := Rev000.calculateWeights node force in
  let s := thresholds (Int 0) (related node) in
  node' = mkNode true (related node) (Some s) (total node)
  /\ strictly_increasing (obj_keys s)
  /\ last (obj_keys s) (Int 0) = Int (total node)
  /\ map snd s = obj_keys (related node)
  /\ (forall w, In w (obj_keys (related node)) ->
                count_occ string_dec (map snd s) w = 1%nat)
  /\ Rev000.calculateWeights node' false = node'
  /\ Rev000.calculateWeights node' true = node'.
Proof.
  intros Hok Hsum Hdirty. simpl.
  assert (Hcw : Rev000.calculateWeights node force
                = mkNode true (related node)
                         (Some (thresholds (Int 0) (related node)))
                         (total node)).
  { unfold Rev000.calculateWeights, isMappedNode.
    rewrite (accumulate_thresholds Hok). simpl.
    destruct Hdirty as [H|H]; rewrite H; simpl;
      [reflexivity|now rewrite andb_false_r]. }
  rewrite Hcw. repeat split.
  - apply thresholds_keys. apply Hok.
  - rewrite thresholds_last. exact Hsum.
  - apply thresholds_targets.
  - intros w Hw. rewrite thresholds_targets.
    destruct Hok as [Hnd _].
    now apply (proj1 (NoDup_count_occ' string_dec _) Hnd).
  - unfold Rev000.calculateWeights. simpl.
    now rewrite (accumulate_thresholds Hok).
Qed.

(** ** Facts on [Map] *)

Section MapFacts.
Variable V : Type.

Lemma map_get_set_same (m : jsmap V) k v : map_get (map_set k v m) k = Some v.
Proof.
  induction m as [|[k' v'] rest IH]; simpl.
  - now rewrite String.eqb_refl.
  - destruct (String.eqb k' k) eqn:E; simpl; rewrite E; [reflexivity|exact IH].
Qed.

Lemma map_get_set_other (m : jsmap V) k v k' :
  k <> k' -> map_get (map_set k v m) k' = map_get m k'.
Proof.
  intro Hne. induction m as [|[k0 v0] rest IH]; simpl.
  - apply String.eqb_neq in Hne. now rewrite Hne.
  - destruct (String.eqb k0 k) eqn:E; simpl.
    + apply String.eqb_eq in E. subst.
      apply String.eqb_neq in Hne. now rewrite Hne.
    + now rewrite IH.
Qed.

Lemma map_get_None (m : jsmap V) k :
  map_get m k = None <-> ~ In k (map_keys m).
Proof. apply (obj_get_None String.eqb string_eqb_eq). Qed.

(** Setting a key that is present keeps the keys and their order. *)
Lemma map_keys_set_present (m : jsmap V) k v :
  In k (map_keys m) -> map_keys (map_set k v m) = map_keys m.
Proof.
  induction m as [|[k' v'] rest IH]; simpl; [intros []|].
  intro H. destruct (String.eqb k' k) eqn:E; simpl; [reflexivity|].
  f_equal. apply IH. destruct H as [H|H]; [|exact H].
  subst. rewrite String.eqb_refl in E. discriminate.
Qed.

Lemma map_set_absent (m : jsmap V) k v :
  ~ In k (map_keys m) -> map_set k v m = m ++ [(k, v)].
Proof.
  induction m as [|[k' v'] rest IH]; simpl; [reflexivity|].
  intro H. destruct (String.eqb k' k) eqn:E.
  - apply String.eqb_eq in E. subst. exfalso. apply H. now left.
  - f_equal. apply IH. intro H1. apply H. now right.
Qed.

Lemma map_set_length_present (m : jsmap V) k v :
  In k (map_keys m) -> List.length (map_set k v m) = List.length m.
Proof.
  intro H. rewrite <- (length_map fst (map_set k v m)).
  fold (map_keys (map_set k v m)). rewrite map_keys_set_present by exact H.
  apply length_map.
Qed.

Lemma map_get_In_keys (m : jsmap V) k v :
  map_get m k = Some v -> In k (map_keys m).
Proof.
  intro H. apply (obj_get_Some_In String.eqb string_eqb_eq) in H.
  change k with (fst (k, v)). now apply in_map.
Qed.

(** The values of [new Map(entries)] come from the entries. *)
Lemma map_set_Forall (P : V -> Prop) (m : jsmap V) k v :
  P v -> Forall (fun e => P (snd e)) m ->
  Forall (fun e => P (snd e)) (map_set k v m).
Proof.
  intros Hv. induction 1 as [|[k' v'] rest Hh Ht IH]; simpl.
  - now repeat constructor.
  - destruct (String.eqb k' k); constructor; auto.
Qed.

Lemma map_of_entries_Forall (P : V -> Prop) (entries : list (string * V)) :
  Forall (fun e => P (snd e)) entries ->
  Forall (fun e => P (snd e)) (map_of_entries entries).
Proof.
  unfold map_of_entries.
  assert (H : forall (acc : jsmap V),
             Forall (fun e => P (snd e)) acc ->
             Forall (fun e => P (snd e)) entries ->
             Forall (fun e => P (snd e))
                    (fold_left (fun m e => map_set (fst e) (snd e) m)
                               entries acc)).
  { induction entries as [|e es IH]; intros acc Hacc Hes; simpl;
      [exact Hacc|].
    inversion Hes. subst. apply IH; [|assumption].
    now apply map_set_Forall. }
  intro Hes. apply H; [constructor|exact Hes].
Qed.

(** [new Map] of entries with distinct keys is the list of entries. *)
Lemma map_of_entries_NoDup (entries : list (string * V)) :
  NoDup (map fst entries) -> map_of_entries entries = entries.
Proof.
  unfold map_of_entries.
  assert (H : forall (acc : jsmap V),
             NoDup (map fst (acc ++ entries)) ->
             fold_left (fun m e => map_set (fst e) (snd e) m) entries acc
             = acc ++ entries).
  { induction entries as [|[k v] es IH]; intros acc Hnd; simpl.
    - now rewrite app_nil_r.
    - rewrite map_set_absent.
      + rewrite IH; rewrite <- app_assoc; [reflexivity|exact Hnd].
      + rewrite map_app in Hnd. simpl in Hnd.
        apply NoDup_remove_2 in Hnd. intro H. apply Hnd.
        apply in_or_app. now left. }
  intro Hnd. now apply (H []).
Qed.
End MapFacts.

(** ** Ingestion in the TypeScript revisions *)

Section TableFacts.
Variable S : Type.
Variable initSums : S.

(** The node of [first] exists once the map has been completed: the branch
    "will never happen" of [add] is dead. *)
Lemma observe_node_found (m : AsyncMarkov S) (first : Word) :
  exists node,
    map_get (if negb (map_has (nodes m) first)
             then map_set first (initNode initSums) (nodes m)
             else nodes m) first = Some node.
Proof.
  unfold map_has. destruct (map_get (nodes m) first) eqn:E; simpl.
  - eauto.
  - exists (initNode initSums). apply map_get_set_same.
Qed.

(** [observe] leaves the node of its first word dirty. *)
Lemma observe_touched (m : AsyncMarkov S) (first second : Word) :
  exists node,
    map_get (nodes (observe initSums first second m)) first = Some node
    /\ mapped node = false.
Proof.
  unfold observe.
  destruct (observe_node_found m first) as [node Hnode].
  rewrite Hnode. simpl. eexists. split; [apply map_get_set_same|reflexivity].
Qed.

(** [observe] does not touch the nodes of the other words. *)
Lemma observe_other (m : AsyncMarkov S) (first second w : Word) :
  first <> w ->
  map_get (nodes (observe initSums first second m)) w = map_get (nodes m) w.
Proof.
  intro Hne. unfold observe.
  destruct (observe_node_found m first) as [node Hnode].
  rewrite Hnode. simpl. rewrite map_get_set_other by exact Hne.
  destruct (negb (map_has (nodes m) first)); [|reflexivity].
  now apply map_get_set_other.
Qed.

Lemma observe_keeps_dirty (m : AsyncMarkov S) (first second w : Word) :
  (exists node, map_get (nodes m) w = Some node /\ mapped node = false) ->
  exists node,
    map_get (nodes (observe initSums first second m)) w = Some node
    /\ mapped node = false.
Proof.
  intro H. destruct (string_dec first w) as [->|Hne].
  - apply observe_touched.
  - now rewrite observe_other.
Qed.

Lemma fold_observe_dirty (ps : list (Word * Word)) (m : AsyncMarkov S) w :
  (exists node, map_get (nodes m) w = Some node /\ mapped node = false)
  \/ In w (map fst ps) ->
  exists node,
    map_get (nodes (fold_left (fun acc p => observe initSums (fst p) (snd p) acc)
                              ps m)) w = Some node
    /\ mapped node = false.
Proof.
  revert m. induction ps as [|[f s] rest IH]; intros m H; simpl.
  - destruct H as [H|[]]. exact H.
  - apply IH. destruct H as [H|[H|H]].
    + left. now apply observe_keeps_dirty.
    + left. simpl in H. subst. apply observe_touched.
    + now right.
Qed.

Lemma pairs_length (data : list Word) :
  pairs data <> [] -> (2 <= List.length data)%nat.
Proof.
  destruct data as [|a [|b rest]]; simpl; try congruence. lia.
Qed.

(** Every Entry that a call of [add] touches is dirty afterwards. *)
Lemma add_marks_dirty (str : string) (m : AsyncMarkov S) (first : Word) :
  In first (map fst (pairs (tokens str))) ->
  exists node,
    map_get (nodes (add initSums str m)) first = Some node /\ mapped node = false.
Proof.
  intro Hin. unfold add.
  assert (Hlen : (2 <= List.length (tokens str))%nat).
  { apply pairs_length. intro E. rewrite E in Hin. destruct Hin. }
  replace (Z.of_nat (List.length (tokens str)) <? 2) with false
    by (symmetry; apply Z.ltb_ge; lia).
  apply fold_observe_dirty. now right.
Qed.

(** [observe] counts one edge. *)
Lemma observe_edges (m : AsyncMarkov S) (first second : Word) :
  edges (observe initSums first second m) = edges m + 1.
Proof.
  unfold observe.
  destruct (observe_node_found m first) as [node Hnode].
  now rewrite Hnode.
Qed.
End TableFacts.

(** A dirty node of revision 000 is sampled from the distribution compiled
    at that moment from [related]: whatever [sums] held is dropped. *)
Lemma selectWeighted_dirty (node : Rev000.Node) (r : Q) :
  mapped node = false ->
  let s := snd (accumulate (related node) []) in
  Rev000.selectWeighted node r
  = (Return (first_pick (trunc_mul r (total node)) s (obj_keys s)),
     mkNode true (related node) (Some s) (total node)).
Proof.
  intro H. unfold Rev000.selectWeighted, Rev000.calculateWeights, isMappedNode.
  rewrite H. reflexivity.
Qed.

(** X25. Revision 000: the Entry that [add] touches is dirty, and the next draw
    from it walks the distribution compiled from its updated [related]. *)
Lemma rev000_add_then_draw (str : string) (m : Rev000.AsyncMarkov)
      (first : Word) :
  In first (map fst (pairs (tokens str))) ->
  exists node,
    map_get (nodes (Rev000.add str m)) first = Some node
    /\ mapped node = false
    /\ forall r,
         let s := snd (accumulate (related node) []) in
         fst (Rev000.selectWeighted node r)
         = Return (first_pick (trunc_mul r (total node)) s (obj_keys s)).
Proof.
  intro Hin.
  destruct (add_marks_dirty (None : option Sums) str m first Hin)
    as [node [Hget Hdirty]].
  exists node. split; [exact Hget|]. split; [exact Hdirty|].
  intro r. simpl. now rewrite (selectWeighted_dirty node r Hdirty).
Qed.

(** ** Ingestion in index.js *)

(** [observe] of index.js hands the [mapped] of the node it touches on
    unchanged: a distribution compiled earlier stays in place. *)
Lemma legacy_observe_keeps_mapped
  (ws : Legacy.Words) (hs inh : bool) (first second : Word)
  (node : Legacy.Node) :
  Legacy.words_get ws first = Some node ->
  exists ws' node',
    Legacy.observe first second (Legacy.mkModel (Some ws) hs inh)
    = (Return tt, Legacy.mkModel (Some ws') hs inh)
    /\ Legacy.words_get ws' first = Some node'
    /\ Legacy.mapped node' = Legacy.mapped node
    /\ Legacy.total node' = Legacy.total node + 1.
Proof.
  intro H. unfold Legacy.observe, Legacy.words_inherited. simpl.
  rewrite H. rewrite andb_false_r. rewrite H.
  eexists. eexists. split; [reflexivity|]. split.
  - apply (obj_get_set_same String.eqb string_array_index string_eqb_eq).
  - split; reflexivity.
Qed.

(** C1. index.js: after a draw has compiled the Entry of "a", a further
    [add] that touches it raises its counts but leaves the distribution of
    the earlier compilation in [mapped]; the next draw walks that stale
    distribution: it answers [null] for the roll 1 and can never answer the
    new successor "y". *)
Theorem legacy_add_keeps_stale_distribution :
  Legacy.words legacy_second_add
  = Some [("a", Legacy.mkNode 2 [("x", Int 1); ("y", Int 1)]
                              (Some [(Int 1, "x")]))]
  /\ fst (Legacy.generateWord (Some "a")
            (legacy_second_add, constant_source (1 # 2))) = Return None
  /\ forall g : Random,
       fst (Legacy.generateWord (Some "a") (legacy_second_add, g))
       <> Return (Some "y").
Proof.
  split; [reflexivity|]. split; [reflexivity|].
  intros g. unfold Legacy.generateWord. simpl.
  unfold Legacy.selectWeighted. simpl.
  destruct (trunc_mul (source g (position g)) 2 <? 1); discriminate.
Qed.

(** C3. index.js: the Entry of "a" that [add], a draw and a second [add]
    leave behind has [total = 2], the roll 1 lies in [0, total), and
    [selectWeighted] walks the stale thresholds to the end and returns
    [null]. *)
Theorem legacy_draw_null_with_positive_total :
  let node :=
    Legacy.mkNode 2 [("x", Int 1); ("y", Int 1)] (Some [(Int 1, "x")]) in
  Legacy.words legacy_second_add = Some [("a", node)]
  /\ 0 < Legacy.total node
  /\ trunc_mul (1 # 2) (Legacy.total node) = 1
  /\ fst (Legacy.selectWeighted node (1 # 2)) = None.
Proof. repeat split. Qed.

(** ** Compilation in revision 001 *)

Lemma accumulate_keeps_keys (rel : Related) (start : Sums) (k : num) :
  In k (obj_keys start) -> In k (obj_keys (snd (accumulate rel start))).
Proof.
  unfold accumulate. generalize (Int 0). revert start.
  induction (obj_keys rel) as [|key rest IH]; intros start t H; simpl;
    [exact H|].
  apply IH.
  now apply (obj_set_keeps_keys num_eqb num_array_index).
Qed.

(** X27. Revision 001 never drops a threshold: every key of [sums] is still a key
    after [calculateWeights], whatever [related] has become. *)
Lemma rev001_thresholds_remain (node : Rev001.Node) (force : bool) (k : num) :
  In k (obj_keys (sums node)) ->
  In k (obj_keys (sums (Rev001.calculateWeights node force))).
Proof.
  intro H. unfold Rev001.calculateWeights.
  destruct (isMappedNode node && negb force); [exact H|].
  simpl. now apply accumulate_keeps_keys.
Qed.

(** C2. Revision 001: compiling again after further observations writes the
    new thresholds next to the ones of the earlier compilation.  The
    successor "x" is then the target of two thresholds, and the roll 1, which
    belongs to "x" (counts x:4, y:1), draws "y".  Revision 000, which empties
    [sums] first, holds exactly the two thresholds 4 and 5. *)
Theorem rev001_calculateWeights_keeps_stale_thresholds :
  let node :=
    mkNode true [("x", Int 4); ("y", Int 1)]
           [(Int 1, "x"); (Int 2, "y"); (Int 4, "x"); (Int 5, "y")] 5 in
  map_get (nodes rev001_compiled_twice) "a" = Some node
  /\ count_occ string_dec (map snd (sums node)) "x" = 2%nat
  /\ fst (Rev001.selectWeighted node (1 # 5)) = Return (Some "y")
  /\ map_get (nodes rev000_compiled_twice) "a"
     = Some (mkNode true [("x", Int 4); ("y", Int 1)]
                    (Some [(Int 4, "x"); (Int 5, "y")]) 5).
Proof. repeat split. Qed.

(** ** [reset], [toJSON] and [load] *)

Section SnapshotFacts.
Variable S : Type.
Variable calculateWeights : Node S -> bool -> Node S.
Hypothesis calculateWeights_related :
  forall node force, related (calculateWeights node force) = related node.
Hypothesis calculateWeights_mapped :
  forall node, mapped (calculateWeights node false) = true.

Lemma reset_spec (m : AsyncMarkov S) :
  size (reset m) = 0
  /\ edges (reset m) = edges m
  /\ hasSentences (reset m) = hasSentences m.
Proof. repeat split. Qed.

(** [load] installs the entries as they are persisted. *)
Lemma load_nodes (data : Representation S) (m : AsyncMarkov S) :
  nodes (load data m) = map_of_entries (rep_words data)
  /\ hasSentences (load data m) = rep_hasSentences data.
Proof. split; reflexivity. Qed.

(** Without a numeric [edges], [load] adds the totals to the counter that
    [reset] left in place. *)
Lemma load_reconstructs_edges (data : Representation S) (m : AsyncMarkov S) :
  rep_edges data = None ->
  edges (load data m)
  = edges m
    + fold_right Z.add 0
        (map total (map_values (map_of_entries (rep_words data)))).
Proof.
  intro H. unfold load. rewrite H. simpl.
  generalize (edges m).
  induction (map_values (map_of_entries (rep_words data))) as [|n l IH];
    intro e; simpl; [lia|].
  rewrite IH. lia.
Qed.

Lemma finalize_keys (m : AsyncMarkov S) :
  keys (finalize calculateWeights m) = keys m.
Proof.
  unfold keys, map_keys, finalize. simpl. rewrite map_map. reflexivity.
Qed.

Lemma map_get_map (f : Node S -> Node S) (l : jsmap (Node S)) (w : Word) :
  map_get (map (fun e => (fst e, f (snd e))) l) w
  = option_map f (map_get l w).
Proof.
  induction l as [|[k v] rest IH]; simpl; [reflexivity|].
  destruct (String.eqb k w); [reflexivity|exact IH].
Qed.

Lemma finalize_get (m : AsyncMarkov S) (w : Word) :
  map_get (nodes (finalize calculateWeights m)) w
  = option_map (fun node => calculateWeights node false)
               (map_get (nodes m) w).
Proof.
  unfold finalize. simpl.
  apply (map_get_map (fun node => calculateWeights node false)).
Qed.


(** Round trip in the TypeScript revisions: loading the snapshot that
    [toJSON] returns gives back the size, the edge count, the flag and the
    counts of every word. *)
Lemma load_toJSON (m target : AsyncMarkov S) :
  NoDup (keys m) ->
  let loaded := load (fst (toJSON calculateWeights m)) target in
  size loaded = size m
  /\ edges loaded = edges m
  /\ hasSentences loaded = hasSentences m
  /\ forall w, option_map related (map_get (nodes loaded) w)
               = option_map related (map_get (nodes m) w).
Proof.
  intro Hnd. simpl. unfold load, toJSON. simpl.
  rewrite map_of_entries_NoDup.
  - repeat split.
    + unfold size. simpl. now rewrite length_map.
    + intro w.
      rewrite (map_get_map (fun node => calculateWeights node false)).
      destruct (map_get (nodes m) w); simpl; [|reflexivity].
      now rewrite calculateWeights_related.
  - rewrite map_map. exact Hnd.
Qed.
End SnapshotFacts.

Lemma rev000_calculateWeights_related (node : Rev000.Node) (force : bool) :
  related (Rev000.calculateWeights node force) = related node.
Proof.
  unfold Rev000.calculateWeights. now destruct (isMappedNode node && negb force).
Qed.

Lemma rev000_calculateWeights_mapped (node : Rev000.Node) :
  mapped (Rev000.calculateWeights node false) = true.
Proof.
  unfold Rev000.calculateWeights, isMappedNode.
  destruct (mapped node) eqn:E; simpl; [exact E|reflexivity].
Qed.

Lemma rev001_calculateWeights_related (node : Rev001.Node) (force : bool) :
  related (Rev001.calculateWeights node force) = related node.
Proof.
  unfold Rev001.calculateWeights. now destruct (isMappedNode node && negb force).
Qed.


(** C8. [reset] empties the map of Entries and nothing else: in revisions
    000 and 001 the edge counter and [hasSentences] keep their values, in
    revision 003 [hasSentences] does.  After the scenario text, [reset]
    leaves [edges = 5] and [hasSentences = true]; a later [load] of a snapshot
    without [edges] then counts on top of the 5. *)
Theorem reset_keeps_counters :
  (forall m : Rev000.AsyncMarkov,
      Rev000.size (Rev000.reset m) = 0
      /\ edges (Rev000.reset m) = edges m
      /\ hasSentences (Rev000.reset m) = hasSentences m)
  /\ (forall m : Rev001.AsyncMarkov,
         Rev001.size (Rev001.reset m) = 0
         /\ edges (Rev001.reset m) = edges m
         /\ hasSentences (Rev001.reset m) = hasSentences m)
  /\ (forall m : Rev003.AsyncMarkov,
         Rev003.size (Rev003.reset m) = 0
         /\ Rev003.hasSentences (Rev003.reset m) = Rev003.hasSentences m)
  /\ edges (Rev000.reset scenario_model) = 5
  /\ hasSentences (Rev000.reset scenario_model) = true
  /\ edges (Rev000.load snapshot_without_edges scenario_model) = 6.
Proof.
  split; [intro m; apply reset_spec|].
  split; [intro m; apply reset_spec|].
  repeat split.
Qed.

(** X24. Round trip on revision 000: the instance loaded from the export of a
    model has its size, its edge counter, its [hasSentences] and the
    [related] of every word. *)
Lemma rev000_load_toJSON (m target : Rev000.AsyncMarkov) :
  NoDup (keys m) ->
  let loaded := Rev000.load (fst (Rev000.toJSON m)) target in
  Rev000.size loaded = Rev000.size m
  /\ edges loaded = edges m
  /\ hasSentences loaded = hasSentences m
  /\ forall w, option_map related (map_get (nodes loaded) w)
               = option_map related (map_get (nodes m) w).
Proof.
  apply (load_toJSON Rev000.calculateWeights rev000_calculateWeights_related).
Qed.

(** C4. index.js: [toJSON] stores the table under [data], [load] reads it
    from [words]; the model loaded from an exported snapshot has no table
    ([#words] is [undefined]) and its [size] raises, whatever the model was.
    For the model of "a x", of size 1, the loaded model has no size. *)
Theorem legacy_load_of_export_loses_words :
  (forall m : Legacy.AsyncMarkov,
      Legacy.load (Legacy.toJSON m)
      = Legacy.mkModel None (Legacy.hasSentences m) true
      /\ Legacy.size (Legacy.load (Legacy.toJSON m)) = Throw TypeError)
  /\ Legacy.size legacy_first_add = Return 1
  /\ Legacy.size (Legacy.load (Legacy.toJSON legacy_first_add))
     = Throw TypeError.
Proof. repeat split. Qed.




(** ** Validation of the amount *)

Lemma Qtrunc_integer (q : Q) (z : Z) : (q == inject_Z z)%Q -> Qtrunc q = z.
Proof.
  destruct q as [a b]. unfold Qeq, Qtrunc. simpl. intro H.
  rewrite Z.mul_1_r in H. subst a. apply Z.quot_mul. discriminate.
Qed.

(** The test of [generateWords] and [generateSentences] rejects exactly the
    amounts that are not positive finite integers. *)
Lemma invalid_amount_spec (amount : number) :
  invalid_amount amount = true <-> ~ positive_finite_integer amount.
Proof.
  destruct amount as [q| | |]; unfold invalid_amount; simpl;
    try (split; [intros _ []|reflexivity]).
  rewrite orb_false_r. split.
  - intros H [p Hp]. apply orb_true_iff in H. destruct H as [H|H].
    + apply Qle_bool_iff in H. rewrite Hp in H.
      unfold Qle in H. simpl in H. lia.
    + apply negb_true_iff in H.
      assert (Ht : Qeq_bool (inject_Z (Qtrunc q)) q = true).
      { apply Qeq_bool_iff. rewrite (Qtrunc_integer Hp). now symmetry. }
      congruence.
  - intro H.
    destruct (Qle_bool q 0) eqn:E1; [reflexivity|].
    destruct (Qeq_bool (inject_Z (Qtrunc q)) q) eqn:E2; [|reflexivity].
    exfalso. apply H. apply Qeq_bool_iff in E2.
    assert (Hpos : 0 < Qtrunc q).
    { destruct (Z.lt_ge_cases 0 (Qtrunc q)) as [Hlt|Hge]; [exact Hlt|].
      assert (Hle : (q <= 0)%Q).
      { rewrite <- E2. unfold Qle. simpl. lia. }
      apply Qle_bool_iff in Hle. congruence. }
    exists (Z.to_pos (Qtrunc q)). rewrite Z2Pos.id by exact Hpos.
    now symmetry.
Qed.

(** ** Generation in the TypeScript revisions: errors *)

Section GenerationFacts.
Variable S : Type.
Variable selectWeighted : Node S -> Q -> outcome (option Word) * Node S.
(** The sampler raises nothing but a [TypeError] of the runtime. *)
Hypothesis selectWeighted_throws :
  forall node r e node', selectWeighted node r = (Throw e, node') -> e = TypeError.

Lemma generateWord_empty (root : option Word) (w : World S) :
  size (model w) = 0 ->
  generateWord selectWeighted root w = (Throw EmptyModel, w).
Proof.
  intro H. unfold generateWord. rewrite H. reflexivity.
Qed.

(** On a model with Entries [generateWord] raises at most a [TypeError],
    and the model keeps its Entries' keys. *)
Lemma generateWord_nonempty (root : option Word) (w : World S) :
  size (model w) <> 0 ->
  forall res w',
    generateWord selectWeighted root w = (res, w') ->
    size (model w') = size (model w)
    /\ forall e, res = Throw e -> e = TypeError.
Proof.
  intros Hsize res w'. unfold generateWord.
  apply Z.eqb_neq in Hsize. rewrite Hsize.
  destruct (if negb (truthy root)
            then
              let '(r, g) := Math_random (random w) in
              (at_index (keys (model w))
                 (trunc_mul r (Z.of_nat (List.length (keys (model w))))), g)
            else (root, random w)) as [root1 g1].
  destruct root1 as [word|].
  - destruct (map_get (nodes (model w)) word) as [object|] eqn:Hget.
    + destruct (Math_random g1) as [r g2].
      destruct (selectWeighted object r) as [result object'] eqn:Hsel.
      intro H. inversion H. subst. simpl. split.
      * unfold size. simpl. f_equal.
        apply map_set_length_present.
        now apply map_get_In_keys with (v := object).
      * intros e He. subst. eapply selectWeighted_throws. exact Hsel.
    + intro H. inversion H. subst. simpl. split; [reflexivity|discriminate].
  - intro H. inversion H. subst. simpl. split; [reflexivity|discriminate].
Qed.

Lemma generateWords_loop_nonempty (n : nat) (stop : bool) :
  forall (current : option Word) (output : list (option Word)) (w : World S),
    size (model w) <> 0 ->
    forall e w',
      generateWords_loop selectWeighted n stop current output w = (Throw e, w') ->
      e = TypeError.
Proof.
  induction n as [|n IH]; intros current output w Hsize e w'; simpl.
  - unfold ret. discriminate.
  - unfold bind.
    destruct (generateWord selectWeighted current w) as [[c|e1] w1] eqn:H1.
    + destruct (generateWord_nonempty current w Hsize H1) as [Hs1 _].
      assert (Hsize1 : size (model w1) <> 0) by (rewrite Hs1; exact Hsize).
      destruct (negb (truthy c)).
      * destruct stop; [unfold ret; discriminate|].
        destruct (generateWord selectWeighted None w1) as [[c2|e2] w2] eqn:H2.
        -- destruct (generateWord_nonempty None w1 Hsize1 H2) as [Hs2 _].
           apply IH. rewrite Hs2. exact Hsize1.
        -- intro H. inversion H. subst.
           now apply (generateWord_nonempty None w1 Hsize1 H2).
      * now apply IH.
    + intro H. inversion H. subst.
      now apply (generateWord_nonempty current w Hsize H1).
Qed.

Lemma generateSentences_loop_nonempty (fuel : nat) :
  forall (amount : Z) (current : option Word) (output : list (option Word))
         (w : World S),
    size (model w) <> 0 ->
    forall e w',
      generateSentences_loop selectWeighted fuel amount current output w
      = (Throw e, w') ->
      e = TypeError.
Proof.
  induction fuel as [|fuel IH]; intros amount current output w Hsize e w';
    simpl; destruct (amount >? 0); unfold ret; try discriminate.
  unfold bind.
  destruct (generateWord selectWeighted current w) as [[c|e1] w1] eqn:H1.
  - destruct (generateWord_nonempty current w Hsize H1) as [Hs1 _].
    apply IH. rewrite Hs1. exact Hsize.
  - intro H. inversion H. subst.
    now apply (generateWord_nonempty current w Hsize H1).
Qed.

(** An error other than a [TypeError] leaves the world as it was. *)
Lemma generateWord_error (root : option Word) (w : World S) e w' :
  e <> TypeError ->
  generateWord selectWeighted root w = (Throw e, w') -> w' = w.
Proof.
  intros He H. destruct (Z.eq_dec (size (model w)) 0) as [H0|H0].
  - rewrite (generateWord_empty root w H0) in H. now inversion H.
  - exfalso. apply He. now apply (generateWord_nonempty root w H0 H).
Qed.

Lemma generateWords_loop_error (n : nat) (stop : bool)
      (current : option Word) (output : list (option Word)) (w : World S) e w' :
  e <> TypeError ->
  generateWords_loop selectWeighted n stop current output w = (Throw e, w') ->
  w' = w.
Proof.
  intros He H. destruct (Z.eq_dec (size (model w)) 0) as [H0|H0].
  - destruct n as [|n]; simpl in H; [discriminate|].
    unfold bind in H. rewrite (generateWord_empty current w H0) in H.
    now inversion H.
  - exfalso. apply He.
    now apply (generateWords_loop_nonempty n stop current output w H0 H).
Qed.

Lemma generateWords_error (amount : number) (root : option Word)
      (stop : option bool) (w : World S) e w' :
  e <> TypeError ->
  generateWords selectWeighted amount root stop w = (Throw e, w') -> w' = w.
Proof.
  intros He. unfold generateWords.
  destruct (invalid_amount amount).
  - unfold throw. intro H. now inversion H.
  - unfold bind.
    destruct (generateWords_loop selectWeighted (amount_to_nat amount)
                match stop with Some b => b | None => false end root
                (if truthy root then [root] else []) w)
      as [[out|e1] w1] eqn:Hloop.
    + unfold ret. discriminate.
    + intro H. inversion H. subst.
      now apply (generateWords_loop_error _ _ _ _ w He Hloop).
Qed.

Lemma generateSentences_error (fuel : nat) (amount : number)
      (root : option Word) (w : World S) e w' :
  e <> TypeError ->
  generateSentences selectWeighted fuel amount root w = (Throw e, w') ->
  w' = w.
Proof.
  intros He. unfold generateSentences.
  destruct (negb (hasSentences (model w))); [intro H; now inversion H|].
  destruct (invalid_amount amount); [intro H; now inversion H|].
  unfold bind.
  match goal with
  | |- context [generateSentences_loop _ ?f ?a ?c ?o w] =>
      destruct (generateSentences_loop selectWeighted f a c o w)
        as [[out|e1] w1] eqn:Hloop
  end.
  - unfold ret. discriminate.
  - intro H. inversion H. subst.
    destruct (Z.eq_dec (size (model w)) 0) as [H0|H0].
    + destruct fuel as [|fuel]; simpl in Hloop;
        destruct (_ >? 0); unfold ret in Hloop; try discriminate.
      unfold bind in Hloop. rewrite (generateWord_empty root w H0) in Hloop.
      now inversion Hloop.
    + exfalso. apply He.
      now apply (generateSentences_loop_nonempty _ _ _ _ w H0 Hloop).
Qed.
End GenerationFacts.

Lemma rev000_selectWeighted_throws (node : Rev000.Node) (r : Q) e node' :
  Rev000.selectWeighted node r = (Throw e, node') -> e = TypeError.
Proof.
  unfold Rev000.selectWeighted. cbv zeta.
  match goal with
  | |- context [match sums ?n with _ => _ end] => destruct (sums n)
  end; intro H; inversion H; reflexivity.
Qed.

Lemma contract_error_not_TypeError (e : error) :
  contract_error e -> e <> TypeError.
Proof. intros [H|[H|H]]; subst; discriminate. Qed.

(** The claim C9 fails on a model without sentence boundary: there
    [generateSentences(0)] raises [UnsupportedOperation], not
    [InvalidArgument]. *)
Lemma generateSentences_guard_comes_first :
  ~ positive_finite_integer (Finite 0)
  /\ hasSentences dead_end_model = false
  /\ Rev000.generateSentences 5 (Finite 0) None dead_end_world
     = (Throw UnsupportedOperation, dead_end_world)
  /\ fst (Rev000.generateSentences 5 (Finite 0) None dead_end_world)
     <> Throw InvalidArgument.
Proof.
  split; [apply invalid_amount_spec; reflexivity|].
  split; [reflexivity|]. split; [reflexivity|discriminate].
Qed.

(** C9, amended. Revision 000: an amount that is not a positive finite
    integer makes [generateWords] raise [InvalidArgument], and makes
    [generateSentences] raise too: [InvalidArgument] on a model with a
    sentence boundary, [UnsupportedOperation] on a model without, whose test
    comes first.  Whenever [generateWord], [generateWords] or
    [generateSentences] raises [InvalidArgument], [EmptyModel] or
    [UnsupportedOperation], the model (Entries, edge count, sentence flag) and
    the random source are as before the call. *)
Theorem generation_errors_precede_mutation
  (amount : number) (root : option Word) (stop : option bool) (fuel : nat)
  (w : World (option Sums)) :
  (~ positive_finite_integer amount ->
   Rev000.generateWords amount root stop w = (Throw InvalidArgument, w)
   /\ Rev000.generateSentences fuel amount root w
      = (Throw (if hasSentences (model w) then InvalidArgument
                else UnsupportedOperation), w))
  /\ (forall e w',
         contract_error e ->
         Rev000.generateWord root w = (Throw e, w')
         \/ Rev000.generateWords amount root stop w = (Throw e, w')
         \/ Rev000.generateSentences fuel amount root w = (Throw e, w') ->
         w' = w).
Proof.
  split.
  - intro H. apply invalid_amount_spec in H. split.
    + unfold Rev000.generateWords, generateWords. now rewrite H.
    + unfold Rev000.generateSentences, generateSentences. rewrite H.
      now destruct (hasSentences (model w)).
  - intros e w' He H. apply contract_error_not_TypeError in He.
    destruct H as [H|[H|H]].
    + eapply generateWord_error;
        [exact rev000_selectWeighted_throws|exact He|exact H].
    + eapply generateWords_error;
        [exact rev000_selectWeighted_throws|exact He|exact H].
    + eapply generateSentences_error;
        [exact rev000_selectWeighted_throws|exact He|exact H].
Qed.

Lemma generation_errors_precede_mutation_witness :
  Rev000.generateWords (Finite 0) None None scenario_world
  = (Throw InvalidArgument, scenario_world)
  /\ Rev000.generateSentences 5 (Finite (1 # 2)) None scenario_world
     = (Throw InvalidArgument, scenario_world)
  /\ snd (Rev000.generateWord None (mkWorld Rev000.empty (constant_source 0)))
     = mkWorld Rev000.empty (constant_source 0).
Proof.
  split; [|split].
  - apply (generation_errors_precede_mutation
             (Finite 0) None None 5%nat scenario_world).
    apply invalid_amount_spec. reflexivity.
  - apply (generation_errors_precede_mutation
             (Finite (1 # 2)) None None 5%nat scenario_world).
    apply invalid_amount_spec. reflexivity.
  - apply (proj2 (generation_errors_precede_mutation
                    (Finite 1) None None 5%nat
                    (mkWorld Rev000.empty (constant_source 0)))
                 EmptyModel).
    + right. left. reflexivity.
    + left. reflexivity.
Defined.

(** ** The starting word of [generateWord] *)

Lemma at_index_in_range (A : Type) (l : list A) (index : Z) :
  0 <= index < Z.of_nat (List.length l) ->
  exists a, at_index l index = Some a /\ In a l.
Proof.
  intro H. unfold at_index.
  replace (index <? 0) with false by (symmetry; apply Z.ltb_ge; lia).
  destruct (nth_error l (Z.to_nat index)) as [a|] eqn:E.
  - exists a. split; [reflexivity|]. now apply nth_error_In in E.
  - apply nth_error_None in E. lia.
Qed.

(** The key that a value [r] of the random source selects. *)
Lemma random_key (A : Type) (l : list (string * A)) (r : Q) :
  l <> [] -> unit_interval r ->
  exists key,
    at_index (map fst l) (trunc_mul r (Z.of_nat (List.length (map fst l))))
    = Some key
    /\ In key (map fst l).
Proof.
  intros Hne Hr. apply at_index_in_range. apply trunc_mul_range; [exact Hr|].
  rewrite length_map. destruct l; [congruence|simpl; lia].
Qed.

(** C10. [generateWord("")] is [generateWord(null)], in revision 000 and in
    index.js; on a model with Entries and a random value in [0, 1) the call
    selects the key [keys[trunc(random * keys.length)]] and answers with the
    draw from the Entry of that key. *)
Theorem generateWord_empty_string_as_null
  (w : World (option Sums)) (lm : Legacy.AsyncMarkov) (ws : Legacy.Words) :
  let r1 := source (random w) (position (random w)) in
  let r2 := source (random w) (Datatypes.S (position (random w))) in
  Rev000.generateWord (Some "") w = Rev000.generateWord None w
  /\ Legacy.generateWord (Some "") (lm, random w)
     = Legacy.generateWord None (lm, random w)
  /\ (nodes (model w) <> [] -> unit_interval r1 ->
      exists key node,
        at_index (keys (model w))
                 (trunc_mul r1 (Z.of_nat (List.length (keys (model w)))))
        = Some key
        /\ map_get (nodes (model w)) key = Some node
        /\ fst (Rev000.generateWord (Some "") w)
           = fst (Rev000.selectWeighted node r2))
  /\ (Legacy.words lm = Some ws -> ws <> [] -> unit_interval r1 ->
      exists key node,
        at_index (obj_keys ws)
                 (trunc_mul r1 (Z.of_nat (List.length (obj_keys ws))))
        = Some key
        /\ Legacy.words_get ws key = Some node
        /\ fst (Legacy.generateWord (Some "") (lm, random w))
           = Return (fst (Legacy.selectWeighted node r2))).
Proof.
  intros r1 r2. split; [reflexivity|]. split; [reflexivity|]. split.
  - intros Hne Hr.
    destruct (random_key (l := nodes (model w)) Hne Hr) as [key [Hkey Hin]].
    destruct (obj_get_key_In String.eqb string_eqb_eq _ _ Hin) as [node Hnode].
    exists key, node. split; [exact Hkey|]. split; [exact Hnode|].
    unfold Rev000.generateWord, generateWord.
    replace (size (model w) =? 0) with false.
    + simpl.
      match goal with
      | |- context [at_index ?l ?i] =>
          replace (at_index l i) with (Some key) by (symmetry; exact Hkey)
      end.
      replace (map_get (nodes (model w)) key) with (Some node)
        by (symmetry; exact Hnode).
      fold r2. now destruct (Rev000.selectWeighted node r2).
    + symmetry. apply Z.eqb_neq. unfold size.
      destruct (nodes (model w)); [congruence|simpl; lia].
  - intros Hws Hne Hr.
    destruct (random_key (l := ws) Hne Hr) as [key [Hkey Hin]].
    destruct (obj_get_key_In String.eqb string_eqb_eq _ _ Hin) as [node Hnode].
    exists key, node. split; [exact Hkey|]. split; [exact Hnode|].
    unfold Legacy.generateWord. rewrite Hws.
    replace (Z.of_nat (List.length (obj_keys ws)) =? 0) with false.
    + simpl.
      match goal with
      | |- context [at_index ?l ?i] =>
          replace (at_index l i) with (Some key) by (symmetry; exact Hkey)
      end.
      unfold Legacy.words_inherited.
      replace (Legacy.words_get ws key) with (Some node)
        by (symmetry; exact Hnode).
      rewrite andb_false_r.
      fold r2. now destruct (Legacy.selectWeighted node r2).
    + symmetry. apply Z.eqb_neq. unfold obj_keys. rewrite length_map.
      destruct ws; [congruence|simpl; lia].
Qed.

Lemma zero_unit_interval : unit_interval 0.
Proof. split; unfold Qle, Qlt; simpl; lia. Qed.

Lemma generateWord_empty_string_as_null_witness :
  Rev000.generateWord (Some "") dead_end_world
  = Rev000.generateWord None dead_end_world
  /\ exists key node,
       at_index (keys dead_end_model) (trunc_mul 0 1) = Some key
       /\ map_get (nodes dead_end_model) key = Some node
       /\ fst (Rev000.generateWord (Some "") dead_end_world)
          = fst (Rev000.selectWeighted node 0).
Proof.
  destruct (generateWord_empty_string_as_null
              dead_end_world legacy_first_add []) as [H1 [_ [H3 _]]].
  split; [exact H1|].
  apply H3; [discriminate|exact zero_unit_interval].
Defined.

(** ** The scenarios *)

(** The scenario of C6 as the claim has it fails: the text has four distinct
    predecessor words, not five. *)
Lemma scenario_size_is_not_5 :
  tokens scenario_text = ["The"; "cat"; "sat."; "The"; "dog"; "ran."]
  /\ Rev000.size scenario_model <> 5.
Proof. split; [reflexivity|discriminate]. Qed.

(** C6, amended. After [add("The cat sat. The dog ran.")] on an empty model
    [hasSentences] is true, the model has the 4 Entries "The", "cat", "sat."
    and "dog" ("ran." is never a predecessor), and [edges] is 5. *)
Theorem scenario_counts :
  hasSentences scenario_model = true
  /\ Rev000.size scenario_model = 4
  /\ keys scenario_model = ["The"; "cat"; "sat."; "dog"]
  /\ edges scenario_model = 5.
Proof. repeat split. Qed.

(** The scenario of C5 as the claim has it fails: the output is the single
    word "b". *)
Lemma dead_end_output_is_not_a_b :
  fst (Rev000.generateWords (Finite 3) None (Some true) dead_end_world)
  = Return "b"
  /\ fst (Rev000.generateWords (Finite 3) None (Some true) dead_end_world)
     <> Return "a b".
Proof. split; [reflexivity|discriminate]. Qed.

(** C5, amended. On a model whose only Entry is "a" -> {"b": 1},
    [generateWords(3, null, {stop: true})] returns the one word "b": the key
    "a" selected as the start is not part of the output, its successor "b" is
    drawn, and the walk stops there because "b" has no Entry. *)
Theorem generateWords_stops_at_dead_end
  (node : Rev000.Node) (hs : bool) (e : Z) (g : Random) :
  related node = [("b", Int 1)] ->
  total node = 1 ->
  (mapped node = true -> sums node = Some [(Int 1, "b")]) ->
  unit_interval (source g (position g)) ->
  unit_interval (source g (Datatypes.S (position g))) ->
  fst (Rev000.generateWords (Finite 3) None (Some true)
         (mkWorld (mkModel [("a", node)] hs e) g))
  = Return "b".
Proof.
  intros Hrel Htot Hclean Hr1 Hr2.
  assert (Hok : node_ok node).
  { unfold node_ok. rewrite Hrel, Htot. split; [|split].
    - split; [repeat constructor; simpl; intuition|repeat constructor].
    - reflexivity.
    - exact Hclean. }
  assert (Hi1 : trunc_mul (source g (position g)) 1 = 0)
    by (pose proof (trunc_mul_range Hr1 (n := 1)); lia).
  assert (Hi2 : trunc_mul (source g (Datatypes.S (position g))) 1 = 0)
    by (pose proof (trunc_mul_range Hr2 (n := 1)); lia).
  set (compiled := mkNode true [("b", Int 1)] (Some [(Int 1, "b")]) 1).
  set (g2 := mkRandom (source g) (Datatypes.S (Datatypes.S (position g)))).
  assert (Hsel : Rev000.selectWeighted node (source g (Datatypes.S (position g)))
                 = (Return (Some "b"), compiled)).
  { rewrite (selectWeighted_compiled _ Hok). rewrite Hrel, Htot, Hi2.
    reflexivity. }
  assert (Hstep1 : Rev000.generateWord None
                     (mkWorld (mkModel [("a", node)] hs e) g)
                   = (Return (Some "b"),
                      mkWorld (mkModel [("a", compiled)] hs e) g2)).
  { unfold Rev000.generateWord, generateWord. simpl.
    rewrite Hi1. simpl. rewrite Hsel. reflexivity. }
  assert (Hstep2 : Rev000.generateWord (Some "b")
                     (mkWorld (mkModel [("a", compiled)] hs e) g2)
                   = (Return None,
                      mkWorld (mkModel [("a", compiled)] hs e) g2)).
  { reflexivity. }
  unfold Rev000.generateWords, generateWords.
  change (invalid_amount (Finite 3)) with false.
  change (amount_to_nat (Finite 3)) with 3%nat.
  cbv iota. unfold bind at 1. cbn [generateWords_loop truthy].
  unfold bind at 1. fold Rev000.generateWord. rewrite Hstep1.
  cbn [truthy negb String.eqb Ascii.eqb Bool.eqb app].
  unfold bind at 1. rewrite Hstep2. reflexivity.
Qed.

Lemma generateWords_stops_at_dead_end_witness :
  fst (Rev000.generateWords (Finite 3) None (Some true)
         (mkWorld (mkModel [("a", mkNode false [("b", Int 1)] None 1)] false 1)
                  (constant_source 0)))
  = Return "b".
Proof.
  apply generateWords_stops_at_dead_end;
    try reflexivity; try discriminate; exact zero_unit_interval.
Defined.

(** ** The invariant of revision 000

    The operations of revision 000 keep every Entry well formed, as long as
    the text holds no word that [related] inherits from [Object.prototype]. *)

Lemma fold_num_add_count_sum (rel : Related) (a : Z) :
  Forall (fun e => positive_count (snd e) = true) rel ->
  fold_left num_add (map snd rel) (Int a) = Int (a + count_sum rel).
Proof.
  revert a. induction rel as [|[k v] rest IH]; intros a H; simpl.
  - now rewrite Z.add_0_r.
  - inversion H as [|? ? Hv Hrest]. subst. simpl in Hv.
    destruct (positive_count_Int _ Hv) as [z [-> _]]. simpl.
    rewrite IH by exact Hrest. f_equal. lia.
Qed.

Lemma sum_counts_count_sum (rel : Related) :
  Forall (fun e => positive_count (snd e) = true) rel ->
  sum_counts rel = Int (count_sum rel).
Proof. intro H. unfold sum_counts. now rewrite fold_num_add_count_sum. Qed.

Lemma count_sum_app (r1 r2 : Related) :
  count_sum (r1 ++ r2) = count_sum r1 + count_sum r2.
Proof.
  induction r1 as [|[k v] rest IH]; simpl; [reflexivity|]. rewrite IH. lia.
Qed.

Lemma count_sum_insert_index (rel : Related) i k v :
  count_sum (obj_insert_index string_array_index i k v rel)
  = count_sum rel + count_value v.
Proof.
  induction rel as [|[k0 v0] rest IH]; simpl; [lia|].
  destruct (string_array_index k0) as [j|]; [destruct (j <? i)|]; simpl;
    rewrite ?IH; lia.
Qed.

Lemma count_sum_set_new (rel : Related) k v :
  related_get rel k = None ->
  count_sum (related_set k v rel) = count_sum rel + count_value v.
Proof.
  intro H. unfold related_set, obj_set. unfold related_get in H. rewrite H.
  destruct (string_array_index k).
  - apply count_sum_insert_index.
  - rewrite count_sum_app. simpl. lia.
Qed.

Lemma count_sum_replace (rel : Related) k v0 v :
  related_get rel k = Some v0 ->
  count_sum (obj_replace String.eqb k v rel)
  = count_sum rel - count_value v0 + count_value v.
Proof.
  unfold related_get.
  induction rel as [|[k' v'] rest IH]; simpl; [discriminate|].
  destruct (String.eqb k' k); simpl.
  - intro H. inversion H. subst. lia.
  - intro H. rewrite IH by exact H. lia.
Qed.

Lemma positive_replace (rel : Related) k v :
  positive_count v = true ->
  Forall (fun e => positive_count (snd e) = true) rel ->
  Forall (fun e => positive_count (snd e) = true)
         (obj_replace String.eqb k v rel).
Proof.
  intro Hv. induction 1 as [|[k' v'] rest Hh Ht IH]; simpl; [constructor|].
  destruct (String.eqb k' k); constructor; auto.
Qed.

Lemma plain_word_not_proto (w : Word) : plain_word w -> w <> "__proto__".
Proof. intros H E. subst. discriminate H. Qed.

(** The two statements of [add] on [related], for a plain word: the count
    of [second] goes up by one, from 0 if it was absent. *)
Lemma related_increment_ok (second : Word) (rel : Related) :
  plain_word second -> related_ok rel ->
  let rel1 :=
    if is_undefined (related_read rel second)
    then related_write second (Int 0) rel else rel in
  related_ok (related_increment second rel1)
  /\ count_sum (related_increment second rel1) = count_sum rel + 1.
Proof.
  intros Hplain [Hnd Hpos].
  destruct (related_get rel second) as [v|] eqn:Hget.
  - assert (Hread : related_read rel second = Own v)
      by (unfold related_read; now rewrite Hget).
    rewrite Hread. cbn [is_undefined].
    unfold related_increment. rewrite Hread. cbn [to_number].
    unfold related_write. rewrite Hget.
    assert (Hin : In (second, v) rel)
      by (apply (obj_get_Some_In String.eqb string_eqb_eq); exact Hget).
    assert (Hkey : In second (obj_keys rel))
      by (change second with (fst (second, v)); now apply in_map).
    rewrite Forall_forall in Hpos. pose proof (Hpos _ Hin) as Hv.
    simpl in Hv. destruct (positive_count_Int _ Hv) as [z [-> Hz]].
    unfold related_set.
    rewrite (obj_set_present String.eqb string_array_index string_eqb_eq
               rel second _ Hkey).
    split; [split|].
    + now rewrite (obj_keys_replace String.eqb).
    + apply positive_replace; [simpl; apply Z.ltb_lt; lia|].
      now apply Forall_forall.
    + erewrite count_sum_replace by exact Hget. simpl. lia.
  - assert (Hread : related_read rel second = Undefined).
    { unfold related_read. rewrite Hget. unfold plain_word in Hplain.
      now rewrite Hplain. }
    rewrite Hread. cbn [is_undefined].
    pose proof (plain_word_not_proto Hplain) as Hne.
    apply String.eqb_neq in Hne.
    assert (Hw0 : related_write second (Int 0) rel
                  = related_set second (Int 0) rel)
      by (unfold related_write; now rewrite Hget, Hne).
    rewrite Hw0.
    assert (Hnew : ~ In second (obj_keys rel))
      by (apply (obj_get_None String.eqb string_eqb_eq); exact Hget).
    assert (Hget1 : related_get (related_set second (Int 0) rel) second
                    = Some (Int 0))
      by apply (obj_get_set_same String.eqb string_array_index string_eqb_eq).
    assert (Hread1 : related_read (related_set second (Int 0) rel) second
                     = Own (Int 0))
      by (unfold related_read; now rewrite Hget1).
    unfold related_increment. rewrite Hread1. cbn [to_number].
    unfold related_write. rewrite Hget1.
    assert (Hkey1 : In second (obj_keys (related_set second (Int 0) rel))).
    { unfold related_get in Hget1.
      apply (obj_get_Some_In String.eqb string_eqb_eq) in Hget1.
      change second with (fst (second, Int 0)). now apply in_map. }
    unfold related_set in *.
    rewrite (obj_set_present String.eqb string_array_index string_eqb_eq
               _ second (num_incr (Int 0)) Hkey1).
    rewrite (obj_replace_set_new String.eqb string_array_index string_eqb_eq
               rel second (Int 0) (num_incr (Int 0)) Hnew).
    split; [split|].
    + now apply (obj_set_NoDup String.eqb string_array_index string_eqb_eq).
    + apply Forall_forall. intros e He.
      apply (obj_set_new_In String.eqb string_array_index string_eqb_eq)
        in He; [|exact Hnew].
      destruct He as [->|He]; [reflexivity|].
      rewrite Forall_forall in Hpos. now apply Hpos.
    + change (count_sum (related_set second (num_incr (Int 0)) rel)
              = count_sum rel + 1).
      now rewrite (@count_sum_set_new rel second (num_incr (Int 0)) Hget).
Qed.

Lemma initNode_ok : node_ok (initNode (None : option Sums)).
Proof.
  split; [split; constructor|]. split; [reflexivity|discriminate].
Qed.

Lemma observe_model_ok (first second : Word) (m : Rev000.AsyncMarkov) :
  plain_word second -> model_ok m ->
  model_ok (observe None first second m).
Proof.
  intros Hplain Hm. unfold model_ok, observe.
  set (nodes1 := if negb (map_has (nodes m) first)
                 then map_set first (initNode None) (nodes m) else nodes m).
  assert (H1 : Forall (fun e : Word * Rev000.Node => node_ok (snd e)) nodes1).
  { unfold nodes1. destruct (negb (map_has (nodes m) first)); [|exact Hm].
    apply (map_set_Forall node_ok); [exact initNode_ok|exact Hm]. }
  destruct (map_get nodes1 first) as [node|] eqn:Hget; simpl; [|exact H1].
  apply (map_set_Forall node_ok); [|exact H1].
  assert (Hnode : node_ok node).
  { apply (obj_get_Some_In String.eqb string_eqb_eq) in Hget.
    rewrite Forall_forall in H1. exact (H1 _ Hget). }
  destruct Hnode as [Hok [Hsum _]].
  destruct (related_increment_ok Hplain Hok) as [Hok' Hsum'].
  split; [exact Hok'|]. split; [|discriminate]. simpl.
  rewrite (sum_counts_count_sum (proj2 Hok')). rewrite Hsum'.
  rewrite (sum_counts_count_sum (proj2 Hok)) in Hsum. now inversion Hsum.
Qed.

Lemma pairs_seconds (data : list Word) (p : Word * Word) :
  In p (pairs data) -> In (snd p) data.
Proof.
  induction data as [|a rest IH]; [intros []|].
  destruct rest as [|b rest']; [intros []|].
  intros [H|H]; [subst; simpl; auto|].
  right. now apply IH.
Qed.

Lemma add_model_ok (str : string) (m : Rev000.AsyncMarkov) :
  Forall plain_word (tokens str) -> model_ok m -> model_ok (Rev000.add str m).
Proof.
  intros Hplain Hm. unfold Rev000.add, add.
  set (m1 := if negb (hasSentences m)
             then mkModel (nodes m) (sentenceRegex_test str) (edges m)
             else m).
  assert (Hm1 : model_ok m1) by (unfold m1; now destruct (hasSentences m)).
  destruct (Z.of_nat (List.length (tokens str)) <? 2); [exact Hm1|].
  assert (H : forall ps acc,
             (forall p, In p ps -> plain_word (snd p)) -> model_ok acc ->
             model_ok (fold_left (fun acc p => observe None (fst p) (snd p) acc)
                                 ps acc)).
  { induction ps as [|p ps IH]; intros acc Hps Hacc; simpl; [exact Hacc|].
    apply IH.
    - intros q Hq. apply Hps. now right.
    - apply observe_model_ok; [apply Hps; now left|exact Hacc]. }
  apply H; [|exact Hm1].
  intros p Hp. rewrite Forall_forall in Hplain. apply Hplain.
  now apply pairs_seconds.
Qed.

Lemma calculateWeights_ok (node : Rev000.Node) (force : bool) :
  node_ok node -> node_ok (Rev000.calculateWeights node force).
Proof.
  intros [Hok [Hsum Hclean]]. unfold Rev000.calculateWeights.
  destruct (isMappedNode node && negb force).
  - repeat split; assumption || apply Hok.
  - split; [exact Hok|]. split; [exact Hsum|reflexivity].
Qed.

Lemma finalize_model_ok (m : Rev000.AsyncMarkov) :
  model_ok m -> model_ok (Rev000.finalize m).
Proof.
  unfold model_ok, Rev000.finalize, finalize. simpl. intro H.
  rewrite Forall_map. eapply Forall_impl; [|exact H].
  intros e He. simpl. now apply calculateWeights_ok.
Qed.

Lemma selectWeighted_ok (node : Rev000.Node) (r : Q) :
  node_ok node -> node_ok (snd (Rev000.selectWeighted node r)).
Proof.
  intro H. rewrite (selectWeighted_compiled r H). simpl.
  destruct H as [Hok [Hsum _]].
  split; [exact Hok|]. split; [exact Hsum|reflexivity].
Qed.

Lemma model_ok_get (m : Rev000.AsyncMarkov) (w : Word) (node : Rev000.Node) :
  model_ok m -> map_get (nodes m) w = Some node -> node_ok node.
Proof.
  intros Hm Hget. apply (obj_get_Some_In String.eqb string_eqb_eq) in Hget.
  unfold model_ok in Hm. rewrite Forall_forall in Hm. exact (Hm _ Hget).
Qed.

(** Generation changes an Entry only by compiling it. *)
Lemma generateWord_model_ok (root : option Word) (w : World (option Sums)) :
  model_ok (model w) -> model_ok (model (snd (Rev000.generateWord root w))).
Proof.
  intro Hm. unfold Rev000.generateWord, generateWord.
  destruct (size (model w) =? 0); [exact Hm|].
  destruct (if negb (truthy root)
            then
              let '(r, g) := Math_random (random w) in
              (at_index (keys (model w))
                 (trunc_mul r (Z.of_nat (List.length (keys (model w))))), g)
            else (root, random w)) as [root1 g1].
  destruct root1 as [word|]; [|exact Hm].
  destruct (map_get (nodes (model w)) word) as [object|] eqn:Hget; [|exact Hm].
  destruct (Math_random g1) as [r g2].
  pose proof (selectWeighted_ok r (model_ok_get _ Hm Hget)) as Hnode.
  destruct (Rev000.selectWeighted object r) as [result object']. simpl in *.
  apply (map_set_Forall node_ok); [exact Hnode|exact Hm].
Qed.

Lemma generateWords_loop_model_ok (n : nat) (stop : bool) :
  forall (current : option Word) (output : list (option Word))
         (w : World (option Sums)),
    model_ok (model w) ->
    model_ok (model (snd (generateWords_loop Rev000.selectWeighted n stop
                            current output w))).
Proof.
  induction n as [|n IH]; intros current output w Hm; simpl; [exact Hm|].
  unfold bind.
  pose proof (generateWord_model_ok current w Hm) as H1.
  unfold Rev000.generateWord in H1.
  destruct (generateWord Rev000.selectWeighted current w) as [[c|e] w1];
    simpl in H1; [|exact H1].
  destruct (negb (truthy c)); [|now apply IH].
  destruct stop; [exact H1|].
  pose proof (generateWord_model_ok None w1 H1) as H2.
  unfold Rev000.generateWord in H2.
  destruct (generateWord Rev000.selectWeighted None w1) as [[c2|e2] w2];
    simpl in H2; [|exact H2].
  now apply IH.
Qed.

Lemma generateWords_model_ok (amount : number) (root : option Word)
      (stop : option bool) (w : World (option Sums)) :
  model_ok (model w) ->
  model_ok (model (snd (Rev000.generateWords amount root stop w))).
Proof.
  intro Hm. unfold Rev000.generateWords, generateWords.
  destruct (invalid_amount amount); [exact Hm|].
  unfold bind.
  match goal with
  | |- context [generateWords_loop _ ?n ?s ?c ?o w] =>
      pose proof (generateWords_loop_model_ok n s c o w Hm) as H;
      destruct (generateWords_loop Rev000.selectWeighted n s c o w)
        as [[out|e] w1]
  end; exact H.
Qed.

Lemma generateSentences_loop_model_ok (fuel : nat) :
  forall (amount : Z) (current : option Word) (output : list (option Word))
         (w : World (option Sums)),
    model_ok (model w) ->
    model_ok (model (snd (generateSentences_loop Rev000.selectWeighted fuel
                            amount current output w))).
Proof.
  induction fuel as [|fuel IH]; intros amount current output w Hm; simpl;
    destruct (amount >? 0); try exact Hm.
  unfold bind.
  pose proof (generateWord_model_ok current w Hm) as H1.
  unfold Rev000.generateWord in H1.
  destruct (generateWord Rev000.selectWeighted current w) as [[c|e] w1];
    simpl in H1; [|exact H1].
  now apply IH.
Qed.

Lemma generateSentences_model_ok (fuel : nat) (amount : number)
      (root : option Word) (w : World (option Sums)) :
  model_ok (model w) ->
  model_ok (model (snd (Rev000.generateSentences fuel amount root w))).
Proof.
  intro Hm. unfold Rev000.generateSentences, generateSentences.
  destruct (negb (hasSentences (model w))); [exact Hm|].
  destruct (invalid_amount amount); [exact Hm|].
  unfold bind.
  match goal with
  | |- context [generateSentences_loop _ ?f ?a ?c ?o w] =>
      pose proof (generateSentences_loop_model_ok f a c o w Hm) as H;
      destruct (generateSentences_loop Rev000.selectWeighted f a c o w)
        as [[out|e] w1]
  end; exact H.
Qed.

Lemma load_toJSON_model_ok (m target : Rev000.AsyncMarkov) :
  model_ok m -> model_ok (Rev000.load (fst (Rev000.toJSON m)) target).
Proof.
  intro Hm. unfold model_ok, Rev000.load, load. simpl nodes.
  apply (map_of_entries_Forall node_ok).
  exact (finalize_model_ok Hm).
Qed.

(** Every model built by the methods of revision 000 satisfies the
    invariant: counts positive, [total] their sum, and a clean Entry carries
    the distribution of its current [related]. *)
Lemma reachable_model_ok (m : Rev000.AsyncMarkov) : reachable m -> model_ok m.
Proof.
  induction 1.
  - constructor.
  - now apply add_model_ok.
  - now apply finalize_model_ok.
  - constructor.
  - now apply load_toJSON_model_ok.
  - now apply (generateWord_model_ok root (mkWorld m g)).
  - now apply (generateWords_model_ok amount root stop (mkWorld m g)).
  - now apply (generateSentences_model_ok fuel amount root (mkWorld m g)).
Qed.

(** X26. On every reachable model of revision 000, a draw from an Entry with a
    positive total returns one of its successors. *)
Lemma reachable_draw (m : Rev000.AsyncMarkov) (w : Word) (node : Rev000.Node)
      (r : Q) :
  reachable m -> map_get (nodes m) w = Some node -> unit_interval r ->
  0 < total node ->
  exists w', fst (Rev000.selectWeighted node r) = Return (Some w')
             /\ In w' (obj_keys (related node)).
Proof.
  intros Hreach Hget Hr Htotal.
  pose proof (model_ok_get _ (reachable_model_ok Hreach) Hget) as Hnode.
  rewrite (selectWeighted_compiled r Hnode). simpl.
  destruct Hnode as [Hok [Hsum _]].
  destruct (first_pick_compiled (roll := trunc_mul r (total node)) Hok Hsum)
    as [w' [Hw' Hin]]; [now apply trunc_mul_range|].
  exists w'. simpl in Hw'. now rewrite Hw'.
Qed.

(** ** Remarks on the order of keys and on inherited names *)

(** [Object.keys(related)] is the order in which the successors were first
    observed, except that integer-like words come first, in ascending order:
    after "7" has been followed by "10", "2" and "x", in this order, its
    successors are listed as "2", "10", "x". *)
Lemma related_keys_of_numeric_words :
  option_map (fun node : Rev000.Node => obj_keys (related node))
             (map_get (nodes (Rev000.add "7 10 7 2 7 x" Rev000.empty)) "7")
  = Some ["2"; "10"; "x"].
Proof. reflexivity. Qed.

(** The hypothesis [plain_word] of the invariant is needed: after
    "a constructor" the Entry of "a" has [total = 1] and the count [NaN] for
    "constructor", and no roll draws a word from it. *)
Lemma inherited_word_breaks_counts (r : Q) :
  let node : Rev000.Node := mkNode false [("constructor", NaN)] None 1 in
  map_get (nodes (Rev000.add "a constructor" Rev000.empty)) "a" = Some node
  /\ fst (Rev000.selectWeighted node r) = Return None.
Proof. split; reflexivity. Qed.

(** * Further properties of the code *)

(** ** The tokenizer *)

Lemma replace_whitespace_normalized (in_run : bool) (s : string) :
  normalized (replace_whitespace in_run s) = true.
Proof.
  revert in_run. induction s as [|c rest IH]; intro in_run; simpl;
    [reflexivity|].
  destruct (is_space c) eqn:E.
  - destruct in_run; [apply IH|]. simpl. now rewrite IH.
  - simpl. rewrite E. simpl. apply IH.
Qed.

Lemma split_space_no_space (s : string) :
  normalized s = true ->
  Forall (fun t => has_space t = false) (split_space s).
Proof.
  induction s as [|c rest IH]; simpl; intro H.
  - now repeat constructor.
  - apply andb_true_iff in H. destruct H as [Hc Hrest].
    specialize (IH Hrest).
    destruct (c =? " ")%char eqn:E.
    + constructor; [reflexivity|exact IH].
    + rewrite orb_false_r in Hc. apply negb_true_iff in Hc.
      destruct (split_space rest) as [|h t].
      * constructor; [simpl; now rewrite Hc|constructor].
      * inversion IH. subst. constructor; [simpl|assumption].
        rewrite Hc. assumption.
Qed.

(** X1. The tokens that [add] of the TypeScript revisions works on are
    never empty and hold no whitespace; the tokens of [add] of index.js
    (no trim, no filter) hold no whitespace either, but can be empty. *)
Theorem tokens_are_words (str : string) :
  Forall (fun t => t <> "" /\ has_space t = false) (tokens str)
  /\ Forall (fun t => has_space t = false)
            (split_space (replace_whitespace false str)).
Proof.
  split.
  - unfold tokens, filter_Boolean. apply Forall_forall. intros t Ht.
    apply filter_In in Ht. destruct Ht as [Hin Hne]. split.
    + intro E. subst. discriminate.
    + pose proof (split_space_no_space _
                    (replace_whitespace_normalized false (trim str))) as H.
      rewrite Forall_forall in H. now apply H.
  - apply split_space_no_space. apply replace_whitespace_normalized.
Qed.

(** ** Counters of [add] *)

Lemma pairs_count (data : list Word) :
  List.length (pairs data) = pred (List.length data).
Proof.
  induction data as [|a rest IH]; [reflexivity|].
  destruct rest as [|b rest']; [reflexivity|].
  change (pairs (a :: b :: rest')) with ((a, b) :: pairs (b :: rest')).
  change (List.length ((a, b) :: pairs (b :: rest')))
    with (Datatypes.S (List.length (pairs (b :: rest')))).
  rewrite IH. reflexivity.
Qed.

Lemma observe_hasSentences (S : Type) (initSums : S) (m : AsyncMarkov S)
      (first second : Word) :
  hasSentences (observe initSums first second m) = hasSentences m.
Proof.
  unfold observe.
  destruct (observe_node_found initSums m first) as [node Hnode].
  now rewrite Hnode.
Qed.

Lemma fold_observe_counters (S : Type) (initSums : S)
      (ps : list (Word * Word)) (m : AsyncMarkov S) :
  let m' := fold_left (fun acc p => observe initSums (fst p) (snd p) acc) ps m in
  edges m' = edges m + Z.of_nat (List.length ps)
  /\ hasSentences m' = hasSentences m.
Proof.
  revert m. induction ps as [|p ps IH]; intro m; simpl.
  - split; [lia|reflexivity].
  - destruct (IH (observe initSums (fst p) (snd p) m)) as [He Hh].
    rewrite He, Hh, observe_edges, observe_hasSentences. split; [lia|reflexivity].
Qed.

(** X2. One call of [add] counts one edge per pair of consecutive tokens,
    none for a text of fewer than two tokens; and [hasSentences] is true
    afterwards exactly when it was true before or the raw text holds one of
    [?], [!], [.]: it is never cleared.  In both TypeScript revisions. *)
Theorem add_counters (S : Type) (initSums : S) (str : string)
        (m : AsyncMarkov S) :
  edges (add initSums str m)
  = edges m + Z.of_nat (pred (List.length (tokens str)))
  /\ hasSentences (add initSums str m)
     = hasSentences m || sentenceRegex_test str.
Proof.
  unfold add.
  set (m1 := if negb (hasSentences m)
             then mkModel (nodes m) (sentenceRegex_test str) (edges m)
             else m).
  assert (H1 : edges m1 = edges m
               /\ hasSentences m1 = hasSentences m || sentenceRegex_test str).
  { unfold m1. destruct (hasSentences m) eqn:Eh; simpl;
      split; reflexivity || exact Eh. }
  destruct H1 as [He Hh].
  destruct (Z.of_nat (List.length (tokens str)) <? 2) eqn:E.
  - apply Z.ltb_lt in E. split; [|exact Hh].
    rewrite He.
    assert (Hl : (List.length (tokens str) <= 1)%nat) by lia.
    destruct (tokens str) as [|a [|b l]]; simpl in Hl |- *; lia.
  - destruct (fold_observe_counters initSums (pairs (tokens str)) m1)
      as [He' Hh'].
    rewrite He', Hh', He, Hh, pairs_count. split; reflexivity.
Qed.

(** ** Entries are never removed by [add] *)

Lemma observe_keeps_entry (S : Type) (initSums : S) (m : AsyncMarkov S)
      (first second w : Word) :
  map_has (nodes m) w = true ->
  map_has (nodes (observe initSums first second m)) w = true.
Proof.
  unfold map_has. intro H.
  destruct (string_dec first w) as [->|Hne].
  - destruct (observe_touched initSums m w second) as [node [Hnode _]].
    now rewrite Hnode.
  - now rewrite observe_other.
Qed.

Lemma fold_observe_keeps_entry (S : Type) (initSums : S)
      (ps : list (Word * Word)) (m : AsyncMarkov S) (w : Word) :
  map_has (nodes m) w = true \/ In w (map fst ps) ->
  map_has (nodes (fold_left (fun acc p => observe initSums (fst p) (snd p) acc)
                            ps m)) w = true.
Proof.
  revert m. induction ps as [|[f s] rest IH]; intros m H; simpl.
  - destruct H as [H|[]]. exact H.
  - apply IH. destruct H as [H|[H|H]].
    + left. now apply observe_keeps_entry.
    + left. simpl in H. subst. unfold map_has.
      destruct (observe_touched initSums m w s) as [node [Hnode _]].
      now rewrite Hnode.
    + now right.
Qed.

(** X3. After [add], [has] answers true for every word that had an Entry
    before and for every token of the text that is followed by another
    token. *)
Theorem add_has (S : Type) (initSums : S) (str : string) (m : AsyncMarkov S)
        (w : Word) :
  has m w = true \/ In w (map fst (pairs (tokens str))) ->
  has (add initSums str m) w = true.
Proof.
  intro H. unfold has, add.
  set (m1 := if negb (hasSentences m)
             then mkModel (nodes m) (sentenceRegex_test str) (edges m)
             else m).
  assert (Hn : nodes m1 = nodes m) by (unfold m1; now destruct (hasSentences m)).
  destruct (Z.of_nat (List.length (tokens str)) <? 2) eqn:E.
  - rewrite Hn. destruct H as [H|H]; [exact H|].
    apply Z.ltb_lt in E.
    assert (Hl : (List.length (tokens str) <= 1)%nat) by lia.
    destruct (tokens str) as [|a [|b l]]; simpl in Hl, H; try contradiction.
    lia.
  - apply fold_observe_keeps_entry. rewrite Hn. exact H.
Qed.

Lemma add_has_witness :
  has (Rev000.add "a b c" Rev000.empty) "b" = true.
Proof.
  apply (add_has (None : option Sums) "a b c" Rev000.empty "b").
  right. simpl. auto.
Defined.

(** ** The edge counter is the sum of the totals *)

Lemma sum_totals_set_absent (S : Type) (l : jsmap (Node S)) k (v : Node S) :
  map_get l k = None ->
  fold_right (fun e acc => total (snd e) + acc) 0 (map_set k v l)
  = fold_right (fun e acc => total (snd e) + acc) 0 l + total v.
Proof.
  induction l as [|[k' v'] rest IH]; simpl; [lia|].
  destruct (String.eqb k' k); [discriminate|].
  intro H. simpl. rewrite IH by exact H. lia.
Qed.

Lemma sum_totals_set_present (S : Type) (l : jsmap (Node S)) k (v n : Node S) :
  map_get l k = Some n ->
  fold_right (fun e acc => total (snd e) + acc) 0 (map_set k v l)
  = fold_right (fun e acc => total (snd e) + acc) 0 l - total n + total v.
Proof.
  induction l as [|[k' v'] rest IH]; simpl; [discriminate|].
  destruct (String.eqb k' k).
  - intro H. inversion H. subst. simpl. lia.
  - intro H. simpl. rewrite IH by exact H. lia.
Qed.

Lemma observe_sum_totals (S : Type) (initSums : S) (m : AsyncMarkov S)
      (first second : Word) :
  sum_totals (observe initSums first second m) = sum_totals m + 1.
Proof.
  unfold sum_totals, observe, map_has.
  destruct (map_get (nodes m) first) as [node|] eqn:Hget; simpl.
  - rewrite Hget. simpl. erewrite sum_totals_set_present by exact Hget.
    simpl. lia.
  - rewrite map_get_set_same. simpl.
    erewrite sum_totals_set_present by apply map_get_set_same.
    rewrite sum_totals_set_absent by exact Hget. simpl. lia.
Qed.

Lemma add_sum_totals (S : Type) (initSums : S) (str : string)
      (m : AsyncMarkov S) :
  sum_totals (add initSums str m) - edges (add initSums str m)
  = sum_totals m - edges m.
Proof.
  unfold add.
  set (m1 := if negb (hasSentences m)
             then mkModel (nodes m) (sentenceRegex_test str) (edges m)
             else m).
  assert (H1 : sum_totals m1 - edges m1 = sum_totals m - edges m)
    by (unfold m1; now destruct (hasSentences m)).
  destruct (Z.of_nat (List.length (tokens str)) <? 2); [exact H1|].
  rewrite <- H1. generalize m1. clear.
  induction (pairs (tokens str)) as [|p ps IH]; intro m1; simpl; [reflexivity|].
  rewrite IH, observe_sum_totals, observe_edges. lia.
Qed.

Lemma sum_totals_counts_of (S : Type) (m : AsyncMarkov S) :
  sum_totals m = fold_right (fun c acc => snd (snd c) + acc) 0 (counts_of m).
Proof.
  unfold sum_totals, counts_of.
  induction (nodes m) as [|e l IH]; simpl; [reflexivity|]. now rewrite IH.
Qed.

Lemma same_counts_sum_totals (S : Type) (m m' : AsyncMarkov S) :
  same_counts m m' -> sum_totals m' - edges m' = sum_totals m - edges m.
Proof.
  intros [Hc [He _]]. rewrite !sum_totals_counts_of, Hc, He. reflexivity.
Qed.

(** ** Generation writes nothing but the compiled distributions *)

Lemma same_counts_refl (S : Type) (m : AsyncMarkov S) : same_counts m m.
Proof. repeat split. Qed.

Lemma same_counts_trans (S : Type) (m1 m2 m3 : AsyncMarkov S) :
  same_counts m1 m2 -> same_counts m2 m3 -> same_counts m1 m3.
Proof.
  intros [A1 [A2 A3]] [B1 [B2 B3]]. repeat split; congruence.
Qed.

Lemma counts_of_set (S : Type) (l : jsmap (Node S)) k (v n : Node S) :
  map_get l k = Some n -> related v = related n -> total v = total n ->
  map (fun e => (fst e, (related (snd e), total (snd e)))) (map_set k v l)
  = map (fun e => (fst e, (related (snd e), total (snd e)))) l.
Proof.
  intros Hget Hr Ht. revert Hget.
  induction l as [|[k' v'] rest IH]; simpl; [discriminate|].
  destruct (String.eqb k' k).
  - intro H. inversion H. subst. simpl. now rewrite Hr, Ht.
  - intro H. simpl. now rewrite IH.
Qed.

Lemma rev000_selectWeighted_counts (node : Rev000.Node) (r : Q) :
  related (snd (Rev000.selectWeighted node r)) = related node
  /\ total (snd (Rev000.selectWeighted node r)) = total node.
Proof.
  unfold Rev000.selectWeighted, Rev000.calculateWeights, isMappedNode.
  destruct (mapped node); simpl.
  - destruct (sums node); split; reflexivity.
  - split; reflexivity.
Qed.

Section GenerationKeepsCounts.
Variable S : Type.
Variable selectWeighted : Node S -> Q -> outcome (option Word) * Node S.
Hypothesis selectWeighted_counts :
  forall node r,
    related (snd (selectWeighted node r)) = related node
    /\ total (snd (selectWeighted node r)) = total node.

Lemma generateWord_same_counts (root : option Word) (w : World S) :
  same_counts (model w) (model (snd (generateWord selectWeighted root w))).
Proof.
  unfold generateWord.
  destruct (size (model w) =? 0); [apply same_counts_refl|].
  destruct (if negb (truthy root)
            then
              let '(r, g) := Math_random (random w) in
              (at_index (keys (model w))
                 (trunc_mul r (Z.of_nat (List.length (keys (model w))))), g)
            else (root, random w)) as [root1 g1].
  destruct root1 as [word|]; [|apply same_counts_refl].
  destruct (map_get (nodes (model w)) word) as [object|] eqn:Hget;
    [|apply same_counts_refl].
  destruct (Math_random g1) as [r g2].
  destruct (selectWeighted_counts object r) as [Hr Ht].
  destruct (selectWeighted object r) as [result object']. simpl in *.
  repeat split. unfold counts_of. simpl.
  now apply counts_of_set with (n := object).
Qed.

Lemma generateWords_loop_same_counts (n : nat) (stop : bool) :
  forall (current : option Word) (output : list (option Word)) (w : World S),
    same_counts (model w)
      (model (snd (generateWords_loop selectWeighted n stop current output w))).
Proof.
  induction n as [|n IH]; intros current output w; simpl;
    [apply same_counts_refl|].
  unfold bind.
  pose proof (generateWord_same_counts current w) as H1.
  destruct (generateWord selectWeighted current w) as [[c|e] w1];
    simpl in H1; [|exact H1].
  destruct (negb (truthy c));
    [|exact (same_counts_trans H1 (IH c (output ++ [c]) w1))].
  destruct stop; [exact H1|].
  pose proof (generateWord_same_counts None w1) as H2.
  destruct (generateWord selectWeighted None w1) as [[c2|e2] w2];
    simpl in H2; [|exact (same_counts_trans H1 H2)].
  exact (same_counts_trans H1
           (same_counts_trans H2 (IH c2 (output ++ [c2]) w2))).
Qed.

Lemma generateSentences_loop_same_counts (fuel : nat) :
  forall (amount : Z) (current : option Word) (output : list (option Word))
         (w : World S),
    same_counts (model w)
      (model (snd (generateSentences_loop selectWeighted fuel amount current
                     output w))).
Proof.
  induction fuel as [|fuel IH]; intros amount current output w; simpl;
    destruct (amount >? 0); try apply same_counts_refl.
  unfold bind.
  pose proof (generateWord_same_counts current w) as H1.
  destruct (generateWord selectWeighted current w) as [[c|e] w1];
    simpl in H1; [|exact H1].
  exact (same_counts_trans H1 (IH _ c (output ++ [c]) w1)).
Qed.

Lemma generateWords_same_counts (amount : number) (root : option Word)
      (stop : option bool) (w : World S) :
  same_counts (model w)
    (model (snd (generateWords selectWeighted amount root stop w))).
Proof.
  unfold generateWords.
  destruct (invalid_amount amount); [apply same_counts_refl|].
  unfold bind.
  match goal with
  | |- context [generateWords_loop _ ?n ?s ?c ?o w] =>
      pose proof (generateWords_loop_same_counts n s c o w) as H;
      destruct (generateWords_loop selectWeighted n s c o w) as [[out|e] w1]
  end; exact H.
Qed.

Lemma generateSentences_same_counts (fuel : nat) (amount : number)
      (root : option Word) (w : World S) :
  same_counts (model w)
    (model (snd (generateSentences selectWeighted fuel amount root w))).
Proof.
  unfold generateSentences.
  destruct (negb (hasSentences (model w))); [apply same_counts_refl|].
  destruct (invalid_amount amount); [apply same_counts_refl|].
  unfold bind.
  match goal with
  | |- context [generateSentences_loop _ ?f ?a ?c ?o w] =>
      pose proof (generateSentences_loop_same_counts f a c o w) as H;
      destruct (generateSentences_loop selectWeighted f a c o w)
        as [[out|e] w1]
  end; exact H.
Qed.
End GenerationKeepsCounts.

(** X4. Revision 000: [generateWord], [generateWords] and
    [generateSentences], whatever they return or raise, leave the keys of the
    model in their order, the [related] and the [total] of every Entry, the
    edge counter and [hasSentences] as they were: generation writes nothing
    but compiled distributions. *)
Theorem generation_keeps_counts
  (fuel : nat) (amount : number) (root : option Word) (stop : option bool)
  (w : World (option Sums)) :
  same_counts (model w) (model (snd (Rev000.generateWord root w)))
  /\ same_counts (model w)
       (model (snd (Rev000.generateWords amount root stop w)))
  /\ same_counts (model w)
       (model (snd (Rev000.generateSentences fuel amount root w))).
Proof.
  split; [|split].
  - apply generateWord_same_counts. exact rev000_selectWeighted_counts.
  - apply generateWords_same_counts. exact rev000_selectWeighted_counts.
  - apply generateSentences_same_counts. exact rev000_selectWeighted_counts.
Qed.

Lemma finalize_same_counts (m : Rev000.AsyncMarkov) :
  same_counts m (Rev000.finalize m).
Proof.
  repeat split. unfold counts_of, Rev000.finalize, finalize. simpl.
  rewrite map_map. apply map_ext. intros [k node]. simpl.
  unfold Rev000.calculateWeights.
  now destruct (isMappedNode node && negb false).
Qed.

(** X5. Revision 000: on every model grown from a new instance by [add],
    [finalize], [generateWords] and [generateSentences], the edge counter is
    the sum of [total] over the Entries. *)
Theorem grown_edges (m : Rev000.AsyncMarkov) :
  grown m -> edges m = sum_totals m.
Proof.
  intro H. enough (sum_totals m - edges m = 0) by lia.
  induction H.
  - reflexivity.
  - unfold Rev000.add. rewrite add_sum_totals. exact IHgrown.
  - rewrite (same_counts_sum_totals (finalize_same_counts m)). exact IHgrown.
  - unfold Rev000.generateWords.
    rewrite (same_counts_sum_totals
               (generateWords_same_counts Rev000.selectWeighted
                  rev000_selectWeighted_counts
                  amount root stop (mkWorld m g))).
    exact IHgrown.
  - unfold Rev000.generateSentences.
    rewrite (same_counts_sum_totals
               (generateSentences_same_counts Rev000.selectWeighted
                  rev000_selectWeighted_counts
                  fuel amount root (mkWorld m g))).
    exact IHgrown.
Qed.

Lemma grown_edges_witness :
  edges (Rev000.finalize (Rev000.add "a b a c" Rev000.empty))
  = sum_totals (Rev000.finalize (Rev000.add "a b a c" Rev000.empty)).
Proof.
  apply grown_edges. apply grown_finalize. apply grown_add. apply grown_empty.
Defined.

(** ** The output array of [generateWords] *)

Section OutputFacts.
Variable S : Type.
Variable selectWeighted : Node S -> Q -> outcome (option Word) * Node S.

End OutputFacts.



(** ** Generation on well-formed models returns *)

Lemma valid_amount_positive (amount : number) :
  invalid_amount amount = false -> (1 <= amount_to_nat amount)%nat.
Proof.
  destruct amount as [q| | |]; unfold invalid_amount; simpl;
    try discriminate.
  rewrite orb_false_r. intro H. apply orb_false_iff in H.
  destruct H as [H1 H2]. apply negb_false_iff in H2.
  apply Qeq_bool_iff in H2.
  destruct (Z.lt_ge_cases 0 (Qtrunc q)) as [Hlt|Hge]; [lia|].
  assert (Hle : (q <= 0)%Q) by (rewrite <- H2; unfold Qle; simpl; lia).
  apply Qle_bool_iff in Hle. congruence.
Qed.

Lemma generateWord_returns (root : option Word) (w : World (option Sums)) :
  model_ok (model w) -> nodes (model w) <> [] ->
  exists c w',
    Rev000.generateWord root w = (Return c, w')
    /\ model_ok (model w') /\ nodes (model w') <> [].
Proof.
  intros Hok Hne.
  pose proof (generateWord_model_ok root w Hok) as Hok'.
  assert (Hsize : size (model w) <> 0).
  { unfold size. destruct (nodes (model w)); [congruence|simpl; lia]. }
  destruct (Rev000.generateWord root w) as [res w'] eqn:Hgen.
  destruct (generateWord_nonempty Rev000.selectWeighted
              rev000_selectWeighted_throws root w Hsize Hgen) as [Hs _].
  assert (Hne' : nodes (model w') <> []).
  { intro E. unfold size in Hs. rewrite E in Hs. simpl in Hs.
    destruct (nodes (model w)); [congruence|simpl in Hs; lia]. }
  assert (Hret : exists c, res = Return c).
  { revert Hgen. unfold Rev000.generateWord, generateWord.
    apply Z.eqb_neq in Hsize. rewrite Hsize.
    destruct (if negb (truthy root)
              then
                let '(r, g) := Math_random (random w) in
                (at_index (keys (model w))
                   (trunc_mul r (Z.of_nat (List.length (keys (model w))))), g)
              else (root, random w)) as [root1 g1].
    destruct root1 as [word|]; [|intro H; inversion H; eauto].
    destruct (map_get (nodes (model w)) word) as [object|] eqn:Hget;
      [|intro H; inversion H; eauto].
    destruct (Math_random g1) as [r g2].
    rewrite (selectWeighted_compiled r (model_ok_get _ Hok Hget)).
    intro H. inversion H. eauto. }
  destruct Hret as [c ->]. exists c, w'. simpl in Hok'. auto.
Qed.

Lemma generateWords_loop_returns (n : nat) (stop : bool) :
  forall (current : option Word) (output : list (option Word))
         (w : World (option Sums)),
    model_ok (model w) -> nodes (model w) <> [] ->
    exists out w',
      generateWords_loop Rev000.selectWeighted n stop current output w
      = (Return out, w').
Proof.
  induction n as [|n IH]; intros current output w Hok Hne; simpl.
  - unfold ret. eauto.
  - unfold bind.
    destruct (generateWord_returns current w Hok Hne)
      as [c [w1 [H1 [Hok1 Hne1]]]].
    unfold Rev000.generateWord in H1. rewrite H1.
    destruct (negb (truthy c)); [|now apply IH].
    destruct stop; [unfold ret; eauto|].
    destruct (generateWord_returns None w1 Hok1 Hne1)
      as [c2 [w2 [H2 [Hok2 Hne2]]]].
    unfold Rev000.generateWord in H2. rewrite H2. now apply IH.
Qed.

(** X7. Revision 000: on a model with at least one Entry whose Entries
    are all well formed, [generateWords] with a positive finite integer
    returns a string: it raises neither [EmptyModel] nor a [TypeError],
    whatever [root] and [stop] are. *)
Theorem generateWords_returns
  (amount : number) (root : option Word) (stop : option bool)
  (w : World (option Sums)) :
  model_ok (model w) -> nodes (model w) <> [] ->
  invalid_amount amount = false ->
  exists result w', Rev000.generateWords amount root stop w = (Return result, w').
Proof.
  intros Hok Hne Hvalid. unfold Rev000.generateWords, generateWords.
  rewrite Hvalid. unfold bind.
  match goal with
  | |- context [generateWords_loop _ ?n ?s ?c ?o w] =>
      destruct (generateWords_loop_returns n s c o w Hok Hne)
        as [out [w1 Hloop]]
  end.
  rewrite Hloop. unfold ret. eauto.
Qed.

Lemma generateWords_returns_witness :
  exists result w',
    Rev000.generateWords (Finite 2) None None dead_end_world
    = (Return result, w').
Proof.
  apply generateWords_returns.
  - unfold dead_end_world. simpl model.
    apply (add_model_ok "a b" (m := Rev000.empty));
      [repeat constructor|constructor].
  - discriminate.
  - reflexivity.
Defined.

(** ** Compiling is a cache fill *)

(** X8. In revision 000, revision 001 and index.js, a draw taken after
    another draw is the draw on the node as it was before: the first call
    changes the node at most by compiling it, and the compiled node is
    sampled like the original one. *)
Theorem selectWeighted_after_draw (r1 r2 : Q) :
  (forall node : Rev000.Node,
      Rev000.selectWeighted (snd (Rev000.selectWeighted node r1)) r2
      = Rev000.selectWeighted node r2)
  /\ (forall node : Rev001.Node,
         Rev001.selectWeighted (snd (Rev001.selectWeighted node r1)) r2
         = Rev001.selectWeighted node r2)
  /\ (forall node : Legacy.Node,
         Legacy.selectWeighted (snd (Legacy.selectWeighted node r1)) r2
         = Legacy.selectWeighted node r2).
Proof.
  split; [|split]; intro node.
  - unfold Rev000.selectWeighted, Rev000.calculateWeights, isMappedNode.
    destruct node as [mp rel sm tot]. simpl.
    destruct mp; simpl; [|reflexivity].
    destruct sm; reflexivity.
  - unfold Rev001.selectWeighted, Rev001.calculateWeights, isMappedNode.
    destruct node as [mp rel sm tot]. simpl.
    destruct mp; reflexivity.
  - unfold Legacy.selectWeighted, Legacy.calculateWeights.
    destruct node as [tot rel mp]. simpl.
    destruct mp; reflexivity.
Qed.

Lemma map_set_same (V : Type) (l : jsmap V) k v :
  map_get l k = Some v -> map_set k v l = l.
Proof.
  induction l as [|[k' v'] rest IH]; simpl; [discriminate|].
  destruct (String.eqb k' k) eqn:E.
  - intro H. inversion H. reflexivity.
  - intro H. now rewrite IH.
Qed.

Lemma finalize_all_mapped (m : Rev000.AsyncMarkov) :
  Forall (fun e => mapped (snd e) = true) (nodes (Rev000.finalize m)).
Proof.
  unfold Rev000.finalize, finalize. simpl. rewrite Forall_map.
  apply Forall_forall. intros e _. apply rev000_calculateWeights_mapped.
Qed.

Lemma generateWord_read_only (root : option Word) (w : World (option Sums)) :
  Forall (fun e => mapped (snd e) = true) (nodes (model w)) ->
  model (snd (Rev000.generateWord root w)) = model w.
Proof.
  intro Hall. unfold Rev000.generateWord, generateWord.
  destruct (size (model w) =? 0); [reflexivity|].
  destruct (if negb (truthy root)
            then
              let '(r, g) := Math_random (random w) in
              (at_index (keys (model w))
                 (trunc_mul r (Z.of_nat (List.length (keys (model w))))), g)
            else (root, random w)) as [root1 g1].
  destruct root1 as [word|]; [|reflexivity].
  destruct (map_get (nodes (model w)) word) as [object|] eqn:Hget;
    [|reflexivity].
  destruct (Math_random g1) as [r g2].
  assert (Hm : mapped object = true).
  { apply (obj_get_Some_In String.eqb string_eqb_eq) in Hget.
    rewrite Forall_forall in Hall. exact (Hall _ Hget). }
  assert (Hsame : snd (Rev000.selectWeighted object r) = object).
  { unfold Rev000.selectWeighted, isMappedNode. rewrite Hm. simpl.
    now destruct (sums object). }
  destruct (Rev000.selectWeighted object r) as [result object'].
  simpl in *. subst object'. rewrite (map_set_same _ _ Hget).
  now destruct (model w).
Qed.

Lemma generateWords_loop_read_only (n : nat) (stop : bool) :
  forall (current : option Word) (output : list (option Word))
         (w : World (option Sums)),
    Forall (fun e => mapped (snd e) = true) (nodes (model w)) ->
    model (snd (generateWords_loop Rev000.selectWeighted n stop current
                  output w)) = model w.
Proof.
  induction n as [|n IH]; intros current output w Hall; simpl; [reflexivity|].
  unfold bind.
  pose proof (generateWord_read_only current w Hall) as H1.
  unfold Rev000.generateWord in H1.
  destruct (generateWord Rev000.selectWeighted current w) as [[c|e] w1];
    simpl in H1; [|exact H1].
  assert (Hall1 : Forall (fun e => mapped (snd e) = true) (nodes (model w1)))
    by (now rewrite H1).
  destruct (negb (truthy c)); [|rewrite IH; assumption].
  destruct stop; [exact H1|].
  pose proof (generateWord_read_only None w1 Hall1) as H2.
  unfold Rev000.generateWord in H2.
  destruct (generateWord Rev000.selectWeighted None w1) as [[c2|e2] w2];
    simpl in H2; [|simpl; congruence].
  rewrite IH; [congruence|now rewrite H2].
Qed.

(** X9. Revision 000: [finalize] is idempotent, and after [finalize]
    generation is read-only: [generateWords] returns the model it was given,
    whatever it answers. *)
Theorem finalize_then_generate
  (m : Rev000.AsyncMarkov) (g : Random) (amount : number)
  (root : option Word) (stop : option bool) :
  Rev000.finalize (Rev000.finalize m) = Rev000.finalize m
  /\ model (snd (Rev000.generateWords amount root stop
                   (mkWorld (Rev000.finalize m) g)))
     = Rev000.finalize m.
Proof.
  split.
  - unfold Rev000.finalize, finalize. simpl. f_equal.
    rewrite map_map. apply map_ext. intros [k node]. simpl. f_equal.
    unfold Rev000.calculateWeights at 1. unfold isMappedNode at 1.
    now rewrite (rev000_calculateWeights_mapped node).
  - unfold Rev000.generateWords, generateWords.
    destruct (invalid_amount amount); [reflexivity|].
    unfold bind.
    match goal with
    | |- context [generateWords_loop _ ?n ?s ?c ?o ?w0] =>
        pose proof (generateWords_loop_read_only n s c o w0
                      (finalize_all_mapped m)) as H;
        destruct (generateWords_loop Rev000.selectWeighted n s c o w0)
          as [[out|e] w1]
    end; exact H.
Qed.

(** ** Snapshots *)

Lemma rev000_load_toJSON_witness :
  let loaded := Rev000.load (fst (Rev000.toJSON scenario_model)) Rev000.empty in
  Rev000.size loaded = Rev000.size scenario_model
  /\ edges loaded = edges scenario_model
  /\ hasSentences loaded = hasSentences scenario_model
  /\ forall w, option_map related (map_get (nodes loaded) w)
               = option_map related (map_get (nodes scenario_model) w).
Proof.
  apply rev000_load_toJSON.
  repeat constructor; simpl; intuition discriminate.
Defined.

Lemma map_get_app (V : Type) (l1 l2 : jsmap V) (k : string) :
  map_get (l1 ++ l2) k
  = match map_get l1 k with
    | Some v => Some v
    | None => map_get l2 k
    end.
Proof. exact (obj_get_app String.eqb l1 l2 k). Qed.

Lemma fold_map_set_lookup (V : Type) (es : list (string * V)) :
  forall (acc : jsmap V) (k : string),
    map_get (fold_left (fun m e => map_set (fst e) (snd e) m) es acc) k
    = match map_get (rev es) k with
      | Some v => Some v
      | None => map_get acc k
      end.
Proof.
  induction es as [|[k0 v0] es IH]; intros acc k; simpl; [reflexivity|].
  rewrite IH, map_get_app.
  destruct (map_get (rev es) k); [reflexivity|]. simpl.
  destruct (String.eqb k0 k) eqn:E.
  - apply String.eqb_eq in E. subst. apply map_get_set_same.
  - apply String.eqb_neq in E. now apply map_get_set_other.
Qed.

(** X10. [load] builds the map with [new Map(data.words)]: for a key
    that occurs several times in the snapshot the last entry is the one
    looked up, and a key of the model before [load] that the snapshot does
    not hold is gone.  In both TypeScript revisions. *)
Theorem load_last_entry_wins (S : Type) (data : Representation S)
        (m : AsyncMarkov S) (k : Word) :
  map_get (nodes (load data m)) k = map_get (rev (rep_words data)) k.
Proof.
  unfold load. simpl. unfold map_of_entries.
  rewrite fold_map_set_lookup.
  match goal with
  | |- match ?x with Some _ => _ | None => _ end = _ => destruct x eqn:E
  end; simpl; symmetry; exact E.
Qed.

(** X11. [create]: the edge counter of the new instance is the
    snapshot's [edges] when that is a number, and otherwise the sum of
    [total] over the loaded Entries.  In both TypeScript revisions. *)
Theorem create_edges (S : Type) (data : Representation S) :
  edges (create data)
  = match rep_edges data with
    | Some e => e
    | None => sum_totals (create data)
    end.
Proof.
  unfold create. destruct (rep_edges data) as [e|] eqn:E.
  - unfold load. now rewrite E.
  - rewrite (load_reconstructs_edges data (empty S) E).
    unfold sum_totals, load, map_values. simpl.
    induction (map_of_entries (rep_words data)) as [|x l IH]; simpl;
      [reflexivity|].
    simpl in IH. rewrite <- IH. lia.
Qed.

(** ** An unknown starting word *)

Lemma generateWord_unknown (root : Word) (w : World (option Sums)) :
  root <> "" -> nodes (model w) <> [] ->
  map_get (nodes (model w)) root = None ->
  Rev000.generateWord (Some root) w = (Return None, w).
Proof.
  intros Hroot Hne Hget. unfold Rev000.generateWord, generateWord.
  replace (size (model w) =? 0) with false.
  - assert (Ht : truthy (Some root) = true).
    { simpl. apply negb_true_iff. now apply String.eqb_neq. }
    rewrite Ht. simpl. rewrite Hget. now destruct w.
  - symmetry. apply Z.eqb_neq. unfold size.
    destruct (nodes (model w)); [congruence|simpl; lia].
Qed.

(** X12. Revision 000: for a starting word that is not empty and has no
    Entry in a model that has some, [generateWord] answers [null] without
    drawing a random number or touching the model, and
    [generateWords(amount, root, {stop: true})] returns the starting word
    alone. *)
Theorem generateWords_unknown_root
  (amount : number) (root : Word) (w : World (option Sums)) :
  invalid_amount amount = false ->
  root <> "" -> nodes (model w) <> [] ->
  map_get (nodes (model w)) root = None ->
  Rev000.generateWord (Some root) w = (Return None, w)
  /\ Rev000.generateWords amount (Some root) (Some true) w = (Return root, w).
Proof.
  intros Hvalid Hroot Hne Hget.
  pose proof (generateWord_unknown w Hroot Hne Hget) as Hg.
  split; [exact Hg|].
  unfold Rev000.generateWords, generateWords. rewrite Hvalid.
  assert (Ht : truthy (Some root) = true).
  { simpl. apply negb_true_iff. now apply String.eqb_neq. }
  rewrite Ht. unfold bind.
  pose proof (valid_amount_positive amount Hvalid) as Hpos.
  destruct (amount_to_nat amount) as [|n]; [lia|].
  simpl generateWords_loop. unfold bind.
  unfold Rev000.generateWord in Hg. rewrite Hg. reflexivity.
Qed.

Lemma generateWords_unknown_root_witness :
  Rev000.generateWord (Some "zebra") dead_end_world
  = (Return None, dead_end_world)
  /\ Rev000.generateWords (Finite 3) (Some "zebra") (Some true) dead_end_world
     = (Return "zebra", dead_end_world).
Proof.
  apply generateWords_unknown_root;
    try reflexivity; discriminate.
Defined.

(** ** Witnesses of the contracts proved above *)

Lemma calculateWeights_rebuilds_witness :
  let s := thresholds (Int 0) sample_related in
  Rev000.calculateWeights sample_node false
  = mkNode true sample_related (Some s) 4
  /\ strictly_increasing (obj_keys s)
  /\ last (obj_keys s) (Int 0) = Int 4.
Proof.
  destruct (@calculateWeights_rebuilds sample_node false
              sample_related_ok eq_refl (or_introl eq_refl))
    as [H1 [H2 [H3 _]]].
  exact (conj H1 (conj H2 H3)).
Defined.

Lemma rev000_add_then_draw_witness :
  exists node,
    map_get (nodes (Rev000.add "a b" Rev000.empty)) "a" = Some node
    /\ mapped node = false
    /\ forall r,
         let s := snd (accumulate (related node) []) in
         fst (Rev000.selectWeighted node r)
         = Return (first_pick (trunc_mul r (total node)) s (obj_keys s)).
Proof.
  apply rev000_add_then_draw. simpl. auto.
Defined.

Lemma reachable_draw_witness :
  exists w', fst (Rev000.selectWeighted sample_node 0) = Return (Some w')
             /\ In w' (obj_keys (related sample_node)).
Proof.
  apply (@reachable_draw (Rev000.add "a x a y a y a y" Rev000.empty) "a").
  - apply reach_add; [apply reach_empty|repeat constructor].
  - reflexivity.
  - exact zero_unit_interval.
  - reflexivity.
Defined.

Lemma rev001_thresholds_remain_witness :
  In (Int 1)
     (obj_keys (sums (Rev001.calculateWeights
                        (mkNode false [("x", Int 4); ("y", Int 1)]
                                [(Int 1, "x"); (Int 2, "y")] 5) false))).
Proof.
  apply rev001_thresholds_remain. simpl. auto.
Defined.

(** ** src/index.js: finalize, generateWords and the tokens of add *)

Lemma legacy_words_get_replace_same (ws : Legacy.Words) k node v :
  Legacy.words_get ws k = Some node ->
  Legacy.words_get (obj_replace String.eqb k v ws) k = Some v.
Proof.
  intro H. unfold Legacy.words_get in *.
  apply (obj_get_replace_same String.eqb string_eqb_eq).
  apply (obj_get_Some_In String.eqb string_eqb_eq) in H.
  change k with (fst (k, node)). now apply in_map.
Qed.

Lemma legacy_words_get_replace_other (ws : Legacy.Words) k v k' :
  k <> k' ->
  Legacy.words_get (obj_replace String.eqb k v ws) k' = Legacy.words_get ws k'.
Proof.
  intro H. unfold Legacy.words_get.
  now apply (obj_get_replace_other String.eqb string_eqb_eq).
Qed.

Lemma legacy_finalize_fold (ks : list Word) (ws : Legacy.Words) :
  let ws' :=
    fold_left
      (fun acc key =>
         match Legacy.words_get acc key with
         | Some node =>
             obj_replace String.eqb key (Legacy.calculateWeights node) acc
         | None => acc
         end) ks ws in
  obj_keys ws' = obj_keys ws
  /\ (forall k, In k ks ->
                Legacy.words_get ws' k
                = option_map Legacy.calculateWeights (Legacy.words_get ws k))
  /\ (forall k, ~ In k ks -> Legacy.words_get ws' k = Legacy.words_get ws k).
Proof.
  revert ws. induction ks as [|k0 ks IH]; intro ws; simpl.
  - split; [reflexivity|]. split; [intros k []|reflexivity].
  - set (ws1 := match Legacy.words_get ws k0 with
                | Some node =>
                    obj_replace String.eqb k0 (Legacy.calculateWeights node) ws
                | None => ws
                end).
    assert (Hkeys : obj_keys ws1 = obj_keys ws).
    { unfold ws1. destruct (Legacy.words_get ws k0); [|reflexivity].
      apply obj_keys_replace. }
    assert (Hsame : Legacy.words_get ws1 k0
                    = option_map Legacy.calculateWeights
                                 (Legacy.words_get ws k0)).
    { unfold ws1. destruct (Legacy.words_get ws k0) as [node|] eqn:E.
      - simpl. now apply legacy_words_get_replace_same with (node := node).
      - now rewrite E. }
    assert (Hother : forall k, k <> k0 ->
                               Legacy.words_get ws1 k = Legacy.words_get ws k).
    { intros k Hk. unfold ws1. destruct (Legacy.words_get ws k0); [|reflexivity].
      apply legacy_words_get_replace_other. congruence. }
    destruct (IH ws1) as [IHk [IHin IHout]].
    split; [etransitivity; [exact IHk|exact Hkeys]|]. split.
    + intros k Hin. destruct (string_dec k k0) as [->|Hne].
      * destruct (in_dec string_dec k0 ks) as [Hi|Hi].
        -- etransitivity; [exact (IHin k0 Hi)|]. rewrite Hsame.
           now destruct (Legacy.words_get ws k0).
        -- etransitivity; [exact (IHout k0 Hi)|exact Hsame].
      * destruct Hin as [Hin|Hin]; [congruence|].
        etransitivity; [exact (IHin k Hin)|]. now rewrite (Hother k Hne).
    + intros k Hout.
      assert (Hne : k <> k0) by (intro; subst; apply Hout; now left).
      etransitivity; [apply IHout|now apply Hother].
      intro Hi. apply Hout. now right.
Qed.

(** X13 (src/index.js, finalize and selectWeighted): on an instance whose
    [#words] is an object, [finalize] returns, keeps the keys and replaces
    every Entry by its compilation, also an Entry that carried a stale
    distribution; a draw from a finalized Entry whose [total] is the sum of
    its positive counts then returns one of its successors for every roll. *)
Theorem legacy_finalize_compiles (m : Legacy.AsyncMarkov) (ws : Legacy.Words) :
  Legacy.words m = Some ws ->
  exists ws',
    Legacy.finalize m
    = (Return tt,
       Legacy.mkModel (Some ws') (Legacy.hasSentences m) (Legacy.inherits m))
    /\ obj_keys ws' = obj_keys ws
    /\ (forall k, Legacy.words_get ws' k
                  = option_map Legacy.calculateWeights (Legacy.words_get ws k))
    /\ (forall k node r,
           Legacy.words_get ws k = Some node ->
           related_ok (Legacy.related node) ->
           sum_counts (Legacy.related node) = Int (Legacy.total node) ->
           0 <= trunc_mul r (Legacy.total node) < Legacy.total node ->
           exists node' w,
             Legacy.words_get ws' k = Some node'
             /\ fst (Legacy.selectWeighted node' r) = Some w
             /\ In w (obj_keys (Legacy.related node))).
Proof.
  intro Hws. unfold Legacy.finalize. rewrite Hws.
  destruct (legacy_finalize_fold (rev (obj_keys ws)) ws) as [Hk [Hin _]].
  eexists. split; [reflexivity|]. split; [exact Hk|].
  assert (Hall : forall k,
             Legacy.words_get
               (fold_left
                  (fun acc key =>
                     match Legacy.words_get acc key with
                     | Some node =>
                         obj_replace String.eqb key
                                     (Legacy.calculateWeights node) acc
                     | None => acc
                     end) (rev (obj_keys ws)) ws) k
             = option_map Legacy.calculateWeights (Legacy.words_get ws k)).
  { intro k. destruct (Legacy.words_get ws k) as [node|] eqn:E.
    - rewrite Hin; [now rewrite E|].
      apply in_rev. rewrite rev_involutive.
      apply (obj_get_Some_In String.eqb string_eqb_eq) in E.
      change k with (fst (k, node)). now apply in_map.
    - simpl. destruct (in_dec string_dec k (rev (obj_keys ws))) as [Hi|Hi].
      + rewrite Hin by exact Hi. now rewrite E.
      + destruct (legacy_finalize_fold (rev (obj_keys ws)) ws) as [_ [_ Hout]].
        rewrite Hout by exact Hi. exact E. }
  split; [exact Hall|].
  intros k node r Hget Hrel Hsum Hroll.
  exists (Legacy.calculateWeights node).
  destruct (first_pick_compiled Hrel Hsum Hroll) as [w [Hw Hin']].
  exists w. split; [rewrite Hall, Hget; reflexivity|].
  split; [|exact Hin'].
  unfold Legacy.selectWeighted. simpl. exact Hw.
Qed.

Lemma legacy_finalize_compiles_witness :
  exists ws',
    Legacy.finalize legacy_second_add
    = (Return tt,
       Legacy.mkModel (Some ws') (Legacy.hasSentences legacy_second_add)
                      (Legacy.inherits legacy_second_add))
    /\ obj_keys ws' = obj_keys legacy_stale_words
    /\ (forall k, Legacy.words_get ws' k
                  = option_map Legacy.calculateWeights
                               (Legacy.words_get legacy_stale_words k))
    /\ (forall k node r,
           Legacy.words_get legacy_stale_words k = Some node ->
           related_ok (Legacy.related node) ->
           sum_counts (Legacy.related node) = Int (Legacy.total node) ->
           0 <= trunc_mul r (Legacy.total node) < Legacy.total node ->
           exists node' w,
             Legacy.words_get ws' k = Some node'
             /\ fst (Legacy.selectWeighted node' r) = Some w
             /\ In w (obj_keys (Legacy.related node))).
Proof.
  apply (@legacy_finalize_compiles legacy_second_add legacy_stale_words).
  reflexivity.
Defined.

Lemma legacy_not_inherited (m : Legacy.AsyncMarkov) (ws : Legacy.Words)
      (k : Word) :
  Legacy.inherits m = false -> Legacy.words_inherited m ws k = false.
Proof. intro H. unfold Legacy.words_inherited. now rewrite H. Qed.

Lemma legacy_generateWord_returns (root : option Word) (m : Legacy.AsyncMarkov)
      (g : Random) (ws : Legacy.Words) :
  Legacy.words m = Some ws -> ws <> [] -> Legacy.inherits m = false ->
  exists result ws' g',
    Legacy.generateWord root (m, g)
    = (Return result,
       (Legacy.mkModel (Some ws') (Legacy.hasSentences m) false, g'))
    /\ ws' <> [].
Proof.
  intros Hws Hne Hinh. unfold Legacy.generateWord. rewrite Hws.
  destruct m as [wso hs inh]. simpl in Hws, Hinh. subst wso inh.
  simpl Legacy.hasSentences. simpl Legacy.inherits.
  assert (Hlen : (Z.of_nat (List.length (obj_keys ws)) =? 0) = false).
  { destruct ws; [congruence|]. simpl List.length. apply Z.eqb_neq. lia. }
  rewrite Hlen.
  assert (Hkeep : forall word object', obj_replace String.eqb word object' ws <> []).
  { intros word object'. destruct ws as [|[k v] rest]; [congruence|].
    simpl. destruct (String.eqb k word); discriminate. }
  destruct (negb (truthy root)).
  - unfold Math_random at 1.
    destruct (at_index (obj_keys ws) _) as [word|]; [|eauto 6].
    rewrite legacy_not_inherited by reflexivity.
    destruct (Legacy.words_get ws word) as [object|]; [|eauto 6].
    unfold Math_random.
    destruct (Legacy.selectWeighted object _) as [result object'].
    eauto 6.
  - destruct root as [word|]; [|eauto 6].
    rewrite legacy_not_inherited by reflexivity.
    destruct (Legacy.words_get ws word) as [object|]; [|eauto 6].
    unfold Math_random.
    destruct (Legacy.selectWeighted object _) as [result object'].
    eauto 6.
Qed.

Lemma legacy_generateWords_loop_returns (n : nat) :
  forall (current : option Word) (output : list (option Word))
         (m : Legacy.AsyncMarkov) (g : Random) (ws : Legacy.Words),
    Legacy.words m = Some ws -> ws <> [] -> Legacy.inherits m = false ->
    exists pushed w',
      Legacy.generateWords_loop n current output (m, g)
      = (Return (output ++ pushed), w')
      /\ List.length pushed = n
      /\ legacy_walk current (m, g) pushed w'.
Proof.
  induction n as [|n IH]; intros current output m g ws Hws Hne Hinh.
  - exists [], (m, g). split; [|split; [reflexivity|constructor]].
    simpl. unfold ret. now rewrite app_nil_r.
  - simpl. unfold bind at 1.
    destruct (@legacy_generateWord_returns current m g ws Hws Hne Hinh)
      as [c1 [ws1 [g1 [E1 Hne1]]]].
    rewrite E1.
    destruct (truthy c1) eqn:Ec1; cbn [negb].
    + destruct (IH c1 (output ++ [c1])
                   (Legacy.mkModel (Some ws1) (Legacy.hasSentences m) false)
                   g1 ws1 eq_refl Hne1 eq_refl)
        as [pushed [w' [E [Hlen Hwalk]]]].
      exists (c1 :: pushed), w'. split; [|split].
      * rewrite E. now rewrite <- app_assoc.
      * simpl. now rewrite Hlen.
      * eapply walk_step; eassumption.
    + unfold bind at 1.
      destruct (@legacy_generateWord_returns None
                  (Legacy.mkModel (Some ws1) (Legacy.hasSentences m) false)
                  g1 ws1 eq_refl Hne1 eq_refl)
        as [c2 [ws2 [g2 [E2 Hne2]]]].
      rewrite E2.
      destruct (IH c2 (output ++ [c2])
                   (Legacy.mkModel (Some ws2) (Legacy.hasSentences m) false)
                   g2 ws2 eq_refl Hne2 eq_refl)
        as [pushed [w' [E [Hlen Hwalk]]]].
      exists (c2 :: pushed), w'. split; [|split].
      * simpl Legacy.hasSentences in *. rewrite E. now rewrite <- app_assoc.
      * simpl. now rewrite Hlen.
      * eapply walk_reseed; eassumption.
Qed.

(** X14 (src/index.js, generateWords and generateWord): on an instance that
    was not made by [load] (its [#words] has no prototype) and has at least
    one Entry, and for a valid amount, [generateWords] returns; its text is
    the join of the root, when one is given, followed by exactly [amount]
    elements, each of them the answer of [generateWord] for the element
    before it, or its answer for [null] when that answer was falsy: a dead
    end is never left out but re-seeded. *)
Theorem legacy_generateWords_returns
        (amount : number) (root : option Word) (m : Legacy.AsyncMarkov)
        (g : Random) (ws : Legacy.Words) :
  Legacy.words m = Some ws -> ws <> [] -> Legacy.inherits m = false ->
  invalid_amount amount = false ->
  exists pushed w',
    Legacy.generateWords amount root (m, g)
    = (Return (join ((if truthy root then [root] else []) ++ pushed)), w')
    /\ List.length pushed = amount_to_nat amount
    /\ legacy_walk root (m, g) pushed w'.
Proof.
  intros Hws Hne Hinh Hvalid. unfold Legacy.generateWords. rewrite Hvalid.
  unfold bind.
  destruct (@legacy_generateWords_loop_returns (amount_to_nat amount) root
              (if truthy root then [root] else []) m g ws Hws Hne Hinh)
    as [pushed [w' [E [Hlen Hwalk]]]].
  rewrite E. exists pushed, w'.
  split; [reflexivity|]. split; [exact Hlen|exact Hwalk].
Qed.

Lemma legacy_generateWords_returns_witness :
  exists pushed w',
    Legacy.generateWords (Finite 3) (Some "a")
                         (legacy_second_add, constant_source 0)
    = (Return (join ((if truthy (Some "a") then [Some "a"] else []) ++ pushed)),
       w')
    /\ List.length pushed = amount_to_nat (Finite 3)
    /\ legacy_walk (Some "a") (legacy_second_add, constant_source 0) pushed w'.
Proof.
  apply (@legacy_generateWords_returns (Finite 3) (Some "a") legacy_second_add
           (constant_source 0) legacy_stale_words).
  - reflexivity.
  - discriminate.
  - reflexivity.
  - reflexivity.
Defined.

Lemma legacy_words_get_set_same (ws : Legacy.Words) k v :
  Legacy.words_get (Legacy.words_set k v ws) k = Some v.
Proof.
  apply (obj_get_set_same String.eqb string_array_index string_eqb_eq).
Qed.

Lemma legacy_words_set_keeps (ws : Legacy.Words) k v k' :
  Legacy.words_get ws k' <> None ->
  Legacy.words_get (Legacy.words_set k v ws) k' <> None.
Proof.
  intro H. destruct (string_dec k k') as [->|Hne].
  - now rewrite legacy_words_get_set_same.
  - unfold Legacy.words_get, Legacy.words_set in *.
    now rewrite (obj_get_set_other String.eqb string_array_index string_eqb_eq).
Qed.

Lemma legacy_observe_returns (ws : Legacy.Words) (hs : bool)
      (first second : Word) :
  exists ws',
    Legacy.observe first second (Legacy.mkModel (Some ws) hs false)
    = (Return tt, Legacy.mkModel (Some ws') hs false)
    /\ Legacy.words_get ws' first <> None
    /\ (forall k, Legacy.words_get ws k <> None ->
                  Legacy.words_get ws' k <> None).
Proof.
  unfold Legacy.observe, Legacy.words_inherited. simpl.
  destruct (Legacy.words_get ws first) as [node|] eqn:E.
  - rewrite E. eexists. split; [reflexivity|]. split.
    + now rewrite legacy_words_get_set_same.
    + intros k Hk. now apply legacy_words_set_keeps.
  - rewrite legacy_words_get_set_same.
    eexists. split; [reflexivity|]. split.
    + now rewrite legacy_words_get_set_same.
    + intros k Hk. now do 2 apply legacy_words_set_keeps.
Qed.

Lemma legacy_add_loop_returns (ps : list (Word * Word)) :
  forall (ws : Legacy.Words) (hs : bool),
  exists ws',
    Legacy.add_loop ps (Legacy.mkModel (Some ws) hs false)
    = (Return tt, Legacy.mkModel (Some ws') hs false)
    /\ (forall k, Legacy.words_get ws k <> None ->
                  Legacy.words_get ws' k <> None)
    /\ (forall p, In p ps -> Legacy.words_get ws' (fst p) <> None).
Proof.
  induction ps as [|[first second] ps IH]; intros ws hs.
  - exists ws. split; [reflexivity|]. split; [auto|intros p []].
  - simpl. unfold bind.
    destruct (legacy_observe_returns ws hs first second)
      as [ws1 [E1 [Hfirst Hkeep1]]].
    rewrite E1.
    destruct (IH ws1 hs) as [ws' [E [Hkeep Hin]]].
    exists ws'. split; [exact E|]. split.
    + intros k Hk. apply Hkeep. now apply Hkeep1.
    + intros p [<-|Hp]; [now apply Hkeep|now apply Hin].
Qed.

Lemma split_space_nonempty (s : string) : split_space s <> [].
Proof.
  induction s as [|c s IH]; simpl; [discriminate|].
  destruct (c =? " ")%char; [discriminate|].
  destruct (split_space s); discriminate.
Qed.

(** X15 (src/index.js, add): on an instance that was not made by [load]
    (its [#words] is an object without prototype), [add] returns and every
    Entry stays; each token but the last has an Entry afterwards; and as the
    text is neither trimmed nor filtered, a text that starts with a
    whitespace character gives the empty string an Entry. *)
Theorem legacy_add_records (str : string) (m : Legacy.AsyncMarkov)
        (ws : Legacy.Words) :
  Legacy.words m = Some ws -> Legacy.inherits m = false ->
  exists ws',
    Legacy.add str m
    = (Return tt,
       Legacy.mkModel (Some ws')
                      (Legacy.hasSentences m || sentenceRegex_test str)
                      false)
    /\ (forall k, Legacy.words_get ws k <> None ->
                  Legacy.words_get ws' k <> None)
    /\ (forall w,
           In w (map fst (pairs (split_space (replace_whitespace false str)))) ->
           Legacy.words_get ws' w <> None)
    /\ (forall c rest, str = String c rest -> is_space c = true ->
                       Legacy.words_get ws' "" <> None).
Proof.
  intros Hws Hinh. destruct m as [wso hs inh]. simpl in Hws, Hinh.
  subst wso inh.
  assert (Hm1 : (if negb hs
                 then Legacy.mkModel (Some ws) (sentenceRegex_test str) false
                 else Legacy.mkModel (Some ws) hs false)
                = Legacy.mkModel (Some ws) (hs || sentenceRegex_test str)
                                 false).
  { now destruct hs. }
  assert (Hmain : exists ws',
             Legacy.add str (Legacy.mkModel (Some ws) hs false)
             = (Return tt,
                Legacy.mkModel (Some ws') (hs || sentenceRegex_test str) false)
             /\ (forall k, Legacy.words_get ws k <> None ->
                           Legacy.words_get ws' k <> None)
             /\ (forall w,
                    In w (map fst (pairs (split_space
                                            (replace_whitespace false str)))) ->
                    Legacy.words_get ws' w <> None)).
  { unfold Legacy.add. simpl Legacy.hasSentences. simpl Legacy.words.
    simpl Legacy.inherits. rewrite Hm1.
    destruct (Z.of_nat (List.length (split_space (replace_whitespace false str)))
              <? 2) eqn:El.
    - exists ws. split; [reflexivity|]. split; [auto|].
      intros w Hw. exfalso.
      apply Z.ltb_lt in El.
      destruct (split_space (replace_whitespace false str)) as [|a [|b l]];
        simpl in Hw; try contradiction.
      simpl List.length in El. lia.
    - destruct (legacy_add_loop_returns
                  (pairs (split_space (replace_whitespace false str)))
                  ws (hs || sentenceRegex_test str))
        as [ws' [E [Hkeep Hin]]].
      exists ws'. split; [exact E|]. split; [exact Hkeep|].
      intros w Hw. apply in_map_iff in Hw. destruct Hw as [p [<- Hp]].
      now apply Hin. }
  destruct Hmain as [ws' [E [Hkeep Hin]]].
  exists ws'. simpl Legacy.hasSentences.
  split; [exact E|]. split; [exact Hkeep|]. split; [exact Hin|].
  intros c rest -> Hc. apply Hin.
  simpl replace_whitespace. rewrite Hc.
  simpl split_space.
  pose proof (split_space_nonempty (replace_whitespace true rest)) as Hne.
  destruct (split_space (replace_whitespace true rest)) as [|t l];
    [congruence|].
  simpl. now left.
Qed.

Lemma legacy_add_records_witness :
  exists ws',
    Legacy.add " a" Legacy.empty
    = (Return tt,
       Legacy.mkModel (Some ws')
                      (Legacy.hasSentences Legacy.empty
                       || sentenceRegex_test " a")
                      false)
    /\ (forall k, Legacy.words_get [] k <> None ->
                  Legacy.words_get ws' k <> None)
    /\ (forall w,
           In w (map fst (pairs (split_space (replace_whitespace false " a")))) ->
           Legacy.words_get ws' w <> None)
    /\ (forall c rest, " a" = String c rest -> is_space c = true ->
                       Legacy.words_get ws' "" <> None).
Proof.
  apply (@legacy_add_records " a" Legacy.empty []); reflexivity.
Defined.

(** ** src/unnamed/part_002 and part_003: export and import *)

(** X16 (part_003 toJSON and load; part_002 save and load): the export
    writes the Entries under [data] and the import reads [words].  In
    part_003 the instance loaded from its own export is empty, whatever the
    exported model held; in part_002 it has no [#words] object at all, so
    [size] raises a TypeError and so does [word] once the instance is
    prepared.  Only [hasSentences] survives. *)
Theorem export_import_mismatch
        (m3 target3 : Rev003.AsyncMarkov) (m2 target2 : Rev002.AsyncMarkov)
        (root : option Word) (g : Random) :
  Rev003.size (Rev003.load (Rev003.toJSON m3) target3) = 0
  /\ Rev003.hasSentences (Rev003.load (Rev003.toJSON m3) target3)
     = Rev003.hasSentences m3
  /\ Rev002.size (Rev002.load (Rev002.save m2) target2) = Throw TypeError
  /\ Rev002.hasSentences (Rev002.load (Rev002.save m2) target2)
     = Rev002.hasSentences m2
  /\ fst (Rev002.word root (Rev002.load (Rev002.save m2) target2, g))
     = Throw (if Rev002.prepared target2 then TypeError else EmptyModel).
Proof.
  repeat split.
  unfold Rev002.word, Rev002.load, Rev002.save. simpl.
  now destruct (Rev002.prepared target2).
Qed.

(** ** src/unnamed/part_002: process *)

Lemma rev002_addWords_flags (first : Word) (second : option Word)
      (m : Rev002.AsyncMarkov) :
  Rev002.busy (snd (Rev002._addWords first second m)) = Rev002.busy m
  /\ Rev002.prepared (snd (Rev002._addWords first second m))
     = Rev002.prepared m
  /\ Rev002.hasSentences (snd (Rev002._addWords first second m))
     = Rev002.hasSentences m.
Proof.
  unfold Rev002._addWords.
  destruct (Rev002.words m) as [ws|]; [|now repeat split].
  destruct (Rev002.words_inherited m ws first); [now repeat split|].
  match goal with
  | |- context [match ?x with Some _ => _ | None => _ end] => destruct x
  end; now repeat split.
Qed.

Lemma rev002_addWords_loop_flags (ps : list (Word * option Word)) :
  forall m,
    Rev002.busy (snd (Rev002.addWords_loop ps m)) = Rev002.busy m
    /\ Rev002.prepared (snd (Rev002.addWords_loop ps m)) = Rev002.prepared m.
Proof.
  induction ps as [|[first second] ps IH]; intro m; [now split|].
  simpl. unfold bind.
  destruct (rev002_addWords_flags first second m) as [Hb [Hp _]].
  destruct (Rev002._addWords first second m) as [[[]|e] m1]; simpl in *.
  - destruct (IH m1) as [Hb1 Hp1]. split; congruence.
  - now split.
Qed.

Lemma rev002_processBuffer_loop_flags (buffer : list Z) :
  forall first second m,
    Rev002.busy (snd (Rev002.processBuffer_loop buffer first second m))
    = Rev002.busy m
    /\ Rev002.prepared (snd (Rev002.processBuffer_loop buffer first second m))
       = Rev002.prepared m.
Proof.
  induction buffer as [|char rest IH]; intros first second m; [now split|].
  simpl.
  set (m1 := if negb (Rev002.hasSentences m)
                && ((char =? 33) || (char =? 46) || (char =? 63))
             then Rev002.mkModel (Rev002.words m) true (Rev002.busy m)
                                 (Rev002.prepared m) (Rev002.inherits m)
             else m).
  assert (H1 : Rev002.busy m1 = Rev002.busy m
               /\ Rev002.prepared m1 = Rev002.prepared m).
  { unfold m1. now destruct (negb (Rev002.hasSentences m)
                             && ((char =? 33) || (char =? 46) || (char =? 63))). }
  destruct H1 as [Hb1 Hp1].
  destruct (char =? 32).
  - unfold bind.
    destruct (negb (first =? "")%string).
    + destruct (rev002_addWords_flags first (Some second) m1) as [Hb [Hp _]].
      destruct (Rev002._addWords first (Some second) m1) as [[[]|e] m2];
        simpl in *.
      * destruct (IH second "" m2) as [Hb2 Hp2]. split; congruence.
      * split; congruence.
    + unfold ret. destruct (IH second "" m1) as [Hb2 Hp2]. split; congruence.
  - destruct ((32 <? char) && (char <? 127)).
    + destruct (IH first (second ++ Rev002.fromCharCode char)%string m1)
        as [Hb2 Hp2].
      split; congruence.
    + destruct (IH first second m1) as [Hb2 Hp2]. split; congruence.
Qed.

(** X17 (part_002 process): a call of [process] that neither returns the
    instance nor is skipped, as an input of a wrong type does, leaves
    [#busy] set; from then on every call of [process] is skipped and changes
    nothing, and [#prepared] is as before. *)
Theorem process_failure_locks
        (input input' : Rev002.Input) (m : Rev002.AsyncMarkov) :
  Rev002.busy m = false ->
  fst (Rev002.process input m) <> Rev002.Processed ->
  Rev002.process input' (snd (Rev002.process input m))
  = (Rev002.Skipped, snd (Rev002.process input m))
  /\ Rev002.prepared (snd (Rev002.process input m)) = Rev002.prepared m
  /\ fst (Rev002.process Rev002.InOther m) = Rev002.InvalidInput.
Proof.
  intros Hbusy Hfail.
  assert (Hlock : Rev002.busy (snd (Rev002.process input m)) = true
                  /\ Rev002.prepared (snd (Rev002.process input m))
                     = Rev002.prepared m).
  { revert Hfail. unfold Rev002.process. rewrite Hbusy.
    destruct input as [s|b|].
    - unfold Rev002.processString.
      match goal with
      | |- context [Rev002.addWords_loop ?ps ?m1] =>
          destruct (rev002_addWords_loop_flags ps m1) as [Hb Hp];
          destruct (Rev002.addWords_loop ps m1) as [[[]|e] m2]
      end.
      + intro H. now elim H.
      + intros _. simpl in *. split; [rewrite Hb|rewrite Hp];
          now destruct (negb (Rev002.hasSentences m)).
    - unfold Rev002.processBuffer.
      match goal with
      | |- context [Rev002.processBuffer_loop ?b ?f ?s ?m1] =>
          destruct (rev002_processBuffer_loop_flags b f s m1) as [Hb Hp];
          destruct (Rev002.processBuffer_loop b f s m1) as [[[]|e] m2]
      end.
      + intro H. now elim H.
      + intros _. simpl in *. now split.
    - intros _. now split. }
  destruct Hlock as [Hb Hp].
  split; [|split; [exact Hp|]].
  - unfold Rev002.process at 1. now rewrite Hb.
  - unfold Rev002.process. now rewrite Hbusy.
Qed.

Lemma process_failure_locks_witness :
  Rev002.process (Rev002.InString "a b")
                 (snd (Rev002.process Rev002.InOther Rev002.empty))
  = (Rev002.Skipped, snd (Rev002.process Rev002.InOther Rev002.empty))
  /\ Rev002.prepared (snd (Rev002.process Rev002.InOther Rev002.empty))
     = Rev002.prepared Rev002.empty
  /\ fst (Rev002.process Rev002.InOther Rev002.empty) = Rev002.InvalidInput.
Proof.
  apply (@process_failure_locks Rev002.InOther (Rev002.InString "a b")
           Rev002.empty).
  - reflexivity.
  - discriminate.
Defined.

(** ** src/unnamed/part_002: processBuffer *)

Lemma rev002_processBuffer_loop_filter (buffer : list Z) :
  forall first second m,
    Rev002.processBuffer_loop buffer first second m
    = Rev002.processBuffer_loop (filter space_or_printable buffer)
                                first second m.
Proof.
  induction buffer as [|char rest IH]; intros first second m; [reflexivity|].
  simpl. unfold space_or_printable at 1.
  destruct (char =? 32) eqn:E32.
  - simpl. rewrite E32. unfold bind.
    match goal with
    | |- match ?c with _ => _ end = _ => destruct c as [[[]|e] m2]
    end; [apply IH|reflexivity].
  - destruct ((32 <? char) && (char <? 127)) eqn:Ep.
    + simpl. rewrite E32, Ep. apply IH.
    + simpl.
      assert (Hm : ((char =? 33) || (char =? 46) || (char =? 63)) = false).
      { apply andb_false_iff in Ep.
        destruct (char =? 33) eqn:E1; [apply Z.eqb_eq in E1|];
          [destruct Ep as [Ep|Ep]; [apply Z.ltb_ge in Ep|apply Z.ltb_ge in Ep];
           lia|].
        destruct (char =? 46) eqn:E2; [apply Z.eqb_eq in E2|];
          [destruct Ep as [Ep|Ep]; [apply Z.ltb_ge in Ep|apply Z.ltb_ge in Ep];
           lia|].
        destruct (char =? 63) eqn:E3; [apply Z.eqb_eq in E3|];
          [destruct Ep as [Ep|Ep]; [apply Z.ltb_ge in Ep|apply Z.ltb_ge in Ep];
           lia|].
        reflexivity. }
      rewrite Hm, andb_false_r. apply IH.
Qed.

(** X18 (part_002 processBuffer): the bytes other than the space and the
    printable ASCII characters 33..126 have no effect: feeding a buffer is
    feeding what is left of it without them. *)
Theorem processBuffer_ignores_other_bytes
        (buffer : list Z) (m : Rev002.AsyncMarkov) :
  Rev002.processBuffer buffer m
  = Rev002.processBuffer (filter space_or_printable buffer) m.
Proof.
  apply rev002_processBuffer_loop_filter.
Qed.

Lemma rev002_processBuffer_loop_no_space (tail : list Z) :
  Forall (fun char => char <> 32) tail ->
  forall first second m,
    fst (Rev002.processBuffer_loop tail first second m) = Return tt
    /\ Rev002.words (snd (Rev002.processBuffer_loop tail first second m))
       = Rev002.words m.
Proof.
  induction 1 as [|char rest Hchar _ IH]; intros first second m; [now split|].
  simpl. apply Z.eqb_neq in Hchar. rewrite Hchar.
  set (m1 := if negb (Rev002.hasSentences m)
                && ((char =? 33) || (char =? 46) || (char =? 63))
             then Rev002.mkModel (Rev002.words m) true (Rev002.busy m)
                                 (Rev002.prepared m) (Rev002.inherits m)
             else m).
  assert (H1 : Rev002.words m1 = Rev002.words m).
  { unfold m1. now destruct (negb (Rev002.hasSentences m)
                             && ((char =? 33) || (char =? 46) || (char =? 63))). }
  rewrite <- H1.
  destruct ((32 <? char) && (char <? 127)); apply IH.
Qed.

Lemma rev002_processBuffer_loop_app (buffer tail : list Z) :
  Forall (fun char => char <> 32) tail ->
  forall first second m,
    fst (Rev002.processBuffer_loop (buffer ++ tail) first second m)
    = fst (Rev002.processBuffer_loop buffer first second m)
    /\ Rev002.words
         (snd (Rev002.processBuffer_loop (buffer ++ tail) first second m))
       = Rev002.words (snd (Rev002.processBuffer_loop buffer first second m)).
Proof.
  intro Htail. induction buffer as [|char rest IH]; intros first second m.
  - simpl app. now apply rev002_processBuffer_loop_no_space.
  - simpl.
    destruct (char =? 32).
    + unfold bind.
      match goal with
      | |- context [match ?c with _ => _ end] => destruct c as [[[]|e] m2]
      end; [apply IH|now split].
    + destruct ((32 <? char) && (char <? 127)); apply IH.
Qed.

(** X19 (part_002 processBuffer): a word is recorded only when the space
    after it is read; the bytes that follow the last space of a buffer add
    nothing to the Entries, so a buffer without a space records no pair. *)
Theorem processBuffer_drops_unterminated_word
        (buffer tail : list Z) (m : Rev002.AsyncMarkov) :
  Forall (fun char => char <> 32) tail ->
  fst (Rev002.processBuffer (buffer ++ tail) m)
  = fst (Rev002.processBuffer buffer m)
  /\ Rev002.words (snd (Rev002.processBuffer (buffer ++ tail) m))
     = Rev002.words (snd (Rev002.processBuffer buffer m))
  /\ Rev002.words (snd (Rev002.processBuffer tail m)) = Rev002.words m.
Proof.
  intro Htail. unfold Rev002.processBuffer.
  destruct (rev002_processBuffer_loop_app buffer Htail "" "" m) as [H1 H2].
  split; [exact H1|]. split; [exact H2|].
  now apply rev002_processBuffer_loop_no_space.
Qed.

Lemma processBuffer_drops_unterminated_word_witness :
  fst (Rev002.processBuffer ([97; 32; 98; 32] ++ [99; 100]) Rev002.empty)
  = fst (Rev002.processBuffer [97; 32; 98; 32] Rev002.empty)
  /\ Rev002.words
       (snd (Rev002.processBuffer ([97; 32; 98; 32] ++ [99; 100]) Rev002.empty))
     = Rev002.words (snd (Rev002.processBuffer [97; 32; 98; 32] Rev002.empty))
  /\ Rev002.words (snd (Rev002.processBuffer [99; 100] Rev002.empty))
     = Rev002.words Rev002.empty.
Proof.
  apply (@processBuffer_drops_unterminated_word [97; 32; 98; 32] [99; 100]
           Rev002.empty).
  repeat constructor; discriminate.
Defined.

(** ** src/unnamed/part_002: processString *)

Lemma related_write_own (key : Word) (v : num) (rel : Related) :
  plain_word key -> related_get (related_write key v rel) key = Some v.
Proof.
  intro Hplain. unfold related_write.
  pose proof (plain_word_not_proto Hplain) as Hne.
  apply String.eqb_neq in Hne. rewrite Hne.
  destruct (related_get rel key);
    apply (obj_get_set_same String.eqb string_array_index string_eqb_eq).
Qed.

Lemma rev002_addWords_returns (ws : Legacy.Words) (hs b p : bool)
      (first : Word) (second : option Word) :
  exists ws' node,
    Rev002._addWords first second (Rev002.mkModel (Some ws) hs b p false)
    = (Return tt, Rev002.mkModel (Some ws') hs b p false)
    /\ Legacy.words_get ws' first = Some node
    /\ (plain_word (Rev002.property_name second) ->
        related_get (Legacy.related node) (Rev002.property_name second)
        <> None)
    /\ (forall k, Legacy.words_get ws k <> None ->
                  Legacy.words_get ws' k <> None).
Proof.
  unfold Rev002._addWords, Rev002.words_inherited. simpl.
  set (ws1 := match Legacy.words_get ws first with
              | Some node =>
                  Legacy.words_set first
                    (Legacy.mkNode (Legacy.total node + 1)
                                   (Legacy.related node) (Legacy.mapped node))
                    ws
              | None => Legacy.words_set first (Legacy.mkNode 1 [] None) ws
              end).
  assert (H1 : exists node1, Legacy.words_get ws1 first = Some node1).
  { unfold ws1. destruct (Legacy.words_get ws first);
      rewrite legacy_words_get_set_same; eauto. }
  assert (Hk1 : forall k, Legacy.words_get ws k <> None ->
                          Legacy.words_get ws1 k <> None).
  { intros k Hk. unfold ws1. destruct (Legacy.words_get ws first);
      now apply legacy_words_set_keeps. }
  destruct H1 as [node1 E1]. rewrite E1.
  eexists. eexists. split; [reflexivity|]. split.
  - apply legacy_words_get_set_same.
  - split.
    + intro Hplain. simpl.
      destruct (is_undefined (related_read (Legacy.related node1)
                                (Rev002.property_name second))).
      * now rewrite related_write_own.
      * unfold related_increment. now rewrite related_write_own.
    + intros k Hk. apply legacy_words_set_keeps. now apply Hk1.
Qed.

Lemma rev002_addWords_loop_data (data : list Word) :
  data <> [] ->
  forall (ws : Legacy.Words) (hs b p : bool),
  exists ws',
    Rev002.addWords_loop (Rev002.pairs_undefined data)
                         (Rev002.mkModel (Some ws) hs b p false)
    = (Return tt, Rev002.mkModel (Some ws') hs b p false)
    /\ (forall k, Legacy.words_get ws k <> None ->
                  Legacy.words_get ws' k <> None)
    /\ (forall t, In t data -> Legacy.words_get ws' t <> None)
    /\ (exists node,
           Legacy.words_get ws' (last data "") = Some node
           /\ related_get (Legacy.related node) "undefined" <> None).
Proof.
  induction data as [|t rest IH]; intros Hne ws hs b p; [congruence|].
  destruct rest as [|t2 rest].
  - simpl Rev002.pairs_undefined. simpl Rev002.addWords_loop. unfold bind.
    destruct (rev002_addWords_returns ws hs b p t None)
      as [ws1 [node [E [Hget [Hown Hkeep]]]]].
    rewrite E. exists ws1. split; [reflexivity|]. split; [exact Hkeep|].
    split.
    + intros t' [<-|[]]. now rewrite Hget.
    + exists node. split; [exact Hget|]. now apply Hown.
  - change (Rev002.pairs_undefined (t :: t2 :: rest))
      with ((t, Some t2) :: Rev002.pairs_undefined (t2 :: rest)).
    simpl Rev002.addWords_loop. unfold bind.
    destruct (rev002_addWords_returns ws hs b p t (Some t2))
      as [ws1 [node [E [Hget [_ Hkeep]]]]].
    rewrite E.
    assert (Hne2 : t2 :: rest <> []) by discriminate.
    destruct (IH Hne2 ws1 hs b p) as [ws' [E' [Hkeep' [Hin Hlast]]]].
    exists ws'. split; [exact E'|]. split.
    + intros k Hk. apply Hkeep'. now apply Hkeep.
    + split.
      * intros t' [<-|Ht'].
        -- apply Hkeep'. now rewrite Hget.
        -- now apply Hin.
      * exact Hlast.
Qed.

(** X20 (part_002 processString and _addWords): on an instance that
    [load] has not touched (its [#words] is an object without prototype),
    [processString] returns and keeps every Entry.  The
    loop runs over every index of [data], the last one included, where
    [data[i + 1]] is [undefined]: so every token has an Entry afterwards,
    the Entry of the last token counts the successor "undefined", and as
    [split] never gives an empty array even the empty text leaves an Entry
    behind. *)
Theorem processString_records_every_token
        (str : string) (m : Rev002.AsyncMarkov) (ws : Legacy.Words) :
  Rev002.words m = Some ws -> Rev002.inherits m = false ->
  exists ws',
    Rev002.processString str m
    = (Return tt,
       Rev002.mkModel (Some ws')
                      (Rev002.hasSentences m || sentenceRegex_test str)
                      (Rev002.busy m) (Rev002.prepared m) false)
    /\ Rev002.data_of str <> []
    /\ (forall k, Legacy.words_get ws k <> None ->
                  Legacy.words_get ws' k <> None)
    /\ (forall t, In t (Rev002.data_of str) ->
                  Legacy.words_get ws' t <> None)
    /\ (exists node,
           Legacy.words_get ws' (last (Rev002.data_of str) "") = Some node
           /\ related_get (Legacy.related node) "undefined" <> None).
Proof.
  intros Hws Hinh. destruct m as [wso hs b p inh]. simpl in Hws, Hinh.
  subst wso inh.
  unfold Rev002.processString. simpl.
  assert (Hm1 : (if negb hs
                 then Rev002.mkModel (Some ws) (sentenceRegex_test str) b p false
                 else Rev002.mkModel (Some ws) hs b p false)
                = Rev002.mkModel (Some ws) (hs || sentenceRegex_test str) b p false).
  { now destruct hs. }
  rewrite Hm1.
  assert (Hne : Rev002.data_of str <> []) by apply split_space_nonempty.
  destruct (rev002_addWords_loop_data Hne ws (hs || sentenceRegex_test str) b p)
    as [ws' [E [Hkeep [Hin Hlast]]]].
  exists ws'. split; [exact E|]. split; [exact Hne|].
  split; [exact Hkeep|]. split; [exact Hin|exact Hlast].
Qed.

Lemma processString_records_every_token_witness :
  exists ws',
    Rev002.processString "" Rev002.empty
    = (Return tt,
       Rev002.mkModel (Some ws')
                      (Rev002.hasSentences Rev002.empty || sentenceRegex_test "")
                      (Rev002.busy Rev002.empty) (Rev002.prepared Rev002.empty)
                      false)
    /\ Rev002.data_of "" <> []
    /\ (forall k, Legacy.words_get [] k <> None ->
                  Legacy.words_get ws' k <> None)
    /\ (forall t, In t (Rev002.data_of "") ->
                  Legacy.words_get ws' t <> None)
    /\ (exists node,
           Legacy.words_get ws' (last (Rev002.data_of "") "") = Some node
           /\ related_get (Legacy.related node) "undefined" <> None).
Proof.
  apply (@processString_records_every_token "" Rev002.empty []);
    reflexivity.
Defined.

(** ** src/unnamed/part_002: sentences on an instance fed by strings *)

Section ObjectForall.
Variables K V : Type.
Variable key_eqb : K -> K -> bool.
Variable array_index : K -> option Z.
Hypothesis key_eqb_eq : forall a b, key_eqb a b = true <-> a = b.
Variable P : K * V -> Prop.

Lemma obj_replace_Forall (o : object K V) k v :
  P (k, v) -> Forall P o -> Forall P (obj_replace key_eqb k v o).
Proof.
  intros Hkv Ho. induction Ho as [|[k' v'] rest Hh Ht IH]; simpl; [constructor|].
  destruct (key_eqb k' k) eqn:E.
  - apply key_eqb_eq in E. subst. now constructor.
  - constructor; assumption.
Qed.

Lemma obj_insert_index_Forall (o : object K V) i k v :
  P (k, v) -> Forall P o -> Forall P (obj_insert_index array_index i k v o).
Proof.
  intros Hkv Ho. apply Forall_forall. intros e He.
  apply obj_insert_index_In in He. rewrite Forall_forall in Ho.
  destruct He as [->|He]; auto.
Qed.

Lemma obj_set_Forall (o : object K V) k v :
  P (k, v) -> Forall P o -> Forall P (obj_set key_eqb array_index k v o).
Proof.
  intros Hkv Ho. unfold obj_set.
  destruct (obj_get key_eqb o k).
  - now apply obj_replace_Forall.
  - destruct (array_index k).
    + now apply obj_insert_index_Forall.
    + apply Forall_app. split; [assumption|now constructor].
Qed.
End ObjectForall.

Lemma related_write_no_mark (key : Word) (v : num) (rel : Related) :
  no_mark key -> Forall (fun e => no_mark (fst e)) rel ->
  Forall (fun e => no_mark (fst e)) (related_write key v rel).
Proof.
  intros Hk Hrel. unfold related_write, related_set.
  destruct (related_get rel key).
  - now apply (@obj_set_Forall _ _ String.eqb string_array_index string_eqb_eq).
  - destruct (key =? "__proto__")%string; [assumption|].
    now apply (@obj_set_Forall _ _ String.eqb string_array_index string_eqb_eq).
Qed.

Lemma accumulate_no_mark (rel : Related) (start : Sums) :
  Forall (fun e => no_mark (fst e)) rel ->
  Forall (fun e => no_mark (snd e)) start ->
  Forall (fun e => no_mark (snd e)) (snd (accumulate rel start)).
Proof.
  intros Hrel Hstart. unfold accumulate.
  assert (Hkeys : Forall no_mark (obj_keys rel)).
  { unfold obj_keys. apply Forall_map. exact Hrel. }
  generalize (Int 0). revert start Hstart.
  induction Hkeys as [|key keys Hkey _ IH]; intros start Hstart from;
    [exact Hstart|].
  simpl. apply IH. unfold sums_set.
  now apply (@obj_set_Forall _ _ num_eqb num_array_index num_eqb_eq).
Qed.

Lemma first_pick_no_mark (roll : Z) (s : Sums) (keys : list num) (w : Word) :
  Forall (fun e => no_mark (snd e)) s ->
  first_pick roll s keys = Some w -> no_mark w.
Proof.
  intro Hs. induction keys as [|pick rest IH]; simpl; [discriminate|].
  destruct (lt_num roll pick); [|exact IH].
  intro Hget. unfold sums_get in Hget.
  apply (obj_get_Some_In num_eqb num_eqb_eq) in Hget.
  rewrite Forall_forall in Hs. exact (Hs _ Hget).
Qed.

Lemma legacy_calculateWeights_no_mark (node : Legacy.Node) :
  no_mark_node node -> no_mark_node (Legacy.calculateWeights node).
Proof.
  intros [Hrel _]. split; [exact Hrel|].
  simpl. intros s Hs. injection Hs as <-.
  apply accumulate_no_mark; [exact Hrel|constructor].
Qed.

Lemma legacy_selectWeighted_no_mark (node : Legacy.Node) (r : Q) :
  no_mark_node node ->
  no_mark_node (snd (Legacy.selectWeighted node r))
  /\ (forall w, fst (Legacy.selectWeighted node r) = Some w -> no_mark w).
Proof.
  intro Hnode. unfold Legacy.selectWeighted.
  set (object1 := match Legacy.mapped node with
                  | Some _ => node
                  | None => Legacy.calculateWeights node
                  end).
  assert (H1 : no_mark_node object1).
  { unfold object1. destruct (Legacy.mapped node);
      [exact Hnode|now apply legacy_calculateWeights_no_mark]. }
  destruct (Legacy.mapped object1) as [s|] eqn:Es; simpl.
  - split; [exact H1|]. intros w Hw.
    exact (@first_pick_no_mark _ s _ w (proj2 H1 s Es) Hw).
  - split; [exact H1|discriminate].
Qed.

Lemma no_mark_words_get (ws : Legacy.Words) (k : Word) (node : Legacy.Node) :
  no_mark_words ws -> Legacy.words_get ws k = Some node -> no_mark_node node.
Proof.
  intros Hws Hget. unfold Legacy.words_get in Hget.
  apply (obj_get_Some_In String.eqb string_eqb_eq) in Hget.
  unfold no_mark_words in Hws. rewrite Forall_forall in Hws.
  exact (Hws _ Hget).
Qed.

Lemma no_mark_words_set (ws : Legacy.Words) (k : Word) (node : Legacy.Node) :
  no_mark_words ws -> no_mark_node node ->
  no_mark_words (Legacy.words_set k node ws).
Proof.
  intros Hws Hnode. unfold no_mark_words, Legacy.words_set.
  now apply (@obj_set_Forall _ _ String.eqb string_array_index string_eqb_eq).
Qed.

Lemma no_mark_words_replace (ws : Legacy.Words) (k : Word) (node : Legacy.Node) :
  no_mark_words ws -> no_mark_node node ->
  no_mark_words (obj_replace String.eqb k node ws).
Proof.
  intros Hws Hnode. unfold no_mark_words.
  now apply (@obj_replace_Forall _ _ String.eqb string_eqb_eq).
Qed.

Lemma rev002_addWords_no_mark (ws : Legacy.Words) (hs b p : bool)
      (first : Word) (second : option Word) :
  no_mark (Rev002.property_name second) -> no_mark_words ws ->
  forall ws',
    Rev002.words (snd (Rev002._addWords first second
                         (Rev002.mkModel (Some ws) hs b p false))) = Some ws' ->
    no_mark_words ws'.
Proof.
  intros Hsecond Hws ws'. unfold Rev002._addWords, Rev002.words_inherited. simpl.
  set (ws1 := match Legacy.words_get ws first with
              | Some node =>
                  Legacy.words_set first
                    (Legacy.mkNode (Legacy.total node + 1)
                                   (Legacy.related node) (Legacy.mapped node))
                    ws
              | None => Legacy.words_set first (Legacy.mkNode 1 [] None) ws
              end).
  assert (H1 : no_mark_words ws1).
  { unfold ws1. destruct (Legacy.words_get ws first) as [node|] eqn:E.
    - apply no_mark_words_set; [exact Hws|].
      destruct (@no_mark_words_get ws first node Hws E) as [Hr Hm]. split; assumption.
    - apply no_mark_words_set; [exact Hws|].
      split; [constructor|discriminate]. }
  destruct (Legacy.words_get ws1 first) as [node1|] eqn:E1; simpl.
  - intro H. injection H as <-.
    apply no_mark_words_set; [exact H1|].
    destruct (@no_mark_words_get ws1 first node1 H1 E1) as [Hr Hm].
    split; [|exact Hm]. simpl.
    destruct (is_undefined _); [now apply related_write_no_mark|].
    unfold related_increment. now apply related_write_no_mark.
  - intro H. injection H as <-. exact H1.
Qed.

Lemma remove_other_no_mark (s : string) : no_mark (Rev002.remove_other s).
Proof.
  unfold no_mark. induction s as [|c s IH]; [reflexivity|].
  simpl. destruct (Rev002.is_word_char c || (c =? " ")%char) eqn:E;
    [|exact IH].
  simpl. rewrite IH, orb_false_r.
  destruct (c =? "?")%char eqn:E1;
    [apply Ascii.eqb_eq in E1; subst; discriminate E|].
  destruct (c =? "!")%char eqn:E2;
    [apply Ascii.eqb_eq in E2; subst; discriminate E|].
  destruct (c =? ".")%char eqn:E3;
    [apply Ascii.eqb_eq in E3; subst; discriminate E|].
  reflexivity.
Qed.

Lemma replace_whitespace_no_mark (in_run : bool) (s : string) :
  no_mark s -> no_mark (replace_whitespace in_run s).
Proof.
  unfold no_mark. revert in_run. induction s as [|c s IH]; intros in_run H;
    [reflexivity|].
  simpl in H. apply orb_false_iff in H. destruct H as [Hc Hs].
  simpl. destruct (is_space c).
  - destruct in_run; [now apply IH|]. simpl. now apply IH.
  - simpl. rewrite Hc. now apply IH.
Qed.

Lemma split_space_no_mark (s : string) :
  no_mark s -> Forall no_mark (split_space s).
Proof.
  unfold no_mark. induction s as [|c s IH]; intro H.
  - repeat constructor.
  - simpl in H. apply orb_false_iff in H. destruct H as [Hc Hs].
    specialize (IH Hs). simpl.
    destruct (c =? " ")%char.
    + constructor; [reflexivity|exact IH].
    + destruct (split_space s) as [|h t].
      * repeat constructor. simpl. now rewrite Hc.
      * inversion IH as [|? ? Hh Ht]; subst.
        constructor; [|exact Ht]. simpl. now rewrite Hc, Hh.
Qed.

Lemma data_of_no_mark (str : string) : Forall no_mark (Rev002.data_of str).
Proof.
  unfold Rev002.data_of. apply split_space_no_mark.
  apply replace_whitespace_no_mark. apply remove_other_no_mark.
Qed.

Lemma rev002_addWords_loop_no_mark (data : list Word) :
  Forall no_mark data ->
  forall (ws : Legacy.Words) (hs b p : bool),
    no_mark_words ws ->
    exists ws',
      Rev002.addWords_loop (Rev002.pairs_undefined data)
                           (Rev002.mkModel (Some ws) hs b p false)
      = (Return tt, Rev002.mkModel (Some ws') hs b p false)
      /\ no_mark_words ws'.
Proof.
  induction 1 as [|t rest Ht Hrest IH]; intros ws hs b p Hws.
  - exists ws. now split.
  - simpl Rev002.pairs_undefined. simpl Rev002.addWords_loop. unfold bind.
    set (second := match rest with
                   | second :: _ => Some second
                   | [] => None
                   end).
    assert (Hsecond : no_mark (Rev002.property_name second)).
    { unfold second. destruct Hrest; [reflexivity|assumption]. }
    destruct (rev002_addWords_returns ws hs b p t second)
      as [ws1 [node [E _]]].
    pose proof (@rev002_addWords_no_mark ws hs b p t second Hsecond Hws ws1)
      as H1.
    rewrite E in H1. rewrite E.
    apply IH. now apply H1.
Qed.

Lemma rev002_process_string_ok (s : string) (m : Rev002.AsyncMarkov) :
  fed_ok m -> fed_ok (snd (Rev002.process (Rev002.InString s) m)).
Proof.
  intros [ws [Hws [Hok Hinh]]]. unfold Rev002.process.
  destruct (Rev002.busy m); [now exists ws|].
  unfold Rev002.processString. rewrite Hws, Hinh. simpl.
  match goal with
  | |- context [Rev002.addWords_loop ?ps ?m1] =>
      assert (H : exists ws' hs b p,
                 Rev002.addWords_loop ps m1
                 = (Return tt, Rev002.mkModel (Some ws') hs b p false)
                 /\ no_mark_words ws')
  end.
  { destruct (negb (Rev002.hasSentences m));
      match goal with
      | |- context [Rev002.mkModel (Some ws) ?hs ?b ?p false] =>
          destruct (rev002_addWords_loop_no_mark (data_of_no_mark s)
                      hs b p Hok) as [ws' [E Hok']]
      end; eauto 6. }
  destruct H as [ws' [hs [b [p [E Hok']]]]]. rewrite E. simpl.
  exists ws'. now repeat split.
Qed.

Lemma legacy_finalize_fold_no_mark (ks : list Word) :
  forall ws : Legacy.Words,
    no_mark_words ws ->
    no_mark_words
      (fold_left
         (fun acc key =>
            match Legacy.words_get acc key with
            | Some node =>
                obj_replace String.eqb key (Legacy.calculateWeights node) acc
            | None => acc
            end) ks ws).
Proof.
  induction ks as [|k ks IH]; intros ws Hws; [exact Hws|].
  simpl. apply IH.
  destruct (Legacy.words_get ws k) as [node|] eqn:E; [|exact Hws].
  apply no_mark_words_replace; [exact Hws|].
  apply legacy_calculateWeights_no_mark.
  exact (@no_mark_words_get ws k node Hws E).
Qed.

Lemma rev002_finalize_ok (m : Rev002.AsyncMarkov) :
  fed_ok m -> fed_ok (snd (Rev002.finalize m)).
Proof.
  intros [ws [Hws [Hok Hinh]]]. unfold Rev002.finalize, Legacy.finalize. simpl.
  rewrite Hws. simpl. eexists. split; [reflexivity|].
  split; [now apply legacy_finalize_fold_no_mark|exact Hinh].
Qed.

Lemma rev002_word_ok (root : option Word) (m : Rev002.AsyncMarkov) (g : Random) :
  fed_ok m ->
  fed_ok (fst (snd (Rev002.word root (m, g))))
  /\ (forall w, fst (Rev002.word root (m, g)) = Return (Some w) -> no_mark w).
Proof.
  intros [ws [Hws [Hok Hinh]]].
  assert (Hm : fed_ok m) by (exists ws; now repeat split).
  unfold Rev002.word.
  destruct (negb (Rev002.prepared m)); [split; [exact Hm|discriminate]|].
  rewrite Hws.
  match goal with
  | |- context [let '(root1, g1) := ?c in _] => destruct c as [root1 g1]
  end.
  unfold Rev002.words_inherited. rewrite Hinh. cbn [andb].
  destruct (Legacy.words_get ws (Rev002.property_name root1)) as [object|] eqn:E.
  - unfold Math_random.
    destruct (@legacy_selectWeighted_no_mark
                object (source g1 (position g1))
                (@no_mark_words_get ws _ object Hok E)) as [Hnode Hres].
    destruct (Legacy.selectWeighted object (source g1 (position g1)))
      as [result object'].
    simpl in *. split.
    + eexists. split; [reflexivity|].
      split; [now apply no_mark_words_replace|reflexivity].
    + intros w Hw. injection Hw as ->. now apply Hres.
  - simpl. split; [exact Hm|discriminate].
Qed.

Lemma string_fed_ok (m : Rev002.AsyncMarkov) : string_fed m -> fed_ok m.
Proof.
  induction 1 as [|s m _ IH|m _ IH|root m g _ IH].
  - exists []. split; [reflexivity|]. split; [constructor|reflexivity].
  - now apply rev002_process_string_ok.
  - now apply rev002_finalize_ok.
  - now apply rev002_word_ok.
Qed.

Lemma rev002_sentences_loop_open (fuel : nat) :
  forall (amount : Z) (current : option Word) (output : list (option Word))
         (m : Rev002.AsyncMarkov) (g : Random),
    fed_ok m -> 0 <= amount ->
    completed (fst (Rev002.sentences_loop fuel amount current output (m, g)))
    = false.
Proof.
  induction fuel as [|fuel IH]; intros amount current output m g Hm Hamount.
  - simpl. apply Z.geb_le in Hamount. now rewrite Hamount.
  - simpl. pose proof Hamount as Hge. apply Z.geb_le in Hge. rewrite Hge.
    unfold bind at 1.
    destruct (@rev002_word_ok current m g Hm) as [Hm1 Hres].
    destruct (Rev002.word current (m, g)) as [[[w|]|e] [m1 g1]];
      simpl in *; try reflexivity.
    assert (Hw : sentenceRegex_test w = false) by now apply Hres.
    rewrite Hw. now apply IH.
Qed.

(** X21 (part_002 processString, word and sentences): [processString]
    removes [?], [!] and [.] from the text before it records the words, yet
    sets [hasSentences] from the text as it was given.  On an instance fed
    by strings only no successor holds a sentence mark, so the counter of
    [sentences] never goes down: for a valid amount the call never returns
    its text, however many iterations it is given; it ends only by an
    error, as the TypeError of [current.indexOf] at a dead end. *)
Theorem sentences_never_complete
        (fuel : nat) (amount : number) (root : option Word)
        (m : Rev002.AsyncMarkov) (g : Random) :
  string_fed m ->
  completed (fst (Rev002.sentences fuel amount root (m, g))) = false.
Proof.
  intro Hfed. pose proof (string_fed_ok Hfed) as Hm.
  unfold Rev002.sentences. simpl fst.
  destruct (negb (Rev002.hasSentences m)); [reflexivity|].
  destruct (invalid_amount amount) eqn:Hvalid; [reflexivity|].
  pose proof (valid_amount_positive amount Hvalid) as Hpos.
  destruct amount as [q| | |]; try discriminate Hvalid.
  simpl in Hpos. unfold bind.
  pose proof (@rev002_sentences_loop_open fuel (Qtrunc q) root
                (if truthy root then [root] else []) m g Hm) as Hloop.
  assert (Hq : 0 <= Qtrunc q) by lia. specialize (Hloop Hq).
  destruct (Rev002.sentences_loop fuel (Qtrunc q) root
              (if truthy root then [root] else []) (m, g))
    as [[[out|]|e] w']; simpl in *; [discriminate|reflexivity|reflexivity].
Qed.

Lemma sentences_never_complete_witness :
  completed (fst (Rev002.sentences 10 (Finite 1) None
                                   (sample_string_fed, constant_source 0)))
  = false.
Proof.
  apply (@sentences_never_complete 10 (Finite 1) None sample_string_fed
           (constant_source 0)).
  unfold sample_string_fed. apply fed_string. apply fed_empty.
Defined.

(** ** generateSentences of the TypeScript revisions *)

Section SentenceFacts.
Variable S : Type.
Variable selectWeighted : Node S -> Q -> outcome (option Word) * Node S.

End SentenceFacts.



(** ** Instances made by load, in src/index.js and part_002 *)

(** The [#words] of a loaded instance inherits from [Object.prototype]: a
    word that names one of its properties and has no Entry makes the body of
    [add], [generateWord] and [_addWords] raise a [TypeError], the instance
    staying as it was.  The instances that [load] has not touched never do
    so, which is what the statements on [add], [generateWords] and
    [processString] above assume. *)
Lemma loaded_instance_inherits
      (data : Legacy.Snapshot) (ws : Legacy.Words) (k second : Word)
      (g : Random) (target : Rev002.AsyncMarkov) :
  Legacy.snap_words data = Some ws -> ws <> [] ->
  In k object_prototype_names -> Legacy.words_get ws k = None ->
  Legacy.observe k second (Legacy.load data)
  = (Throw TypeError, Legacy.load data)
  /\ Legacy.generateWord (Some k) (Legacy.load data, g)
     = (Throw TypeError, (Legacy.load data, g))
  /\ Rev002._addWords k (Some second) (Rev002.load data target)
     = (Throw TypeError, Rev002.load data target).
Proof.
  intros Hws Hne Hin Hget.
  assert (Hk : existsb (String.eqb k) object_prototype_names = true).
  { apply existsb_exists. exists k. split; [exact Hin|apply String.eqb_refl]. }
  assert (Htruthy : truthy (Some k) = true).
  { simpl in Hin.
    repeat (destruct Hin as [<-|Hin]; [reflexivity|]). destruct Hin. }
  assert (Hlen : (Z.of_nat (List.length (obj_keys ws)) =? 0) = false).
  { destruct ws; [congruence|]. simpl List.length. apply Z.eqb_neq. lia. }
  destruct data as [d wso hs]. simpl in Hws. subst wso.
  split; [|split].
  - unfold Legacy.observe, Legacy.load, Legacy.words_inherited.
    cbn [Legacy.words Legacy.inherits Legacy.hasSentences Legacy.snap_words
         Legacy.snap_hasSentences andb].
    rewrite Hget, Hk. reflexivity.
  - unfold Legacy.generateWord, Legacy.load, Legacy.words_inherited.
    cbn [Legacy.words Legacy.inherits Legacy.hasSentences Legacy.snap_words
         Legacy.snap_hasSentences andb].
    rewrite Hlen, Htruthy. cbn [negb]. rewrite Hget, Hk. reflexivity.
  - unfold Rev002._addWords, Rev002.load, Rev002.words_inherited.
    cbn [Rev002.words Rev002.inherits Legacy.snap_words
         Legacy.snap_hasSentences andb].
    rewrite Hget, Hk. reflexivity.
Qed.
